(** * LCSC catalogue scrapers: a shallow embedding and its verified properties

    The repository holds several stand-alone Python programs that harvest
    product records from a paginated catalogue:

    - [main.py]            text source, first version (no validation, no
                           error handling);
    - [claude.py]          text source with validation and soft failures;
    - [single.py]          structured (JSON API) source, one category;
    - [range.py]           structured source, many categories, id range
                           applied in [main];
    - [rangeWithSpecs.py]  the same with a specs column, id range applied in
                           [get_all_category_urls].

    Python [str] is modelled as [list ascii], a sequence of code points
    below 256.  The network, the JSON decoder and the HTML parser are the
    environment: they are variables of the section that holds the programs. *)

From Stdlib Require Import Ascii String List ZArith Lia Bool Arith.
From stdpp Require Import base decidable countable gmap strings.
Import ListNotations.

Local Open Scope nat_scope.

(** ** Python strings *)

Abbreviation str := (list ascii).

(** A literal. *)
Definition L (s : string) : str := list_ascii_of_string s.

Definition chr_eqb (a b : ascii) : bool := Ascii.eqb a b.

Definition code (a : ascii) : nat := nat_of_ascii a.

Definition between (lo hi : nat) (a : ascii) : bool :=
  (lo <=? code a) && (code a <=? hi).

(** [str.isspace] and the class [\s] of [re] agree on code points below 256:
    TAB..CR, FS..US, space, NEL and NBSP. *)
Definition is_space (a : ascii) : bool :=
  between 9 13 a || between 28 32 a || (code a =? 133) || (code a =? 160).

(** [\d] (Unicode decimal digits; below 256 these are 0-9). *)
Definition is_digit (a : ascii) : bool := between 48 57 a.

Definition is_upper (a : ascii) : bool := between 65 90 a.
Definition is_lower (a : ascii) : bool := between 97 122 a.

(** [\w] below 256: alphanumeric code points and the underscore. *)
Definition is_word (a : ascii) : bool :=
  is_digit a || is_upper a || is_lower a || (code a =? 95)
  || (code a =? 170) || (code a =? 178) || (code a =? 179) || (code a =? 181)
  || (code a =? 185) || (code a =? 186) || between 188 190 a
  || between 192 214 a || between 216 246 a || between 248 255 a.

Definition is_newline (a : ascii) : bool := code a =? 10.

Definition space : ascii := " "%char.

Fixpoint str_eqb (s t : str) : bool :=
  match s, t with
  | [], [] => true
  | a :: s', b :: t' => chr_eqb a b && str_eqb s' t'
  | _, _ => false
  end.

(** Truthiness of a string: [not s] is [is_empty s]. *)
Definition is_empty {A} (l : list A) : bool :=
  match l with [] => true | _ => false end.

Fixpoint drop_while {A} (f : A -> bool) (l : list A) : list A :=
  match l with
  | [] => []
  | a :: l' => if f a then drop_while f l' else l
  end.

Definition lstrip (s : str) : str := drop_while is_space s.
Definition rstrip (s : str) : str := rev (drop_while is_space (rev s)).

(** [s.strip()] *)
Definition strip (s : str) : str := rstrip (lstrip s).

(** [s.split()]: the maximal runs of non-whitespace; [cur] is the run being
    read, in reverse. *)
Fixpoint split_ws (cur : str) (s : str) : list str :=
  match s with
  | [] => match cur with [] => [] | _ => [rev cur] end
  | a :: s' =>
      if is_space a
      then match cur with
           | [] => split_ws [] s'
           | _ => rev cur :: split_ws [] s'
           end
      else split_ws (a :: cur) s'
  end.

Definition split (s : str) : list str := split_ws [] s.

(** [sep.join(parts)] *)
Fixpoint join (sep : str) (parts : list str) : str :=
  match parts with
  | [] => []
  | [w] => w
  | w :: rest => w ++ sep ++ join sep rest
  end.

(** [s[:n]] *)
Definition slice_to (n : nat) (s : str) : str := firstn n s.

(** What follows the first occurrence of [c] in [s], when there is one. *)
Fixpoint after_first (c : ascii) (s : str) : option str :=
  match s with
  | [] => None
  | a :: s' => if chr_eqb a c then Some s' else after_first c s'
  end.

(** [s.rsplit(c, 1)[0]]: what precedes the last occurrence of [c], the whole
    of [s] when [c] does not occur. *)
Definition rsplit1_head (c : ascii) (s : str) : str :=
  match after_first c (rev s) with
  | Some r => rev r
  | None => s
  end.

(** [s.startswith(p)] *)
Fixpoint startswith (p s : str) : bool :=
  match p, s with
  | [], _ => true
  | a :: p', b :: s' => chr_eqb a b && startswith p' s'
  | _ :: _, [] => false
  end.

(** [p in s] for strings *)
Fixpoint contains (p s : str) : bool :=
  startswith p s ||
  match s with
  | [] => false
  | _ :: s' => contains p s'
  end.

(** [int(s)] on a string of decimal digits. *)
Definition digit_val (a : ascii) : Z := Z.of_nat (code a - 48).

Definition int_of_digits (s : str) : Z :=
  fold_left (fun acc a => (10 * acc + digit_val a)%Z) s 0%Z.

(** [x or y] on values that may be absent ([None]) or empty. *)
Definition truthy (o : option str) : bool :=
  match o with
  | Some (_ :: _) => true
  | _ => false
  end.

Definition py_or (x y : option str) : option str :=
  if truthy x then x else y.

(** [x or ""] *)
Definition or_empty (x : option str) : str :=
  match x with
  | Some s => s
  | None => []
  end.

(** [x or []] *)
Definition or_empty_list {A} (x : option (list A)) : list A :=
  match x with
  | Some l => l
  | None => []
  end.

(** ** Regular expressions, with the backtracking semantics of [re]

    The matcher works on a position of the subject, given as the text
    before it (reversed) and the text after it.  None of the patterns of
    these programs has a repetition whose body can match the empty string,
    so an iteration is required to consume input. *)

Inductive regex : Type :=
| Eps : regex
| Cls : (ascii -> bool) -> regex        (* one character of a class *)
| Cat : regex -> regex -> regex
| Alt : regex -> regex -> regex         (* r1|r2, r1 tried first *)
| Rep : bool -> nat -> regex -> regex   (* r{n,}; greedy when the flag is set *)
| Opt : bool -> regex -> regex          (* r?; greedy when the flag is set *)
| Grp : nat -> regex -> regex           (* a capture group and its number *)
| Bol : regex                           (* ^ *)
| Eol : regex                           (* $ *)
| Wb : regex.                           (* \b *)

Definition Chr (c : ascii) : regex := Cls (chr_eqb c).

(** A literal string. *)
Fixpoint Lit (s : str) : regex :=
  match s with
  | [] => Eps
  | [c] => Chr c
  | c :: s' => Cat (Chr c) (Lit s')
  end.

Definition Star (r : regex) : regex := Rep true 0 r.
Definition Plus (r : regex) : regex := Rep true 1 r.
Definition LazyPlus (r : regex) : regex := Rep false 1 r.
Definition Dot : regex := Cls (fun a => negb (is_newline a)).

Fixpoint Seq (rs : list regex) : regex :=
  match rs with
  | [] => Eps
  | [r] => r
  | r :: rs' => Cat r (Seq rs')
  end.

Definition caps := nat -> option str.

Definition no_caps : caps := fun _ => None.

Definition set_cap (n : nat) (w : str) (c : caps) : caps :=
  fun m => if n =? m then Some w else c m.

(** [m.group(n)]; a group that did not take part reads as the empty string in
    [findall]. *)
Definition group (c : caps) (n : nat) : str := or_empty (c n).

(** The text read between two positions [p] (before) and [p'] (after). *)
Definition read_between (p p' : str) : str :=
  rev (firstn (length p' - length p) p').

Definition at_bol (ml : bool) (p : str) : bool :=
  match p with
  | [] => true
  | a :: _ => ml && is_newline a
  end.

Definition at_eol (ml : bool) (s : str) : bool :=
  match s with
  | [] => true
  | a :: s' => is_newline a && (ml || is_empty s')
  end.

Definition word_before (p : str) : bool :=
  match p with [] => false | a :: _ => is_word a end.

Definition at_wb (p s : str) : bool := xorb (word_before p) (word_before s).

Definition or_else {R} (x y : option R) : option R :=
  match x with Some _ => x | None => y end.

Section Matcher.
Context {R : Type}.
Variable ml : bool.               (* re.MULTILINE *)

Definition kont := str -> str -> caps -> option R.

(** The iterations of [r{n,}]: [body] matches [r] once.  Greedy: one more
    iteration is tried before stopping; lazy: the other way round.  [fuel]
    exceeds the length of the remaining text. *)
Fixpoint rep_loop (body : str -> str -> caps -> kont -> option R) (g : bool)
  (k : kont) (fuel n : nat) (p s : str) (c : caps) {struct fuel} : option R :=
  match fuel with
  | O => None
  | S fuel' =>
      let more :=
        body p s c
          (fun p' s' c' =>
             if length s' <? length s
             then rep_loop body g k fuel' (pred n) p' s' c'
             else None) in
      let stop := match n with O => k p s c | S _ => None end in
      if g then or_else more stop else or_else stop more
  end.

Fixpoint rmatch (r : regex) (p s : str) (c : caps) (k : kont) : option R :=
  match r with
  | Eps => k p s c
  | Cls f =>
      match s with
      | a :: s' => if f a then k (a :: p) s' c else None
      | [] => None
      end
  | Cat r1 r2 => rmatch r1 p s c (fun p' s' c' => rmatch r2 p' s' c' k)
  | Alt r1 r2 => or_else (rmatch r1 p s c k) (rmatch r2 p s c k)
  | Opt g r1 =>
      if g then or_else (rmatch r1 p s c k) (k p s c)
      else or_else (k p s c) (rmatch r1 p s c k)
  | Grp n r1 =>
      rmatch r1 p s c (fun p' s' c' => k p' s' (set_cap n (read_between p p') c'))
  | Bol => if at_bol ml p then k p s c else None
  | Eol => if at_eol ml s then k p s c else None
  | Wb => if at_wb p s then k p s c else None
  | Rep g n r1 => rep_loop (rmatch r1) g k (S (length s)) n p s c
  end.

End Matcher.

(** A match found at a position: where it ends and what it captured. *)
Record rmatched := Matched { m_pre : str; m_suf : str; m_caps : caps }.

Definition match_here (ml : bool) (r : regex) (p s : str) : option rmatched :=
  rmatch ml r p s no_caps (fun p' s' c' => Some (Matched p' s' c')).

(** [re.match(r, s)] *)
Definition re_match (ml : bool) (r : regex) (s : str) : option rmatched :=
  match_here ml r [] s.

(** The leftmost match at or after a position; the result also gives the text
    before the match, reversed. *)
Fixpoint search_from (ml : bool) (r : regex) (p s : str) : option (str * rmatched) :=
  match match_here ml r p s with
  | Some m => Some (p, m)
  | None =>
      match s with
      | [] => None
      | a :: s' => search_from ml r (a :: p) s'
      end
  end.

(** [re.search(r, s)] *)
Definition re_search (ml : bool) (r : regex) (s : str) : option rmatched :=
  option_map snd (search_from ml r [] s).

(** The successive non-overlapping matches, left to right; after an empty
    match the scan moves one character on. *)
Fixpoint scan (ml : bool) (r : regex) (fuel : nat) (p s : str)
  : list (str * rmatched) :=
  match fuel with
  | O => []
  | S fuel' =>
      match search_from ml r p s with
      | None => []
      | Some (p0, m) =>
          (p0, m) ::
          (if length (m_suf m) <? length s
           then scan ml r fuel' (m_pre m) (m_suf m)
           else match m_suf m with
                | [] => []
                | a :: s' => scan ml r fuel' (a :: m_pre m) s'
                end)
      end
  end.

(** [re.findall(r, s)] for a pattern with [n] groups: the tuple of groups of
    each match. *)
Definition re_findall (ml : bool) (r : regex) (n : nat) (s : str) : list (list str) :=
  map (fun pm => map (group (m_caps (snd pm))) (seq 1 n))
      (scan ml r (S (length s)) [] s).

(** [re.sub(r, '', s)]: the text outside the matches.  [p] is the position the
    scan stands at, [from] the end of the previous match. *)
Fixpoint sub_scan (ml : bool) (r : regex) (fuel : nat) (p s : str) : str :=
  match fuel with
  | O => s
  | S fuel' =>
      match search_from ml r p s with
      | None => s
      | Some (p0, m) =>
          read_between p p0 ++
          (if length (m_suf m) <? length s
           then sub_scan ml r fuel' (m_pre m) (m_suf m)
           else match m_suf m with
                | [] => []
                | a :: s' => a :: sub_scan ml r fuel' (a :: m_pre m) s'
                end)
      end
  end.

Definition re_sub_empty (ml : bool) (r : regex) (s : str) : str :=
  sub_scan ml r (S (length s)) [] s.

(** ** The patterns of the programs *)

(** [^C\d{4,}$] *)
Definition LCSC_CODE_RE : regex :=
  Seq [Bol; Chr "C"; Rep true 4 (Cls is_digit); Eol].

(** [[\d,.]] *)
Definition amount_chr (a : ascii) : bool :=
  is_digit a || chr_eqb a "," || chr_eqb a ".".

(** [\s*\$[\d,.]+.*$] *)
Definition PRICE_RE : regex :=
  Seq [Star (Cls is_space); Chr "$"; Plus (Cls amount_chr); Star Dot; Eol].

(** [\s*US\$[\d,.]+.*$] *)
Definition US_PRICE_RE : regex :=
  Seq [Star (Cls is_space); Lit (L "US$"); Plus (Cls amount_chr); Star Dot; Eol].

(** [\s+\d+\s*pcs.*$] *)
Definition PCS_RE : regex :=
  Seq [Plus (Cls is_space); Plus (Cls is_digit); Star (Cls is_space);
       Lit (L "pcs"); Star Dot; Eol].

(** [Description\s+(.+?)(?:\s+Datasheet|\s+##\s+Products\s+Specifications|\s+Type\s+Description|$)] *)
Definition DETAIL_DESCRIPTION_RE : regex :=
  Seq [Lit (L "Description"); Plus (Cls is_space); Grp 1 (LazyPlus Dot);
       Alt (Seq [Plus (Cls is_space); Lit (L "Datasheet")])
      (Alt (Seq [Plus (Cls is_space); Lit (L "##"); Plus (Cls is_space);
                 Lit (L "Products"); Plus (Cls is_space); Lit (L "Specifications")])
      (Alt (Seq [Plus (Cls is_space); Lit (L "Type"); Plus (Cls is_space);
                 Lit (L "Description")])
           Eol))].

(** [/category/(\d+)\.html] *)
Definition CATEGORY_RE : regex :=
  Seq [Lit (L "/category/"); Grp 1 (Plus (Cls is_digit)); Chr "."; Lit (L "html")].

(** [[A-Z0-9]] *)
Definition mpn_first (a : ascii) : bool := is_upper a || is_digit a.

(** [[A-Z0-9\-.,/]] *)
Definition mpn_chr (a : ascii) : bool :=
  is_upper a || is_digit a || chr_eqb a "-" || chr_eqb a "." || chr_eqb a ","
  || chr_eqb a "/".

(** [[A-Za-z0-9/]] *)
Definition manuf_chr (a : ascii) : bool :=
  is_upper a || is_lower a || is_digit a || chr_eqb a "/".

(** [[^|$\n]] *)
Definition desc_chr (a : ascii) : bool :=
  negb (chr_eqb a "|" || chr_eqb a "$" || is_newline a).

(** [(?:Hot|Lightning)?] *)
Definition LABEL_RE : regex := Opt true (Alt (Lit (L "Hot")) (Lit (L "Lightning"))).

(** ** The data model *)

(** A product dictionary.  The keys a variant does not set are left empty;
    [page] is set when the record is appended to the rows. *)
Record product := Product {
  mpn : str;
  lcsc_code : str;
  manufacturer : str;
  description : str;
  category : str;
  subcategory : str;
  childcategory : str;
  specs_json : str;
  page : option Z }.

Definition set_page (p : product) (n : Z) : product :=
  Product (mpn p) (lcsc_code p) (manufacturer p) (description p) (category p)
          (subcategory p) (childcategory p) (specs_json p) (Some n).

Definition key : Type := str * str.

(** [(p["mpn"], p["lcsc_code"])] *)
Definition key_of (p : product) : key := (mpn p, lcsc_code p).

(** One entry of [paramVOList]. *)
Record param := Param {
  paramNameEn : option str;
  paramName : option str;
  paramValueEn : option str;
  paramValue : option str }.

(** One element of [dataList]; a field is [None] when the key is missing or
    null. *)
Record item := Item {
  productModel : option str;
  productCode : option str;
  brandNameEn : option str;
  productIntroEn : option str;
  productNameEn : option str;
  firstWmCatalogNameEn : option str;
  secondWmCatalogNameEn : option str;
  thirdWmCatalogNameEn : option str;
  wmCatalogNameEn : option str;
  encapStandard : option str;
  encapEn : option str;
  encap : option str;
  packageEn : option str;
  paramVOList : option (list param) }.

Record api_result := ApiResult {
  totalPage : option Z;
  dataList : option (list item) }.

(** The decoded JSON envelope. *)
Record api_data := ApiData { result : option api_result }.

(** What a request of the [requests] library comes back with. *)
Inductive net_outcome :=
| NetTimeout
| NetConnectionError
| NetResponse (status : Z) (body : str).

(** The environment of a run: the remote service, whose answers may depend on
    all the earlier requests, and the library functions the programs call. *)
Record env := Env {
  World : Type;
  (* requests.get(url, headers=HEADERS, timeout=TIMEOUT) *)
  requests_get : str -> World -> net_outcome * World;
  (* requests.post(PRODUCT_LIST_API, json=payload) for a catalog id and a page *)
  requests_post : Z -> Z -> World -> net_outcome * World;
  (* resp.json(): None when the body does not decode *)
  json_loads : str -> option api_data;
  (* BeautifulSoup(html, "lxml").get_text(separator=" ") *)
  soup_get_text : str -> str;
  (* soup.find_all("a", href=True): each href with get_text(strip=True) *)
  soup_find_all_a : str -> list (str * str);
  (* json.dumps(specs, ensure_ascii=False) *)
  json_dumps : list (str * str) -> str;
  (* base_url with its query parameter page set to a number *)
  with_page_query : str -> Z -> str }.

(** What a run leaves behind, in order.  [EvPage] stands for the line printed
    after a page is processed and carries the page's products, of which the
    line shows the number. *)
Inductive event :=
| EvGet (url : str)                       (* a GET was sent *)
| EvPost (catalog_id page : Z)            (* an API page was requested *)
| EvSleep                                 (* time.sleep(DELAY) *)
| EvPage (page : Z) (products : list product) (new : nat)
                                          (* "Page n: x products, y new" *)
| EvStop (page : Z)                       (* "API returned no products on page 1."
                                             "Page n: 0 products; stopping." *)
| EvSkip (page : Z)                       (* "Skipping page n due to fetch error" *)
| EvSheet (cat_id : Z) (rows : list product). (* df.to_excel(writer, ...) *)

Inductive exn := Timeout | ConnectionError | HTTPError | JSONDecodeError.

(** [isinstance(e, requests.Timeout)] *)
Definition is_Timeout (e : exn) : bool :=
  match e with Timeout => true | _ => false end.

(** [isinstance(e, requests.RequestException)] *)
Definition is_RequestException (e : exn) : bool := true.

(** [isinstance(e, ValueError)] *)
Definition is_ValueError (e : exn) : bool :=
  match e with JSONDecodeError => true | _ => false end.

Inductive res (A : Type) : Type :=
| Ret (a : A)
| Raise (e : exn).
Arguments Ret {A} a.
Arguments Raise {A} e.

(** ** Computations: the world is passed along, the events of a computation
    are collected in order, and an exception ends it *)

Definition Py (E : env) (A : Type) : Type :=
  World E -> res A * World E * list event.

Definition ret {E A} (a : A) : Py E A := fun w => (Ret a, w, []).

Definition raise {E A} (e : exn) : Py E A := fun w => (Raise e, w, []).

Definition bind {E A B} (m : Py E A) (f : A -> Py E B) : Py E B :=
  fun w =>
    match m w with
    | (Ret a, w', l) =>
        let '(r, w'', l') := f a w' in (r, w'', l ++ l')
    | (Raise e, w', l) => (Raise e, w', l)
    end.

Notation "x <- m ;; k" := (bind m (fun x => k))
  (at level 100, m at next level, right associativity).
Notation "m ;;; k" := (bind m (fun _ => k))
  (at level 100, right associativity).

Definition emit {E} (ev : event) : Py E unit := fun w => (Ret tt, w, [ev]).

(** The first handler whose class the exception belongs to. *)
Fixpoint handler_for {A} (hs : list ((exn -> bool) * A)) (e : exn) : option A :=
  match hs with
  | [] => None
  | (c, h) :: hs' => if c e then Some h else handler_for hs' e
  end.

(** [try: body  except C1: h1  except C2: h2 ...] *)
Definition try_except {E A} (body : Py E A) (hs : list ((exn -> bool) * Py E A))
  : Py E A :=
  fun w =>
    match body w with
    | (Ret a, w', l) => (Ret a, w', l)
    | (Raise e, w', l) =>
        match handler_for hs e with
        | Some h => let '(r, w'', l') := h w' in (r, w'', l ++ l')
        | None => (Raise e, w', l)
        end
    end.

(** [range(a, b)] *)
Definition py_range (a b : Z) : list Z :=
  map (fun i => (a + Z.of_nat i)%Z) (seq 0 (Z.to_nat (b - a))).

(** A response object. *)
Record response := Response { status_code : Z; text : str }.

Definition outcome_to_res (o : net_outcome) : res response :=
  match o with
  | NetTimeout => Raise Timeout
  | NetConnectionError => Raise ConnectionError
  | NetResponse s b => Ret (Response s b)
  end.

(** [requests.get(url, ...)] *)
Definition get {E} (url : str) : Py E response :=
  fun w =>
    let '(o, w') := requests_get E url w in
    (outcome_to_res o, w', [EvGet url]).

(** [requests.post(PRODUCT_LIST_API, ..., json=payload)] *)
Definition post {E} (catalog_id page : Z) : Py E response :=
  fun w =>
    let '(o, w') := requests_post E catalog_id page w in
    (outcome_to_res o, w', [EvPost catalog_id page]).

(** [resp.raise_for_status()] *)
Definition raise_for_status {E} (r : response) : Py E unit :=
  if ((400 <=? status_code r) && (status_code r <? 600))%Z
  then raise HTTPError else ret tt.

(** [resp.json()] *)
Definition json {E} (r : response) : Py E api_data :=
  match json_loads E (text r) with
  | Some d => ret d
  | None => raise JSONDecodeError
  end.

(** [time.sleep(DELAY)] *)
Definition sleep {E} : Py E unit := emit EvSleep.

(** ** The deduplicating aggregator: the inner loop of every
    [scrape_lcsc_category]

    [for p in products: key = ...; if key in seen_keys: continue; ...] *)

Record agg := Agg {
  seen_keys : gset key;
  all_rows : list product;
  new_count : nat }.

Fixpoint add_products (pg : Z) (products : list product) (a : agg) : agg :=
  match products with
  | [] => a
  | p :: ps =>
      if decide (key_of p ∈ seen_keys a)
      then add_products pg ps a
      else add_products pg ps
             (Agg ({[key_of p]} ∪ seen_keys a)
                  (all_rows a ++ [set_page p pg])
                  (S (new_count a)))
  end.

(** The aggregator at the start of a page: [new_count = 0]. *)
Definition start_page (a : agg) : agg := Agg (seen_keys a) (all_rows a) 0.

Definition empty_agg : agg := Agg ∅ [] 0.

(** ** Functions that claude.py, single.py, range.py and rangeWithSpecs.py
    share word for word *)

Definition matched {A} (o : option A) : bool :=
  match o with Some _ => true | None => false end.

Definition validate_product (product : product) : bool :=
  if is_empty (mpn product) || is_empty (lcsc_code product)
     || is_empty (manufacturer product)
  then false
  else if negb (matched (re_match false LCSC_CODE_RE (lcsc_code product)))
  then false
  else if length (mpn product) <? 2
  then false
  else true.

(** [" ".join(desc.split())] *)
Definition collapse_ws (desc : str) : str := join [space] (split desc).

(** The three [re.sub] calls of [clean_description], in order. *)
Definition strip_noise (desc : str) : str :=
  re_sub_empty false PCS_RE
    (re_sub_empty false US_PRICE_RE
       (re_sub_empty false PRICE_RE desc)).

(** [if len(desc) > 200: desc = desc[:200].rsplit(' ', 1)[0] + "..."] *)
Definition truncate (desc : str) : str :=
  if 200 <? length desc
  then rsplit1_head space (slice_to 200 desc) ++ L "..."
  else desc.

Definition clean_description (desc : str) : str :=
  if is_empty desc then []
  else strip (truncate (strip_noise (collapse_ws desc))).

Definition fetch_html {E} (url : str) : Py E (option str) :=
  try_except
    (resp <- get url ;;
     raise_for_status resp ;;;
     ret (Some (text resp)))
    [(is_Timeout, ret None);
     (is_RequestException, ret None)].

Definition fetch_description_from_detail {E} (lcsc_code : str) : Py E str :=
  if is_empty lcsc_code then ret []
  else
    let detail_url :=
      L "https://www.lcsc.com/product-detail/" ++ lcsc_code ++ L ".html" in
    html <- fetch_html detail_url ;;
    match html with
    | None => ret []
    | Some html =>
        let text := soup_get_text E html in
        match re_search false DETAIL_DESCRIPTION_RE text with
        | None => ret []
        | Some m => ret (clean_description (group (m_caps m) 1))
        end
    end.

Definition parse_catalog_id_from_url (url : str) : option Z :=
  match re_search false CATEGORY_RE url with
  | None => None
  | Some m => Some (int_of_digits (group (m_caps m) 1))
  end.

(** ** The structured source: single.py, range.py, rangeWithSpecs.py *)

(** The body of [for item in items:] in [fetch_products_page_api]; [specs]
    is the value of the [specs_json] column, which only rangeWithSpecs.py
    has. *)
Fixpoint api_products {E} (specs : item -> str) (items : list item)
  (products : list product) : Py E (list product) :=
  match items with
  | [] => ret products
  | item :: rest =>
      let mpn := strip (or_empty (productModel item)) in
      let lcsc_code := strip (or_empty (productCode item)) in
      let manufacturer := strip (or_empty (brandNameEn item)) in
      let desc_api :=
        clean_description
          (or_empty (py_or (productIntroEn item) (productNameEn item))) in
      description <-
        (if is_empty desc_api
         then fetch_description_from_detail lcsc_code
         else ret desc_api) ;;
      let category := strip (or_empty (firstWmCatalogNameEn item)) in
      let subcategory := strip (or_empty (secondWmCatalogNameEn item)) in
      let childcategory := strip (or_empty (thirdWmCatalogNameEn item)) in
      let product :=
        Product mpn lcsc_code manufacturer description category subcategory
                childcategory (specs item) None in
      api_products specs rest
        (if validate_product product then products ++ [product] else products)
  end.

Definition fetch_page_with {E} (specs : item -> str) (catalog_id page : Z)
  : Py E (list product * option Z) :=
  r <- try_except
         (resp <- post catalog_id page ;;
          raise_for_status resp ;;;
          ret (Some resp))
         [(is_Timeout, ret None);
          (is_RequestException, ret None)] ;;
  match r with
  | None => ret ([], None)
  | Some resp =>
      d <- try_except
             (data <- json resp ;; ret (Some data))
             [(is_ValueError, ret None)] ;;
      match d with
      | None => ret ([], None)
      | Some data =>
          let result :=
            match result data with
            | Some r => r
            | None => ApiResult None None
            end in
          let total_pages := totalPage result in
          let items :=
            match dataList result with
            | Some l => l
            | None => []
            end in
          products <- api_products specs items [] ;;
          ret (products, total_pages)
      end
  end.

(** [for page in range(2, pages_to_fetch + 1):] of [scrape_lcsc_category],
    over any page fetcher. *)
Fixpoint remaining_pages {E} (fetch : Z -> Z -> Py E (list product * option Z))
  (catalog_id pages_to_fetch : Z) (pages : list Z) (a : agg) : Py E agg :=
  match pages with
  | [] => ret a
  | page :: rest =>
      r <- fetch catalog_id page ;;
      let products := fst r in
      if is_empty products
      then emit (EvStop page) ;;; ret a
      else
        let a' := add_products page products (start_page a) in
        emit (EvPage page products (new_count a')) ;;;
        (if (page <? pages_to_fetch)%Z then sleep else ret tt) ;;;
        remaining_pages fetch catalog_id pages_to_fetch rest a'
  end.

(** [if max_pages and max_pages > 0: min(total_pages, max_pages) else total_pages] *)
Definition pages_to_fetch_of (total_pages max_pages : Z) : Z :=
  if (negb (max_pages =? 0) && (0 <? max_pages))%Z
  then Z.min total_pages max_pages
  else total_pages.

Definition scrape_with {E} (fetch : Z -> Z -> Py E (list product * option Z))
  (base_url : str) (max_pages : Z) : Py E (list product) :=
  match parse_catalog_id_from_url base_url with
  | None => ret []
  | Some catalog_id =>
      r <- fetch catalog_id 1%Z ;;
      let products_page1 := fst r in
      if is_empty products_page1 then emit (EvStop 1%Z) ;;; ret []
      else
        let total_pages :=
          match snd r with
          | None => 1%Z
          | Some t => t
          end in
        let pages_to_fetch := pages_to_fetch_of total_pages max_pages in
        let a := add_products 1%Z products_page1 empty_agg in
        emit (EvPage 1%Z products_page1 (new_count a)) ;;;
        a' <- remaining_pages fetch catalog_id pages_to_fetch
                (py_range 2 (pages_to_fetch + 1)) a ;;
        ret (all_rows a')
  end.

Module Single.

Definition fetch_products_page_api {E} (catalog_id page : Z)
  : Py E (list product * option Z) :=
  fetch_page_with (fun _ => []) catalog_id page.

Definition scrape_lcsc_category {E} (base_url : str) (max_pages : Z)
  : Py E (list product) :=
  scrape_with fetch_products_page_api base_url max_pages.

End Single.

(** A category descriptor: [(category_id, full_url, link_text_name)]. *)
Definition descriptor : Type := Z * str * str.

Definition cat_id_of (d : descriptor) : Z := fst (fst d).

(** [cat_id in categories] for the dictionary keyed by id. *)
Definition has_id (categories : list descriptor) (cat_id : Z) : bool :=
  existsb (fun d => (cat_id_of d =? cat_id)%Z) categories.

(** [for a in soup.find_all("a", href=True):] of [get_all_category_urls];
    [in_range] is the id filter of rangeWithSpecs.py, absent from range.py.
    The dictionary [categories] keeps its insertion order. *)
Fixpoint collect_categories (in_range : Z -> bool) (links : list (str * str))
  (categories : list descriptor) : list descriptor :=
  match links with
  | [] => categories
  | (href, link_text) :: rest =>
      match re_search false CATEGORY_RE href with
      | None => collect_categories in_range rest categories
      | Some m =>
          let cat_id := int_of_digits (group (m_caps m) 1) in
          if negb (in_range cat_id)
          then collect_categories in_range rest categories
          else
            let name := strip link_text in
            if is_empty name
            then collect_categories in_range rest categories
            else if contains (L "View All") name
            then collect_categories in_range rest categories
            else
              let full_url :=
                if startswith (L "http") href then href
                else L "https://www.lcsc.com" ++ href in
              if has_id categories cat_id
              then collect_categories in_range rest categories
              else collect_categories in_range rest
                     (categories ++ [(cat_id, full_url, name)])
      end
  end.

Definition CATEGORY_INDEX_URL : str := L "https://www.lcsc.com/products".

Definition discover {E} (in_range : Z -> bool) : Py E (list descriptor) :=
  html <- fetch_html CATEGORY_INDEX_URL ;;
  if negb (truthy html) then ret []
  else ret (collect_categories in_range (soup_find_all_a E (or_empty html)) []).

(** [for idx, (cat_id, base_url, cat_name) in enumerate(cat_list, start=1):]
    of [main]: a sheet is written for every category with rows. *)
Fixpoint scrape_categories {E} (scrape : str -> Z -> Py E (list product))
  (max_pages : Z) (cat_list : list descriptor) : Py E unit :=
  match cat_list with
  | [] => ret tt
  | (cat_id, base_url, cat_name) :: rest =>
      df <- scrape base_url max_pages ;;
      (if is_empty df then ret tt else emit (EvSheet cat_id df)) ;;;
      scrape_categories scrape max_pages rest
  end.

Module Range.

Definition scrape_lcsc_category {E} (base_url : str) (max_pages : Z)
  : Py E (list product) :=
  scrape_with Single.fetch_products_page_api base_url max_pages.

Definition get_all_category_urls {E} : Py E (list descriptor) :=
  discover (fun _ => true).

(** [main], with the configuration constants as parameters. *)
(** [[(cat_id, url, name) for ... in cat_list if START <= cat_id <= END]] *)
Definition filter_by_id (CATEGORY_ID_START CATEGORY_ID_END : Z)
  (cat_list : list descriptor) : list descriptor :=
  List.filter (fun d => (CATEGORY_ID_START <=? cat_id_of d)%Z
                        && (cat_id_of d <=? CATEGORY_ID_END)%Z) cat_list.

Definition main {E} (MAX_PAGES CATEGORY_ID_START CATEGORY_ID_END : Z) : Py E unit :=
  cat_list <- get_all_category_urls ;;
  if is_empty cat_list then ret tt
  else
    let filtered_cat_list :=
      filter_by_id CATEGORY_ID_START CATEGORY_ID_END cat_list in
    if is_empty filtered_cat_list then ret tt
    else
      try_except
        (scrape_categories scrape_lcsc_category MAX_PAGES filtered_cat_list)
        [(fun _ => true, ret tt)].

End Range.

Module RangeWithSpecs.

(** [specs[name] = value] on a dictionary that keeps its insertion order. *)
Fixpoint dict_set (name value : str) (specs : list (str * str)) : list (str * str) :=
  match specs with
  | [] => [(name, value)]
  | (k, v) :: rest =>
      if str_eqb k name then (k, value) :: rest
      else (k, v) :: dict_set name value rest
  end.

(** [name in specs] *)
Definition dict_has (name : str) (specs : list (str * str)) : bool :=
  existsb (fun kv => str_eqb (fst kv) name) specs.

(** [specs.get(name)] *)
Fixpoint dict_get (name : str) (specs : list (str * str)) : option str :=
  match specs with
  | [] => None
  | (k, v) :: rest => if str_eqb k name then Some v else dict_get name rest
  end.

(** [for p in item.get("paramVOList") or []:] *)
Fixpoint add_params (params : list param) (specs : list (str * str))
  : list (str * str) :=
  match params with
  | [] => specs
  | p :: rest =>
      let name := strip (or_empty (py_or (paramNameEn p) (paramName p))) in
      let value := strip (or_empty (py_or (paramValueEn p) (paramValue p))) in
      if is_empty name || is_empty value
      then add_params rest specs
      else if dict_has name specs
      then add_params rest specs
      else add_params rest (dict_set name value specs)
  end.

(** The part of [build_specs_from_item] before the loop over the
    parameters: the reserved keys. *)
Definition core_specs (item : item) : list (str * str) :=
  let specs := [] in
  let cat :=
    py_or (wmCatalogNameEn item)
      (py_or (firstWmCatalogNameEn item)
         (py_or (secondWmCatalogNameEn item) (thirdWmCatalogNameEn item))) in
  let specs :=
    if truthy cat then dict_set (L "Category") (strip (or_empty cat)) specs
    else specs in
  let manu := brandNameEn item in
  let specs :=
    if truthy manu then dict_set (L "Manufacturer") (strip (or_empty manu)) specs
    else specs in
  let pkg :=
    py_or (encapStandard item)
      (py_or (encapEn item) (py_or (encap item) (packageEn item))) in
  let specs :=
    if truthy pkg then dict_set (L "Package") (strip (or_empty pkg)) specs
    else specs in
  specs.

Definition build_specs_from_item (item : item) : list (str * str) :=
  add_params (or_empty_list (paramVOList item)) (core_specs item).

Definition fetch_products_page_api {E} (catalog_id page : Z)
  : Py E (list product * option Z) :=
  fetch_page_with (fun item => json_dumps E (build_specs_from_item item))
    catalog_id page.

Definition scrape_lcsc_category {E} (base_url : str) (max_pages : Z)
  : Py E (list product) :=
  scrape_with fetch_products_page_api base_url max_pages.

(** [get_all_category_urls], with the constants [CAT_ID_START] and
    [CAT_ID_END] as parameters. *)
Definition get_all_category_urls {E} (CAT_ID_START CAT_ID_END : Z)
  : Py E (list descriptor) :=
  discover (fun cat_id =>
              negb ((cat_id <? CAT_ID_START)%Z || (cat_id >? CAT_ID_END)%Z)).

Definition main {E} (MAX_PAGES CAT_ID_START CAT_ID_END : Z) : Py E unit :=
  cat_list <- get_all_category_urls CAT_ID_START CAT_ID_END ;;
  if is_empty cat_list then ret tt
  else
    try_except
      (scrape_categories scrape_lcsc_category MAX_PAGES cat_list)
      [(fun _ => true, ret tt)].

End RangeWithSpecs.

(** ** The text source: main.py and claude.py *)

Definition build_page_url {E} (base_url : str) (page : Z) : str :=
  if (page =? 1)%Z then base_url else with_page_query E base_url page.

Module Main.

(** [\b([A-Z0-9][A-Z0-9\-.,/]+)\s+(C\d{4,})\s+(?:Hot|Lightning)?\s*([A-Za-z0-9/]+)] *)
Definition MPN_LCSC_MANUF_RE : regex :=
  Seq [Wb;
       Grp 1 (Cat (Cls mpn_first) (Plus (Cls mpn_chr)));
       Plus (Cls is_space);
       Grp 2 (Cat (Chr "C") (Rep true 4 (Cls is_digit)));
       Plus (Cls is_space);
       LABEL_RE;
       Star (Cls is_space);
       Grp 3 (Plus (Cls manuf_chr))].

(** No [try] here: whatever [requests] raises comes out of [fetch_html]. *)
Definition fetch_html {E} (url : str) : Py E str :=
  resp <- get url ;;
  raise_for_status resp ;;;
  ret (text resp).

Definition extract_products_from_text (page_text : str) : list product :=
  let matches := re_findall false MPN_LCSC_MANUF_RE 3 page_text in
  map (fun m => Product (nth 0 m []) (nth 1 m []) (nth 2 m []) [] [] [] [] [] None)
      matches.

(** [for page in range(1, max_pages + 1):] *)
Fixpoint pages_loop {E} (base_url : str) (pages : list Z) (a : agg) : Py E agg :=
  match pages with
  | [] => ret a
  | page :: rest =>
      let page_url := build_page_url (E:=E) base_url page in
      html <- fetch_html page_url ;;
      let text := soup_get_text E html in
      let products := extract_products_from_text text in
      let a' := add_products page products (start_page a) in
      emit (EvPage page products (new_count a')) ;;;
      if new_count a' =? 0 then ret a'
      else sleep ;;; pages_loop base_url rest a'
  end.

Definition scrape_lcsc_category {E} (base_url : str) (max_pages : Z)
  : Py E (list product) :=
  a <- pages_loop base_url (py_range 1 (max_pages + 1)) empty_agg ;;
  ret (all_rows a).

End Main.

Module Claude.

(** The pattern of claude.py, compiled with [re.MULTILINE]:
    [\b([A-Z0-9][A-Z0-9\-.,/]+)\s+(C\d{4,})\s+(?:Hot|Lightning)?\s*([A-Za-z0-9/]+)\s+(?:[\d,]+\s+(?:In\s+)?Stock\s+)?([^|$\n]+?)?(?:\s+\$|\s+US\$|\s+\||$)] *)
Definition MPN_LCSC_MANUF_RE : regex :=
  Seq [Wb;
       Grp 1 (Cat (Cls mpn_first) (Plus (Cls mpn_chr)));
       Plus (Cls is_space);
       Grp 2 (Cat (Chr "C") (Rep true 4 (Cls is_digit)));
       Plus (Cls is_space);
       LABEL_RE;
       Star (Cls is_space);
       Grp 3 (Plus (Cls manuf_chr));
       Plus (Cls is_space);
       Opt true (Seq [Plus (Cls (fun a => is_digit a || chr_eqb a ","));
                      Plus (Cls is_space);
                      Opt true (Seq [Lit (L "In"); Plus (Cls is_space)]);
                      Lit (L "Stock");
                      Plus (Cls is_space)]);
       Opt true (Grp 4 (LazyPlus (Cls desc_chr)));
       Alt (Seq [Plus (Cls is_space); Chr "$"])
      (Alt (Seq [Plus (Cls is_space); Lit (L "US$")])
      (Alt (Seq [Plus (Cls is_space); Chr "|"])
           Eol))].

Definition extract_products_from_text (page_text : str) : list product :=
  let matches := re_findall true MPN_LCSC_MANUF_RE 4 page_text in
  List.filter validate_product
    (map (fun m =>
            let mpn := nth 0 m [] in
            let lcsc_code := nth 1 m [] in
            let manufacturer := nth 2 m [] in
            let raw_description := nth 3 m [] in
            let description := clean_description raw_description in
            Product (strip mpn) (strip lcsc_code) (strip manufacturer)
                    description [] [] [] [] None)
         matches).

(** [for page in range(1, max_pages + 1):] *)
Fixpoint pages_loop {E} (base_url : str) (max_pages : Z) (pages : list Z)
  (a : agg) (consecutive_empty : nat) : Py E agg :=
  match pages with
  | [] => ret a
  | page :: rest =>
      let page_url := build_page_url (E:=E) base_url page in
      html <- fetch_html page_url ;;
      match html with
      | None =>
          emit (EvSkip page) ;;;
          let consecutive_empty := consecutive_empty + 1 in
          if 2 <=? consecutive_empty then ret a
          else pages_loop base_url max_pages rest a consecutive_empty
      | Some html =>
          let consecutive_empty := 0 in
          let text := soup_get_text E html in
          let products := extract_products_from_text text in
          let a' := add_products page products (start_page a) in
          emit (EvPage page products (new_count a')) ;;;
          if new_count a' =? 0 then ret a'
          else
            (if (page <? max_pages)%Z then sleep else ret tt) ;;;
            pages_loop base_url max_pages rest a' consecutive_empty
      end
  end.

Definition scrape_lcsc_category {E} (base_url : str) (max_pages : Z)
  : Py E (list product) :=
  a <- pages_loop base_url max_pages (py_range 1 (max_pages + 1)) empty_agg 0 ;;
  ret (all_rows a).

End Claude.

(** ** What a successful match means

    [matches ml r p s c p' s' c']: from the position [(p, s)] with captures
    [c], the pattern [r] can read up to the position [(p', s')] and leave the
    captures [c'].  The matcher only ever returns such matches. *)

Inductive matches (ml : bool)
  : regex -> str -> str -> caps -> str -> str -> caps -> Prop :=
| M_Eps p s c : matches ml Eps p s c p s c
| M_Cls f a p s c :
    f a = true -> matches ml (Cls f) p (a :: s) c (a :: p) s c
| M_Cat r1 r2 p s c p1 s1 c1 p2 s2 c2 :
    matches ml r1 p s c p1 s1 c1 ->
    matches ml r2 p1 s1 c1 p2 s2 c2 ->
    matches ml (Cat r1 r2) p s c p2 s2 c2
| M_AltL r1 r2 p s c p' s' c' :
    matches ml r1 p s c p' s' c' -> matches ml (Alt r1 r2) p s c p' s' c'
| M_AltR r1 r2 p s c p' s' c' :
    matches ml r2 p s c p' s' c' -> matches ml (Alt r1 r2) p s c p' s' c'
| M_OptSome g r p s c p' s' c' :
    matches ml r p s c p' s' c' -> matches ml (Opt g r) p s c p' s' c'
| M_OptNone g r p s c : matches ml (Opt g r) p s c p s c
| M_Grp n r p s c p' s' c' :
    matches ml r p s c p' s' c' ->
    matches ml (Grp n r) p s c p' s' (set_cap n (read_between p p') c')
| M_Bol p s c : at_bol ml p = true -> matches ml Bol p s c p s c
| M_Eol p s c : at_eol ml s = true -> matches ml Eol p s c p s c
| M_Wb p s c : at_wb p s = true -> matches ml Wb p s c p s c
| M_RepStop g r p s c : matches ml (Rep g 0 r) p s c p s c
| M_RepMore g n r p s c p1 s1 c1 p2 s2 c2 :
    matches ml r p s c p1 s1 c1 ->
    matches ml (Rep g (pred n) r) p1 s1 c1 p2 s2 c2 ->
    matches ml (Rep g n r) p s c p2 s2 c2.

(** ** Observations on a run *)

(** [m] run in world [w] returns (it does not raise) and [Q] holds of the
    value, the world after and the events. *)
Definition returns {E A} (m : Py E A) (w : World E)
  (Q : A -> World E -> list event -> Prop) : Prop :=
  exists a w' l, m w = (Ret a, w', l) /\ Q a w' l.

Definition is_get (ev : event) : bool :=
  match ev with EvGet _ => true | _ => false end.

(** The pages asked of the API, in order. *)
Definition posts (l : list event) : list Z :=
  flat_map (fun ev => match ev with EvPost _ pg => [pg] | _ => [] end) l.

Definition is_stop (ev : event) : bool :=
  match ev with EvStop _ => true | _ => false end.



Definition is_page_report (ev : event) : bool :=
  match ev with EvPage _ _ _ => true | _ => false end.

(** The candidate records of a run, in order: the products of every page
    that was processed, each with its page number. *)
Definition candidates (l : list event) : list product :=
  flat_map (fun ev =>
              match ev with
              | EvPage pg products _ => map (fun p => set_page p pg) products
              | _ => []
              end) l.

(** ** The aggregator as the specification words it

    A candidate is kept when no earlier candidate has its key. *)

Definition same_key (p q : product) : bool := bool_decide (key_of p = key_of q).

Fixpoint first_occurrences_from (earlier cands : list product) : list product :=
  match cands with
  | [] => []
  | c :: rest =>
      if existsb (same_key c) earlier
      then first_occurrences_from (earlier ++ [c]) rest
      else c :: first_occurrences_from (earlier ++ [c]) rest
  end.

Definition first_occurrences (cands : list product) : list product :=
  first_occurrences_from [] cands.

(** The set of seen keys holds the keys of the candidates met so far. *)
Definition tracks (a : agg) (earlier : list product) : Prop :=
  forall k, k ∈ seen_keys a <-> In k (map key_of earlier).

(** [only_last f l]: an event of the kind [f] can only be the last one of
    [l]: nothing happens after it. *)
Definition only_last (f : event -> bool) (l : list event) : Prop :=
  forall l1 ev l2, l = l1 ++ ev :: l2 -> f ev = true -> l2 = [].

(** A page was processed and none of its products was new. *)
Definition is_zero_new (ev : event) : bool :=
  match ev with EvPage _ _ O => true | _ => false end.

(** No event of the kind [f] in [l]. *)
Definition none_of (f : event -> bool) (l : list event) : bool :=
  forallb (fun ev => negb (f ev)) l.

(** The validator as the specification words it: the part number has at
    least two characters, the catalogue code is a C followed by at least four
    digits, the manufacturer is not empty. *)
Definition Validator (p : product) : Prop :=
  mpn p <> [] /\ 2 <= length (mpn p)
  /\ lcsc_code p <> []
  /\ (exists ds, lcsc_code p = "C"%char :: ds
                 /\ Forall (fun a => is_digit a = true) ds /\ 4 <= length ds)
  /\ manufacturer p <> [].

(** A record that [validate_product] accepts and that is valid in the words
    of the specification. *)
Definition emitted_ok (p : product) : Prop :=
  validate_product p = true /\ Validator p.

Definition all_valid (products : list product) : Prop := Forall emitted_ok products.

(** The last character of [s], if any, is not whitespace. *)
Definition no_trailing_space (s : str) : Prop :=
  forall w a, s = w ++ [a] -> is_space a = false.

(** ** Small environments, for the examples *)

(** A service without memory: the answer depends on the request only. *)
Definition simple_env (ans_post : Z -> Z -> net_outcome) (ans_get : str -> net_outcome)
  (loads : str -> option api_data) : env :=
  Env unit
      (fun url w => (ans_get url, w))
      (fun catalog_id pg w => (ans_post catalog_id pg, w))
      loads
      (fun html => html)
      (fun _ => [])
      (fun _ => [])
      (fun base_url pg => base_url ++ L "?page=" ++ [ascii_of_nat (48 + Z.to_nat pg)]).

Definition mk_item (model code brand intro : string) : item :=
  Item (Some (L model)) (Some (L code)) (Some (L brand)) (Some (L intro))
       None None None None None None None None None None.

Definition item_a : item := mk_item "BSS138" "C12345" "DIODES" "N-Channel MOSFET".
Definition item_b : item := mk_item "2N7002" "C54321" "onsemi" "N-Channel 60V".

(** An item without a catalogue code. *)
Definition item_no_code : item :=
  Item (Some (L "X1")) None (Some (L "acme")) (Some (L "no code"))
       None None None None None None None None None None.

(** The body of the answer for a page: its number, one digit. *)
Definition page_body (pg : Z) : str := [ascii_of_nat (48 + Z.to_nat pg)].

Definition answer (total : option Z) (items : list item) : option api_data :=
  Some (ApiData (Some (ApiResult total (Some items)))).

(** The decoder of a service with three pages, given by their items. *)
Definition loads3 (total : option Z) (p1 p2 p3 : list item) (body : str)
  : option api_data :=
  if str_eqb body (L "1") then answer total p1
  else if str_eqb body (L "2") then answer total p2
  else if str_eqb body (L "3") then answer total p3
  else None.

Definition ok_post (catalog_id pg : Z) : net_outcome := NetResponse 200 (page_body pg).

Definition no_get (url : str) : net_outcome := NetTimeout.


(** Three pages announced, each with a product of its own. *)
Definition three_pages_env : env :=
  simple_env ok_post no_get (loads3 (Some 3%Z) [item_a] [item_b] [item_a; item_b]).


(** Five pages announced; the first page has nothing valid. *)
Definition empty_first_env : env :=
  simple_env ok_post no_get (loads3 (Some 5%Z) [item_no_code] [item_a] [item_b]).

Definition CATEGORY_874 : str := L "https://www.lcsc.com/category/874.html".

(** A pattern without capture groups. *)
Fixpoint no_groups (r : regex) : bool :=
  match r with
  | Grp _ _ => false
  | Cat r1 r2 | Alt r1 r2 => no_groups r1 && no_groups r2
  | Rep _ _ r1 | Opt _ r1 => no_groups r1
  | _ => true
  end.

(** Two failed fetches in a row, the second right after the first, are the
    end of the log. *)
Definition two_skips_end (l : list event) : Prop :=
  forall l1 n u m l2, l = l1 ++ EvSkip n :: EvGet u :: EvSkip m :: l2 -> l2 = [].

Definition PAGE_A : str :=
  L "BSS138 C12345 DIODES 100 In Stock N-Channel MOSFET $0.10".

Definition PAGE_B : str :=
  L "2N7002 C54321 onsemi 5 In Stock N-Channel 60V $1.00".

(** The page a URL of category 874 stands for. *)
Definition page_of (url : str) : option Z :=
  if str_eqb url CATEGORY_874 then Some 1%Z
  else if str_eqb url (CATEGORY_874 ++ L "?page=2") then Some 2%Z
  else if str_eqb url (CATEGORY_874 ++ L "?page=3") then Some 3%Z
  else if str_eqb url (CATEGORY_874 ++ L "?page=4") then Some 4%Z
  else None.

(** A site without memory that serves rendered pages. *)
Definition text_env (pages : Z -> net_outcome) : env :=
  simple_env (fun _ _ => NetConnectionError)
    (fun url => match page_of url with
                | Some n => pages n
                | None => NetResponse 404 []
                end)
    (fun _ => None).

(** Every page shows the same product. *)
Definition same_page_env : env := text_env (fun _ => NetResponse 200 PAGE_A).

(** Pages 2 and 4 are served, the others time out. *)
Definition flaky_env : env :=
  text_env (fun n => if (n =? 2)%Z then NetResponse 200 PAGE_A
                     else if (n =? 4)%Z then NetResponse 200 PAGE_B
                     else NetTimeout).

(** Nothing is served. *)
Definition down_env : env := text_env (fun _ => NetTimeout).

(** ** Two statements of the specification, as they are worded *)



(** A request that failed: a timeout, a connection error, or a status that
    [raise_for_status] rejects. *)
Definition is_failure (o : net_outcome) : bool :=
  match o with
  | NetTimeout | NetConnectionError => true
  | NetResponse status _ => ((400 <=? status) && (status <? 600))%Z
  end.


(** The name and the value of a parameter entry, as the loop reads them. *)
Definition param_name (p : param) : str :=
  strip (or_empty (py_or (paramNameEn p) (paramName p))).

Definition param_value (p : param) : str :=
  strip (or_empty (py_or (paramValueEn p) (paramValue p))).

Definition is_sheet (ev : event) : bool :=
  match ev with EvSheet _ _ => true | _ => false end.

(** The categories for which a sheet was written. *)
Definition sheets (l : list event) : list Z :=
  flat_map (fun ev => match ev with EvSheet cat_id _ => [cat_id] | _ => [] end) l.

Definition in_id_range (A B : Z) (d : descriptor) : Prop :=
  (A <= cat_id_of d <= B)%Z.

(** A pattern whose last element is [$]. *)
Fixpoint ends_in_eol (r : regex) : bool :=
  match r with
  | Eol => true
  | Cat _ r2 => ends_in_eol r2
  | _ => false
  end.

Definition no_newline (s : str) : Prop := Forall (fun a => is_newline a = false) s.

(** A text that does not start with whitespace. *)
Definition no_leading_space (s : str) : Prop :=
  match s with
  | [] => True
  | a :: _ => is_space a = false
  end.

(** "The description has at most 200 characters plus the ellipsis marker;
    whenever the collapsed, noise-stripped text exceeds 200 characters, the
    result is that text cut at the nearest whitespace at or before position
    200 with the ellipsis marker appended." *)
Definition truncation_claim : Prop :=
  forall desc : str,
    length (clean_description desc) <= 200 + length (L "...")
    /\ (let t := strip_noise (collapse_ws desc) in
        200 < length t ->
        exists k a, k <= 200 /\ nth_error t k = Some a /\ is_space a = true
                    /\ clean_description desc = firstn k t ++ L "...").


(** An item with a category, a brand, and four parameters: one with a blank
    value, one named like a reserved key, and one name given twice. *)
Definition item_with_params : item :=
  Item (Some (L "BSS138")) (Some (L "C12345")) (Some (L " DIODES ")) None None
       (Some (L "Transistors")) None None None None None None None
       (Some [Param (Some (L "Width")) None (Some (L "  ")) None;
              Param (Some (L "Category")) None (Some (L "other")) None;
              Param (Some (L "Type")) None (Some (L "N-Channel")) None;
              Param None (Some (L "Type")) None (Some (L "P-Channel"))]).

(** A site whose index page links to the categories 5, 1300 and 2000. *)
Definition index_env : env :=
  Env unit
      (fun url w => (NetResponse 200 (L "<a href=...>"), w))
      (fun catalog_id pg w => (NetTimeout, w))
      (fun _ => None)
      (fun html => html)
      (fun _ => [(L "/category/5.html", L "Resistors");
                 (L "/category/1300.html", L " Sensors ");
                 (L "/category/1300.html", L "View All");
                 (L "https://www.lcsc.com/category/2000.html", L "Relays")])
      (fun _ => [])
      (fun base_url pg => base_url).

(** 201 characters without a space. *)
Definition LONG_WORD : str := repeat "a"%char 201.

(** 100 characters, a space, 150 characters. *)
Definition LONG_TEXT : str := repeat "a"%char 100 ++ [space] ++ repeat "b"%char 150.

(** ** Further parts of the programs *)

From Stdlib Require Import DecimalString DecimalNat.

(** [str(n)] for a natural number. *)
Definition str_of_nat (n : nat) : str :=
  list_ascii_of_string (NilEmpty.string_of_uint (Nat.to_uint n)).

(** [re.sub(r, repl, s)]: as [sub_scan], with [repl] in place of each
    match. *)
Fixpoint sub_scan_with (ml : bool) (r : regex) (repl : str) (fuel : nat) (p s : str)
  : str :=
  match fuel with
  | O => s
  | S fuel' =>
      match search_from ml r p s with
      | None => s
      | Some (p0, m) =>
          read_between p p0 ++ repl ++
          (if length (m_suf m) <? length s
           then sub_scan_with ml r repl fuel' (m_pre m) (m_suf m)
           else match m_suf m with
                | [] => []
                | a :: s' => a :: sub_scan_with ml r repl fuel' (a :: m_pre m) s'
                end)
      end
  end.

Definition re_sub (ml : bool) (r : regex) (repl s : str) : str :=
  sub_scan_with ml r repl (S (length s)) [] s.

(** *** [make_excel_sheet_name] of range.py and rangeWithSpecs.py *)

(** [[\\/*?:\[\]]] *)
Definition sheet_forbidden (a : ascii) : bool :=
  chr_eqb a "\" || chr_eqb a "/" || chr_eqb a "*" || chr_eqb a "?"
  || chr_eqb a ":" || chr_eqb a "[" || chr_eqb a "]".

Definition SHEET_FORBIDDEN_RE : regex := Cls sheet_forbidden.

(** [f"{trimmed}_{suffix}"] with [trimmed = base[:28]] *)
Definition suffixed (base : str) (suffix : nat) : str :=
  firstn 28 base ++ L "_" ++ str_of_nat suffix.

(** [while name in used: name = f"{base[:28]}_{suffix}"; suffix += 1].  The
    names tried differ from one another, so the loop ends within
    [size used + 1] turns; [fuel] counts the tests of the condition. *)
Fixpoint sheet_name_loop (fuel : nat) (base name : str) (suffix : nat)
  (used : gset str) : option str :=
  match fuel with
  | O => None
  | S fuel' =>
      if decide (name ∈ used)
      then sheet_name_loop fuel' base (suffixed base suffix) (S suffix) used
      else Some name
  end.

(** [raw_name or fallback or "Sheet"] *)
Definition first_nonempty (raw_name fallback : str) : str :=
  if negb (is_empty raw_name) then raw_name
  else if negb (is_empty fallback) then fallback
  else L "Sheet".

(** The name before the loop: stripped, sanitized, cut at 31 characters. *)
Definition sheet_base (raw_name fallback : str) : str :=
  let name := strip (first_nonempty raw_name fallback) in
  let name := re_sub false SHEET_FORBIDDEN_RE (L "_") name in
  if 31 <? length name then firstn 31 name else name.

(** The function returns the name; [used.add(name)] gives the second
    component. *)
Definition make_excel_sheet_name (raw_name fallback : str) (used : gset str)
  : option (str * gset str) :=
  let base := sheet_base raw_name fallback in
  match sheet_name_loop (size used + 2) base base 1 used with
  | Some name => Some (name, {[name]} ∪ used)
  | None => None
  end.

(** The sheet names of one workbook: [main] hands the one set
    [used_sheet_names] to every call, each request being the preferred name
    and the fallback [cat_<id>]. *)
Fixpoint sheet_names (requests : list (str * str)) (used : gset str)
  : option (list str * gset str) :=
  match requests with
  | [] => Some ([], used)
  | (raw_name, fallback) :: requests' =>
      match make_excel_sheet_name raw_name fallback used with
      | None => None
      | Some (name, used') =>
          match sheet_names requests' used' with
          | None => None
          | Some (names, used'') => Some (name :: names, used'')
          end
      end
  end.

(** *** What [validate_product] accepts *)

(** A code that [^C\d{4,}$] matches: a C, four digits or more and, as [$]
    also matches before a final newline, possibly one newline. *)
Definition accepted_code (code : str) : Prop :=
  exists ds tail,
    code = "C"%char :: ds ++ tail
    /\ Forall (fun a => is_digit a = true) ds /\ 4 <= length ds
    /\ (tail = [] \/ exists nl, tail = [nl] /\ is_newline nl = true).

(** *** Patterns that only look ahead *)

(** A pattern without [^] and without [\b] does not depend on the text before
    the position it is tried at. *)
Fixpoint looks_forward (r : regex) : bool :=
  match r with
  | Bol | Wb => false
  | Cat r1 r2 | Alt r1 r2 => looks_forward r1 && looks_forward r2
  | Rep _ _ r1 | Opt _ r1 | Grp _ r1 => looks_forward r1
  | _ => true
  end.

(** A match, seen from a position with [q] more characters before it. *)
Definition shift_match (q : str) (m : rmatched) : rmatched :=
  Matched (m_pre m ++ q) (m_suf m) (m_caps m).

Definition shift_found (q : str) (pm : str * rmatched) : str * rmatched :=
  (fst pm ++ q, shift_match q (snd pm)).

(** *** Category descriptors *)

(** A text that [strip] leaves as it is. *)
Definition is_stripped (s : str) : Prop :=
  no_leading_space s /\ no_trailing_space s.

(** What holds of each descriptor [get_all_category_urls] returns. *)
Definition well_described (d : descriptor) : Prop :=
  let '(cat_id, full_url, name) := d in
  name <> [] /\ is_stripped name
  /\ contains (L "View All") name = false
  /\ startswith (L "http") full_url = true
  /\ parse_catalog_id_from_url full_url = Some cat_id.

(** *** Records of the structured source *)

(** [f"https://www.lcsc.com/product-detail/{lcsc_code}.html"] *)
Definition detail_url (lcsc_code : str) : str :=
  L "https://www.lcsc.com/product-detail/" ++ lcsc_code ++ L ".html".

(** The fields [validate_product] reads, as [fetch_products_page_api] takes
    them from an item. *)
Definition item_mpn (it : item) : str := strip (or_empty (productModel it)).
Definition item_code (it : item) : str := strip (or_empty (productCode it)).
Definition item_manufacturer (it : item) : str := strip (or_empty (brandNameEn it)).

(** [desc_api], cleaned. *)
Definition desc_api_of (it : item) : str :=
  clean_description (or_empty (py_or (productIntroEn it) (productNameEn it))).

(** Whether the record of an item passes [validate_product]. *)
Definition accepted_item (it : item) : bool :=
  validate_product
    (Product (item_mpn it) (item_code it) (item_manufacturer it) [] [] [] [] [] None).

(** The GET of the detail page of an item: sent when the API gives no
    description and there is a code to ask for. *)
Definition detail_request (it : item) : list event :=
  if is_empty (desc_api_of it) && negb (is_empty (item_code it))
  then [EvGet (detail_url (item_code it))]
  else [].

Definition detail_requests (items : list item) : list event :=
  flat_map detail_request items.

(** The record of an item: everything but the description comes from the
    item; the description is the one of the API when there is one. *)
Definition built_from (specs : item -> str) (it : item) (p : product) : Prop :=
  mpn p = item_mpn it /\ lcsc_code p = item_code it
  /\ manufacturer p = item_manufacturer it
  /\ category p = strip (or_empty (firstWmCatalogNameEn it))
  /\ subcategory p = strip (or_empty (secondWmCatalogNameEn it))
  /\ childcategory p = strip (or_empty (thirdWmCatalogNameEn it))
  /\ specs_json p = specs it /\ page p = None
  /\ (if is_empty (desc_api_of it)
      then is_stripped (description p) /\ length (description p) <= 203
      else description p = desc_api_of it).

(** [result.get("dataList", []) or []] of a decoded answer. *)
Definition items_of (d : api_data) : list item :=
  match result d with
  | Some r => match dataList r with Some l => l | None => [] end
  | None => []
  end.

(** [result.get("totalPage")] of a decoded answer. *)
Definition total_of (d : api_data) : option Z :=
  match result d with
  | Some r => totalPage r
  | None => None
  end.

(** A record without stray whitespace and with a description of bounded
    length. *)
Definition tidy (p : product) : Prop :=
  is_stripped (mpn p) /\ is_stripped (lcsc_code p) /\ is_stripped (manufacturer p)
  /\ is_stripped (description p) /\ length (description p) <= 203
  /\ is_stripped (category p) /\ is_stripped (subcategory p)
  /\ is_stripped (childcategory p).
(** * Properties *)

(** ** The matcher *)

Section MatcherSound.
Context {R : Type}.
Variable ml : bool.

Lemma or_else_Some (x y : option R) (v : R) :
  or_else x y = Some v -> x = Some v \/ y = Some v.
Proof. destruct x; simpl; intros H; [left | right]; assumption. Qed.

Lemma rep_loop_sound (r : regex) (g : bool) (k : @kont R) :
  (forall p s c (k' : @kont R) x, rmatch ml r p s c k' = Some x ->
     exists p' s' c', matches ml r p s c p' s' c' /\ k' p' s' c' = Some x) ->
  forall fuel n p s c x,
    rep_loop (rmatch ml r) g k fuel n p s c = Some x ->
    exists p' s' c', matches ml (Rep g n r) p s c p' s' c' /\ k p' s' c' = Some x.
Proof.
  intros Hbody. induction fuel as [|fuel IH]; intros n p s c x H; simpl in H.
  - discriminate.
  - assert (Hcases :
      rmatch ml r p s c
        (fun p' s' c' =>
           if length s' <? length s
           then rep_loop (rmatch ml r) g k fuel (pred n) p' s' c' else None)
        = Some x
      \/ match n with O => k p s c | S _ => None end = Some x).
    { destruct g; apply or_else_Some in H; tauto. }
    destruct Hcases as [Hmore | Hstop].
    + apply Hbody in Hmore. destruct Hmore as (p1 & s1 & c1 & Hm & Hk).
      destruct (length s1 <? length s); [|discriminate].
      apply IH in Hk. destruct Hk as (p2 & s2 & c2 & Hm2 & Hk2).
      exists p2, s2, c2. split; [|assumption].
      eapply M_RepMore; eassumption.
    + destruct n; [|discriminate].
      exists p, s, c. split; [constructor | assumption].
Qed.

Lemma rmatch_sound (r : regex) :
  forall p s c (k : @kont R) x,
    rmatch ml r p s c k = Some x ->
    exists p' s' c', matches ml r p s c p' s' c' /\ k p' s' c' = Some x.
Proof.
  induction r as [|f|r1 IH1 r2 IH2|r1 IH1 r2 IH2|g n r IH|g r IH|n r IH| | |];
    intros p s c k x H; cbn [rmatch] in H.
  - exists p, s, c. split; [constructor | assumption].
  - destruct s as [|a s]; [discriminate|].
    destruct (f a) eqn:Hf; [|discriminate].
    exists (a :: p), s, c. split; [constructor; assumption | assumption].
  - apply IH1 in H. destruct H as (p1 & s1 & c1 & Hm1 & H).
    apply IH2 in H. destruct H as (p2 & s2 & c2 & Hm2 & H).
    exists p2, s2, c2. split; [econstructor; eassumption | assumption].
  - apply or_else_Some in H. destruct H as [H | H].
    + apply IH1 in H. destruct H as (p1 & s1 & c1 & Hm1 & H).
      exists p1, s1, c1. split; [apply M_AltL; assumption | assumption].
    + apply IH2 in H. destruct H as (p1 & s1 & c1 & Hm1 & H).
      exists p1, s1, c1. split; [apply M_AltR; assumption | assumption].
  - eapply rep_loop_sound; eassumption.
  - assert (Hc : rmatch ml r p s c k = Some x \/ k p s c = Some x).
    { destruct g; apply or_else_Some in H; tauto. }
    destruct Hc as [H' | H'].
    + apply IH in H'. destruct H' as (p1 & s1 & c1 & Hm1 & H').
      exists p1, s1, c1. split; [apply M_OptSome; assumption | assumption].
    + exists p, s, c. split; [apply M_OptNone | assumption].
  - apply IH in H. destruct H as (p1 & s1 & c1 & Hm1 & H).
    exists p1, s1, (set_cap n (read_between p p1) c1).
    split; [apply M_Grp; assumption | assumption].
  - destruct (at_bol ml p) eqn:Hb; [|discriminate].
    exists p, s, c. split; [constructor; assumption | assumption].
  - destruct (at_eol ml s) eqn:Hb; [|discriminate].
    exists p, s, c. split; [constructor; assumption | assumption].
  - destruct (at_wb p s) eqn:Hb; [|discriminate].
    exists p, s, c. split; [constructor; assumption | assumption].
Qed.

End MatcherSound.

(** ** Facts about matches *)

(** A match reads a piece of the text, forwards. *)
Lemma matches_span (ml : bool) (r : regex) p s c p' s' c' :
  matches ml r p s c p' s' c' ->
  exists w, s = w ++ s' /\ p' = rev w ++ p.
Proof.
  induction 1;
    try (exists []; split; reflexivity).
  - exists [a]. split; reflexivity.
  - destruct IHmatches1 as (w1 & -> & ->). destruct IHmatches2 as (w2 & -> & ->).
    exists (w1 ++ w2). rewrite rev_app_distr, <- !app_assoc. split; reflexivity.
  - assumption.
  - assumption.
  - assumption.
  - assumption.
  - destruct IHmatches1 as (w1 & -> & ->). destruct IHmatches2 as (w2 & -> & ->).
    exists (w1 ++ w2). rewrite rev_app_distr, <- !app_assoc. split; reflexivity.
Qed.

Lemma read_between_rev (w p : str) : read_between p (rev w ++ p) = w.
Proof.
  unfold read_between. rewrite length_app.
  replace (length (rev w) + length p - length p) with (length (rev w)) by lia.
  rewrite take_app_length. apply rev_involutive.
Qed.

(** What a group captures is the text its pattern read. *)
Lemma matches_group (ml : bool) (n : nat) (r : regex) p s c p' s' c' :
  matches ml (Grp n r) p s c p' s' c' ->
  exists w c1, s = w ++ s' /\ p' = rev w ++ p
               /\ matches ml r p s c p' s' c1 /\ c' = set_cap n w c1.
Proof.
  intros H. inversion H; subst.
  match goal with Hm : matches _ r _ _ _ _ _ _ |- _ =>
    destruct (matches_span _ _ _ _ _ _ _ _ Hm) as (w & -> & ->);
    exists w; eexists; repeat split; [exact Hm|]
  end.
  rewrite read_between_rev. reflexivity.
Qed.

Lemma matches_no_groups (ml : bool) (r : regex) p s c p' s' c' :
  matches ml r p s c p' s' c' -> no_groups r = true -> c' = c.
Proof.
  induction 1; simpl; intros Hng; try reflexivity;
    try (apply andb_true_iff in Hng; destruct Hng as [Hng1 Hng2]).
  - rewrite IHmatches2, IHmatches1 by assumption. reflexivity.
  - auto.
  - auto.
  - auto.
  - discriminate.
  - rewrite IHmatches2, IHmatches1 by assumption. reflexivity.
Qed.

(** The text read by a repeated character class. *)
Lemma matches_rep_cls (ml g : bool) (f : ascii -> bool) :
  forall n p s c p' s' c',
    matches ml (Rep g n (Cls f)) p s c p' s' c' ->
    exists w, s = w ++ s' /\ p' = rev w ++ p
              /\ Forall (fun a => f a = true) w /\ n <= length w /\ c' = c.
Proof.
  intros n p s c p' s' c' H.
  remember (Rep g n (Cls f)) as r eqn:Hr. revert n Hr.
  induction H; intros n0 Hr; try discriminate; injection Hr as ? ? ?; subst.
  - exists []. repeat split; [constructor | simpl; lia].
  - inversion H; subst.
    destruct (IHmatches2 (pred n0) eq_refl) as (w & -> & -> & Hw & Hn & ->).
    exists (a :: w). simpl. rewrite <- app_assoc. repeat split.
    + constructor; assumption.
    + lia.
Qed.

Lemma matches_cls (ml : bool) (f : ascii -> bool) p s c p' s' c' :
  matches ml (Cls f) p s c p' s' c' ->
  exists a, s = a :: s' /\ p' = a :: p /\ f a = true /\ c' = c.
Proof. intros H. inversion H; subst. exists a. repeat split; assumption. Qed.

Lemma matches_cat (ml : bool) (r1 r2 : regex) p s c p' s' c' :
  matches ml (Cat r1 r2) p s c p' s' c' ->
  exists p1 s1 c1, matches ml r1 p s c p1 s1 c1 /\ matches ml r2 p1 s1 c1 p' s' c'.
Proof. intros H. inversion H; subst. eauto. Qed.

(** ** Facts about search and scan *)

Lemma match_here_sound (ml : bool) (r : regex) (p s : str) (m : rmatched) :
  match_here ml r p s = Some m ->
  matches ml r p s no_caps (m_pre m) (m_suf m) (m_caps m).
Proof.
  unfold match_here. intros H. apply rmatch_sound in H.
  destruct H as (p' & s' & c' & Hm & Hk). injection Hk as <-. exact Hm.
Qed.

Lemma search_from_sound (ml : bool) (r : regex) :
  forall (s p p0 : str) (m : rmatched),
    search_from ml r p s = Some (p0, m) ->
    exists w s0, s = w ++ s0 /\ p0 = rev w ++ p /\ match_here ml r p0 s0 = Some m.
Proof.
  induction s as [|a s IH]; intros p p0 m H; simpl in H.
  - destruct (match_here ml r p []) eqn:Hm; [|discriminate].
    injection H as <- <-. exists [], []. repeat split. assumption.
  - destruct (match_here ml r p (a :: s)) eqn:Hm.
    + injection H as <- <-. exists [], (a :: s). repeat split. assumption.
    + apply IH in H. destruct H as (w & s0 & -> & -> & H).
      exists (a :: w), s0. simpl. rewrite <- app_assoc. repeat split. assumption.
Qed.

Lemma scan_sound (ml : bool) (r : regex) :
  forall (fuel : nat) (p s p0 : str) (m : rmatched),
    In (p0, m) (scan ml r fuel p s) ->
    exists s0, match_here ml r p0 s0 = Some m.
Proof.
  induction fuel as [|fuel IH]; intros p s p0 m H; simpl in H; [contradiction|].
  destruct (search_from ml r p s) as [[q mq]|] eqn:Hs; [|contradiction].
  destruct H as [H | H].
  - injection H as -> ->. apply search_from_sound in Hs.
    destruct Hs as (w & s0 & _ & _ & Hm). exists s0. assumption.
  - destruct (length (m_suf mq) <? length s).
    + eapply IH. eassumption.
    + destruct (m_suf mq); [contradiction|]. eapply IH. eassumption.
Qed.

(** The groups of every tuple of [findall] come from a match. *)
Lemma re_findall_sound (ml : bool) (r : regex) (n : nat) (s : str) (t : list str) :
  In t (re_findall ml r n s) ->
  exists p0 s0 m, match_here ml r p0 s0 = Some m
                  /\ t = map (group (m_caps m)) (seq 1 n).
Proof.
  unfold re_findall. rewrite in_map_iff. intros ([p0 m] & <- & Hin).
  apply scan_sound in Hin. destruct Hin as (s0 & Hm).
  exists p0, s0, m. split; [assumption | reflexivity].
Qed.

(** ** The validator *)

(** A greedy repetition of a character class over a text made of that class
    reads it all. *)
Lemma rep_loop_cls_greedy {R : Type} (ml : bool) (f : ascii -> bool) (k : @kont R) :
  forall (ds : str) (fuel n : nat) (p : str) (c : caps) (x : R),
    Forall (fun a => f a = true) ds ->
    n <= length ds -> length ds < fuel ->
    k (rev ds ++ p) [] c = Some x ->
    rep_loop (rmatch ml (Cls f)) true k fuel n p ds c = Some x.
Proof.
  induction ds as [|a ds IH]; intros fuel n p c x Hds Hn Hfuel Hk.
  - destruct fuel as [|fuel]; [simpl in Hfuel; lia|]. simpl in *.
    destruct n; [assumption | lia].
  - destruct fuel as [|fuel]; [simpl in Hfuel; lia|].
    inversion Hds as [|? ? Ha Hds']; subst.
    cbn [rep_loop rmatch]. rewrite Ha.
    assert (Hlt : (length ds <? length (a :: ds)) = true).
    { apply Nat.ltb_lt. simpl. lia. }
    rewrite Hlt.
    assert (IH' : rep_loop (rmatch ml (Cls f)) true k fuel (pred n) (a :: p) ds c = Some x).
    { apply IH; try assumption.
      - simpl in Hn. lia.
      - simpl in Hfuel. lia.
      - simpl in Hk. rewrite <- app_assoc in Hk. exact Hk. }
    cbn [rmatch] in IH'. rewrite IH'. reflexivity.
Qed.

(** [^C\d{4,}$] accepts a C followed by four digits or more. *)
Lemma lcsc_code_accepted (ds : str) :
  Forall (fun a => is_digit a = true) ds -> 4 <= length ds ->
  matched (re_match false LCSC_CODE_RE ("C"%char :: ds)) = true.
Proof.
  intros Hds Hlen. unfold re_match, match_here, LCSC_CODE_RE.
  cbn [Seq rmatch at_bol Chr]. change (chr_eqb "C" "C") with true. cbv iota.
  match goal with
  | |- matched (rep_loop _ _ ?K ?fu ?n ?p _ ?c) = true =>
      pose proof (rep_loop_cls_greedy false is_digit K ds fu n p c) as HH
  end.
  cbn [rmatch] in HH. erewrite HH; try eassumption.
  - reflexivity.
  - simpl. lia.
  - reflexivity.
Qed.

Lemma newline_is_space (a : ascii) : is_newline a = true -> is_space a = true.
Proof.
  unfold is_newline, is_space, between. intros H. apply Nat.eqb_eq in H.
  rewrite H. reflexivity.
Qed.

(** What [^C\d{4,}$] accepts: a C, four digits or more, and possibly a final
    newline. *)
Lemma lcsc_code_shape (code : str) :
  matched (re_match false LCSC_CODE_RE code) = true ->
  exists ds tail,
    code = "C"%char :: ds ++ tail
    /\ Forall (fun a => is_digit a = true) ds /\ 4 <= length ds
    /\ (tail = [] \/ exists nl, tail = [nl] /\ is_newline nl = true).
Proof.
  destruct (re_match false LCSC_CODE_RE code) as [m|] eqn:Hm; [|discriminate].
  intros _. apply match_here_sound in Hm. unfold LCSC_CODE_RE in Hm. cbn [Seq] in Hm.
  apply matches_cat in Hm. destruct Hm as (p1 & s1 & c1 & Hbol & Hm).
  inversion Hbol; subst.
  apply matches_cat in Hm. destruct Hm as (p2 & s2 & c2 & HC & Hm).
  apply matches_cls in HC. destruct HC as (a & -> & -> & Ha & ->).
  apply matches_cat in Hm. destruct Hm as (p3 & s3 & c3 & Hd & Heol).
  apply matches_rep_cls in Hd. destruct Hd as (ds & -> & -> & Hds & Hlen & ->).
  inversion Heol; subst.
  exists ds, (m_suf m). repeat split; try assumption.
  - f_equal. unfold chr_eqb in Ha. apply Ascii.eqb_eq in Ha. symmetry. assumption.
  - match goal with H : at_eol false _ = true |- _ => rename H into Hat end.
    destruct (m_suf m) as [|nl t]; [left; reflexivity | right].
    simpl in Hat. apply andb_true_iff in Hat. destruct Hat as [Hnl Ht].
    destruct t; [|discriminate]. exists nl. split; [reflexivity | assumption].
Qed.

Lemma drop_while_head {A} (f : A -> bool) (l : list A) (a : A) (l' : list A) :
  drop_while f l = a :: l' -> f a = false.
Proof.
  induction l as [|b l IH]; simpl; [discriminate|].
  destruct (f b) eqn:Hb; [assumption|]. intros H. injection H as <- _. assumption.
Qed.

Lemma strip_no_trailing_space (s : str) : no_trailing_space (strip s).
Proof.
  intros w a H. unfold strip, rstrip in H.
  apply (f_equal (@rev ascii)) in H. rewrite rev_involutive, rev_app_distr in H.
  simpl in H. eapply drop_while_head. eassumption.
Qed.

Lemma is_empty_false {A} (l : list A) : is_empty l = false -> l <> [].
Proof. destruct l; [discriminate | intros _; discriminate]. Qed.

(** What [validate_product] accepts is valid in the words of the
    specification, once the code does not end in whitespace. *)
Lemma validated_is_valid (p : product) :
  validate_product p = true -> no_trailing_space (lcsc_code p) -> Validator p.
Proof.
  unfold validate_product. intros H Hns.
  destruct (is_empty (mpn p)) eqn:H1; [discriminate|].
  destruct (is_empty (lcsc_code p)) eqn:H2; [discriminate|].
  destruct (is_empty (manufacturer p)) eqn:H3; [discriminate|]. simpl in H.
  destruct (matched (re_match false LCSC_CODE_RE (lcsc_code p))) eqn:H4; [|discriminate].
  simpl in H.
  destruct (length (mpn p) <? 2) eqn:H5; [discriminate|].
  apply Nat.ltb_ge in H5.
  apply lcsc_code_shape in H4. destruct H4 as (ds & tail & Hcode & Hds & Hlen & Htail).
  repeat split; try (apply is_empty_false; assumption); try assumption.
  exists ds. repeat split; try assumption.
  destruct Htail as [-> | (nl & -> & Hnl)].
  - rewrite app_nil_r in Hcode. assumption.
  - exfalso. apply newline_is_space in Hnl.
    rewrite (Hns ("C"%char :: ds) nl) in Hnl; [discriminate | assumption].
Qed.

(** And what is valid in the words of the specification is accepted. *)
Lemma valid_is_validated (p : product) : Validator p -> validate_product p = true.
Proof.
  intros (Hm & Hlen & Hc & (ds & Hcode & Hds & Hdlen) & Hman).
  unfold validate_product.
  destruct (mpn p) as [|a1 m] eqn:E1; [contradiction|].
  destruct (manufacturer p) as [|a3 m3] eqn:E3; [contradiction|].
  rewrite Hcode. cbn [is_empty orb].
  rewrite lcsc_code_accepted by assumption. cbn [negb].
  destruct (length (a1 :: m) <? 2) eqn:H5; [|reflexivity].
  apply Nat.ltb_lt in H5. lia.
Qed.

Lemma emitted_ok_set_page (p : product) (pg : Z) : emitted_ok p -> emitted_ok (set_page p pg).
Proof. intros H. exact H. Qed.

(** ** Running computations *)

Section Running.
Context {E : env}.

Lemma returns_ret {A} (a : A) (w : World E) Q :
  Q a w [] -> returns (ret a) w Q.
Proof. intros H. exists a, w, []. split; [reflexivity | assumption]. Qed.

Lemma returns_bind {A B} (m : Py E A) (f : A -> Py E B) (w : World E) Q :
  returns m w (fun a w' l => returns (f a) w' (fun b w'' l' => Q b w'' (l ++ l'))) ->
  returns (bind m f) w Q.
Proof.
  intros (a & w' & l & Hm & (b & w'' & l' & Hf & HQ)).
  exists b, w'', (l ++ l'). split; [|assumption].
  unfold bind. rewrite Hm, Hf. reflexivity.
Qed.

Lemma returns_weaken {A} (m : Py E A) (w : World E) (Q Q' : A -> World E -> list event -> Prop) :
  returns m w Q -> (forall a w' l, Q a w' l -> Q' a w' l) -> returns m w Q'.
Proof.
  intros (a & w' & l & Hm & HQ) HQQ. exists a, w', l. split; [assumption | auto].
Qed.

Lemma bind_run {A B} (m : Py E A) (f : A -> Py E B) (w : World E) a w' l :
  m w = (Ret a, w', l) ->
  bind m f w = (let '(r, w'', l') := f a w' in (r, w'', l ++ l')).
Proof. intros Hm. unfold bind. rewrite Hm. reflexivity. Qed.

Lemma bind_raise {A B} (m : Py E A) (f : A -> Py E B) (w : World E) e w' l :
  m w = (Raise e, w', l) -> bind m f w = (Raise e, w', l).
Proof. intros Hm. unfold bind. rewrite Hm. reflexivity. Qed.

(** The soft [fetch_html] sends one GET and never raises. *)
Lemma fetch_html_returns (url : str) (w : World E) :
  returns (fetch_html url) w (fun _ _ l => l = [EvGet url]).
Proof.
  unfold returns, fetch_html, try_except, bind, get, raise_for_status.
  destruct (requests_get E url w) as [o w'].
  destruct o as [| |status body]; simpl.
  - eauto 6.
  - eauto 6.
  - destruct ((400 <=? status)%Z && (status <? 600)%Z); simpl; eauto 6.
Qed.

Lemma fetch_description_from_detail_returns (code : str) (w : World E) :
  returns (fetch_description_from_detail code) w (fun _ _ l => Forall (fun ev => is_get ev = true) l).
Proof.
  unfold fetch_description_from_detail.
  destruct (is_empty code).
  - apply returns_ret. constructor.
  - apply returns_bind.
    eapply returns_weaken; [apply fetch_html_returns|].
    intros html w' l ->. simpl.
    destruct html as [html|].
    + destruct (re_search false DETAIL_DESCRIPTION_RE (soup_get_text E html));
        apply returns_ret; repeat constructor.
    + apply returns_ret; repeat constructor.
Qed.

Lemma api_products_returns (specs : item -> str) (items : list item) :
  forall (products : list product) (w : World E),
    all_valid products ->
    returns (api_products specs items products) w
      (fun r _ l => Forall (fun ev => is_get ev = true) l /\ all_valid r).
Proof.
  induction items as [|it rest IH]; intros products w Hv; simpl.
  - apply returns_ret. split; [constructor | assumption].
  - assert (Hv' : forall p, no_trailing_space (lcsc_code p) ->
                 all_valid (if validate_product p then products ++ [p] else products)).
    { intros p Hns. destruct (validate_product p) eqn:Hp; [|assumption].
      unfold all_valid. apply Forall_app. split; [assumption|].
      constructor; [|constructor].
      split; [assumption | apply validated_is_valid; assumption]. }
    apply returns_bind.
    match goal with
    | |- context [if ?b then fetch_description_from_detail ?c else ret ?d] =>
        destruct b
    end.
    + eapply returns_weaken; [apply fetch_description_from_detail_returns|].
      intros d w' l Hl. simpl.
      eapply returns_weaken; [apply IH; apply Hv'; apply strip_no_trailing_space|].
      intros ? ? l' [Hl' Hr]. split; [apply Forall_app; split|]; assumption.
    + apply returns_ret.
      eapply returns_weaken; [apply IH; apply Hv'; apply strip_no_trailing_space|].
      intros ? ? l' Hl'. assumption.
Qed.

(** A page fetch of the structured source never raises; it sends one POST,
    for the page asked, and after it only GETs of detail pages. *)
Lemma fetch_page_with_returns (specs : item -> str) (catalog_id pg : Z) (w : World E) :
  returns (fetch_page_with specs catalog_id pg) w
    (fun r _ l => (exists g, l = EvPost catalog_id pg :: g
                             /\ Forall (fun ev => is_get ev = true) g)
                  /\ all_valid (fst r)).
Proof.
  unfold fetch_page_with.
  unfold returns at 1, bind at 1, try_except at 1, bind at 1, post, raise_for_status.
  destruct (requests_post E catalog_id pg w) as [o w'].
  destruct o as [| |status body]; simpl.
  - do 3 eexists. split; [reflexivity|]. split; [|constructor].
    exists []. split; [reflexivity | constructor].
  - do 3 eexists. split; [reflexivity|]. split; [|constructor].
    exists []. split; [reflexivity | constructor].
  - destruct ((400 <=? status)%Z && (status <? 600)%Z); simpl.
    + do 3 eexists. split; [reflexivity|]. split; [|constructor].
      exists []. split; [reflexivity | constructor].
    + unfold bind at 1, try_except, bind at 1, json. simpl.
      destruct (json_loads E body) as [data|]; simpl.
      * unfold bind at 1.
        match goal with
        | |- context [api_products specs ?items ?acc w'] =>
            destruct (api_products_returns specs items acc w' (List.Forall_nil _))
              as (prods & w'' & l & Hrun & Hl & Hv); rewrite Hrun
        end.
        simpl. do 3 eexists. split; [reflexivity|]. split; [|assumption].
        exists l. split; [|assumption]. rewrite !app_nil_r. reflexivity.
      * do 3 eexists. split; [reflexivity|]. split; [|constructor].
        exists []. split; [reflexivity | constructor].
Qed.

End Running.

(** ** The aggregator *)

Lemma key_of_set_page (p : product) (pg : Z) : key_of (set_page p pg) = key_of p.
Proof. reflexivity. Qed.

Lemma existsb_same_key (c : product) (earlier : list product) :
  existsb (same_key c) earlier = true <-> In (key_of c) (map key_of earlier).
Proof.
  rewrite existsb_exists, in_map_iff. unfold same_key. split.
  - intros (x & Hx & Hk). apply bool_decide_eq_true in Hk. exists x. split; [symmetry|]; assumption.
  - intros (x & Hk & Hx). exists x. split; [assumption|].
    apply bool_decide_eq_true. symmetry. assumption.
Qed.

Lemma tracks_start_page (a : agg) (earlier : list product) :
  tracks a earlier -> tracks (start_page a) earlier.
Proof. intros H k. apply H. Qed.

Lemma add_products_first_occurrences (pg : Z) (products : list product) :
  forall (a : agg) (earlier : list product),
    tracks a earlier ->
    let a' := add_products pg products a in
    let cands := map (fun p => set_page p pg) products in
    all_rows a' = all_rows a ++ first_occurrences_from earlier cands
    /\ tracks a' (earlier ++ cands)
    /\ new_count a' = new_count a + length (first_occurrences_from earlier cands).
Proof.
  induction products as [|p ps IH]; intros a earlier Htr; simpl.
  - rewrite !app_nil_r. repeat split; try (apply Htr); lia.
  - destruct (decide (key_of p ∈ seen_keys a)) as [Hin | Hnin].
    + assert (Hex : existsb (same_key (set_page p pg)) earlier = true).
      { apply existsb_same_key. rewrite key_of_set_page. apply Htr. assumption. }
      rewrite Hex.
      assert (Htr' : tracks a (earlier ++ [set_page p pg])).
      { intros k. rewrite map_app, in_app_iff. simpl. rewrite key_of_set_page.
        split.
        - intros Hk. left. apply Htr. assumption.
        - intros [Hk | [<- | []]]; [apply Htr|]; assumption. }
      specialize (IH a _ Htr'). simpl in IH.
      rewrite <- app_assoc in IH. exact IH.
    + assert (Hex : existsb (same_key (set_page p pg)) earlier = false).
      { destruct (existsb (same_key (set_page p pg)) earlier) eqn:Hx; [|reflexivity].
        apply existsb_same_key in Hx. rewrite key_of_set_page in Hx.
        apply Htr in Hx. contradiction. }
      rewrite Hex.
      set (a1 := Agg ({[key_of p]} ∪ seen_keys a) (all_rows a ++ [set_page p pg])
                     (S (new_count a))).
      assert (Htr' : tracks a1 (earlier ++ [set_page p pg])).
      { intros k. rewrite map_app, in_app_iff. simpl. rewrite key_of_set_page.
        rewrite elem_of_union, elem_of_singleton. split.
        - intros [-> | Hk]; [right; left; reflexivity | left; apply Htr; assumption].
        - intros [Hk | [<- | []]]; [right; apply Htr; assumption | left; reflexivity]. }
      specialize (IH a1 _ Htr'). simpl in IH.
      destruct IH as (Hrows & Htrk & Hcnt).
      rewrite <- app_assoc in Htrk.
      repeat split.
      * rewrite Hrows. subst a1. simpl. rewrite <- app_assoc. reflexivity.
      * apply Htrk.
      * apply Htrk.
      * rewrite Hcnt. subst a1. simpl. lia.
Qed.

Lemma tracks_empty : tracks empty_agg [].
Proof. intros k. simpl. split; [intros H; set_solver | intros []]. Qed.

Lemma first_occurrences_from_app (earlier c1 c2 : list product) :
  first_occurrences_from earlier (c1 ++ c2)
  = first_occurrences_from earlier c1 ++ first_occurrences_from (earlier ++ c1) c2.
Proof.
  revert earlier. induction c1 as [|c c1 IH]; intros earlier; simpl.
  - rewrite app_nil_r. reflexivity.
  - rewrite IH, <- app_assoc. simpl.
    destruct (existsb (same_key c) earlier); reflexivity.
Qed.

(** No key occurs twice among the first occurrences, and none of them is the
    key of an earlier candidate. *)
Lemma first_occurrences_from_keys (cands : list product) :
  forall earlier,
    List.NoDup (map key_of (first_occurrences_from earlier cands))
    /\ (forall k, In k (map key_of (first_occurrences_from earlier cands)) ->
                  ~ In k (map key_of earlier) /\ In k (map key_of cands)).
Proof.
  induction cands as [|c rest IH]; intros earlier; simpl.
  - split; [constructor | intros k []].
  - destruct (IH (earlier ++ [c])) as (Hnd & Hk).
    assert (Hk' : forall k,
               In k (map key_of (first_occurrences_from (earlier ++ [c]) rest)) ->
               ~ In k (map key_of earlier) /\ k <> key_of c /\ In k (map key_of rest)).
    { intros k Hin. apply Hk in Hin. destruct Hin as (Hn & Hr).
      rewrite map_app, in_app_iff in Hn. simpl in Hn.
      repeat split; [tauto | | assumption].
      intros ->. tauto. }
    destruct (existsb (same_key c) earlier) eqn:Hex.
    + split; [assumption|].
      intros k Hin. apply Hk' in Hin. tauto.
    + split.
      * simpl. constructor; [|assumption].
        intros Hin. apply Hk' in Hin. tauto.
      * intros k [<- | Hin].
        -- split; [|left; reflexivity].
           intros Hin. apply existsb_same_key in Hin. congruence.
        -- apply Hk' in Hin. tauto.
Qed.

(** Every candidate's key is the key of a first occurrence. *)
Lemma first_occurrences_from_complete (cands : list product) :
  forall earlier k,
    In k (map key_of cands) ->
    In k (map key_of earlier)
    \/ In k (map key_of (first_occurrences_from earlier cands)).
Proof.
  induction cands as [|c rest IH]; intros earlier k; simpl.
  - intros [].
  - intros [<- | Hin].
    + destruct (existsb (same_key c) earlier) eqn:Hex.
      * left. apply existsb_same_key. assumption.
      * right. left. reflexivity.
    + destruct (IH (earlier ++ [c]) k Hin) as [H | H].
      * rewrite map_app, in_app_iff in H. simpl in H.
        destruct H as [H | [<- | []]]; [left; assumption|].
        destruct (existsb (same_key c) earlier) eqn:Hex.
        -- left. apply existsb_same_key. assumption.
        -- right. left. reflexivity.
      * right. destruct (existsb (same_key c) earlier); [|right]; assumption.
Qed.

(** ** Logs *)

Lemma posts_app (l1 l2 : list event) : posts (l1 ++ l2) = posts l1 ++ posts l2.
Proof. unfold posts. apply flat_map_app. Qed.

Lemma candidates_app (l1 l2 : list event) :
  candidates (l1 ++ l2) = candidates l1 ++ candidates l2.
Proof. unfold candidates. apply flat_map_app. Qed.

Lemma none_of_app (f : event -> bool) (l1 l2 : list event) :
  none_of f (l1 ++ l2) = none_of f l1 && none_of f l2.
Proof. unfold none_of. apply forallb_app. Qed.

Lemma none_of_cons (f : event -> bool) (ev : event) (l : list event) :
  none_of f (ev :: l) = negb (f ev) && none_of f l.
Proof. reflexivity. Qed.

Lemma gets_posts (g : list event) :
  Forall (fun ev => is_get ev = true) g -> posts g = [].
Proof.
  induction 1 as [|ev g Hev _ IH]; [reflexivity|].
  destruct ev; try discriminate. simpl. assumption.
Qed.

Lemma gets_candidates (g : list event) :
  Forall (fun ev => is_get ev = true) g -> candidates g = [].
Proof.
  induction 1 as [|ev g Hev _ IH]; [reflexivity|].
  destruct ev; try discriminate. simpl. assumption.
Qed.

Lemma gets_none_of (f : event -> bool) (g : list event) :
  (forall url, f (EvGet url) = false) ->
  Forall (fun ev => is_get ev = true) g -> none_of f g = true.
Proof.
  intros Hf. induction 1 as [|ev g Hev _ IH]; [reflexivity|].
  destruct ev; try discriminate. simpl. rewrite Hf. simpl. assumption.
Qed.

Lemma only_last_nil (f : event -> bool) : only_last f [].
Proof. intros l1 ev l2 H _. destruct l1; discriminate. Qed.

Lemma only_last_none (f : event -> bool) (l : list event) :
  none_of f l = true -> only_last f l.
Proof.
  intros Hn l1 ev l2 -> Hf. rewrite none_of_app in Hn.
  apply andb_true_iff in Hn. destruct Hn as [_ Hn]. simpl in Hn.
  rewrite Hf in Hn. discriminate.
Qed.

Lemma only_last_app (f : event -> bool) (l l' : list event) :
  none_of f l = true -> only_last f l' -> only_last f (l ++ l').
Proof.
  intros Hn Hl'. revert Hn. induction l as [|e l IH]; intros Hn; [exact Hl'|].
  simpl in Hn. apply andb_true_iff in Hn. destruct Hn as [He Hn].
  intros l1 ev l2 Heq Hf. destruct l1 as [|e1 l1]; simpl in Heq.
  - injection Heq as -> _. rewrite Hf in He. discriminate.
  - injection Heq as _ Heq. eapply IH; eassumption.
Qed.

Lemma only_last_single (f : event -> bool) (ev : event) : only_last f [ev].
Proof.
  intros l1 e l2 Heq _. destruct l1 as [|e1 l1]; simpl in Heq.
  - injection Heq as _ <-. reflexivity.
  - injection Heq as _ Heq. destruct l1; discriminate.
Qed.

Lemma returns_emit {E : env} (ev : event) (w : World E) (Q : unit -> World E -> list event -> Prop) :
  Q tt w [ev] -> returns (emit ev) w Q.
Proof. intros H. exists tt, w, [ev]. split; [reflexivity | assumption]. Qed.

Lemma returns_unique {E : env} {A} (m : Py E A) (w : World E) Q r w' l :
  returns m w Q -> m w = (r, w', l) -> exists a, r = Ret a /\ Q a w' l.
Proof.
  intros (a & w1 & l1 & Hm & HQ) Hrun. rewrite Hm in Hrun.
  injection Hrun as <- <- <-. exists a. split; [reflexivity | assumption].
Qed.

Lemma bind_inv {E : env} {A B} (m : Py E A) (f : A -> Py E B) (w : World E) r w' l :
  bind m f w = (r, w', l) ->
  (exists e, m w = (Raise e, w', l) /\ r = Raise e)
  \/ (exists a w1 l1 l2, m w = (Ret a, w1, l1) /\ f a w1 = (r, w', l2) /\ l = l1 ++ l2).
Proof.
  unfold bind. destruct (m w) as [[[a|e] w1] l1].
  - destruct (f a w1) as [[r2 w2] l2] eqn:Hf. intros H. injection H as <- <- <-.
    right. exists a, w1, l1, l2. repeat split. assumption.
  - intros H. injection H as <- <- <-. left. exists e. split; reflexivity.
Qed.

Lemma emit_run {E : env} (ev : event) (w : World E) : emit ev w = (Ret tt, w, [ev]).
Proof. reflexivity. Qed.

Lemma ret_run {E : env} {A} (a : A) (w : World E) : ret a w = (Ret a, w, []).
Proof. reflexivity. Qed.

(** ** The structured source *)

Lemma all_valid_set_page (products : list product) (pg : Z) :
  all_valid products -> all_valid (map (fun p => set_page p pg) products).
Proof.
  unfold all_valid. induction 1 as [|p ps Hp _ IH]; simpl; constructor; assumption.
Qed.

Section Structured.
Context {E : env}.
Variable specs : item -> str.

(** The log of one page fetch. *)
Lemma fetch_log (catalog_id pg : Z) (l : list event) :
  (exists g, l = EvPost catalog_id pg :: g /\ Forall (fun ev => is_get ev = true) g) ->
  posts l = [pg] /\ candidates l = [] /\ none_of is_stop l = true
  /\ none_of is_zero_new l = true.
Proof.
  intros (g & -> & Hg). repeat split.
  - simpl. rewrite (gets_posts g Hg). reflexivity.
  - simpl. apply gets_candidates. assumption.
  - simpl. apply gets_none_of; [reflexivity | assumption].
  - simpl. apply gets_none_of; [reflexivity | assumption].
Qed.

Lemma remaining_pages_returns (catalog_id pages_to_fetch : Z) (pages : list Z) :
  forall (a : agg) (earlier : list product) (w : World E),
    tracks a earlier ->
    returns (remaining_pages (fetch_page_with specs) catalog_id pages_to_fetch pages a) w
      (fun a' _ l =>
         (exists k, posts l = firstn k pages)
         /\ (none_of is_stop l = true -> posts l = pages)
         /\ only_last is_stop l
         /\ all_rows a' = all_rows a ++ first_occurrences_from earlier (candidates l)
         /\ tracks a' (earlier ++ candidates l)
         /\ all_valid (candidates l)).
Proof.
  induction pages as [|pg rest IH]; intros a earlier w Htr; simpl.
  - apply returns_ret. simpl. rewrite !app_nil_r.
    repeat split; try (apply Htr); try constructor.
    + exists 0. reflexivity.
    + apply only_last_nil.
  - apply returns_bind.
    eapply returns_weaken; [apply fetch_page_with_returns|].
    intros r w1 lf [Hlog Hvalid].
    destruct (fetch_log _ _ _ Hlog) as (Hposts & Hcands & Hnostop & _).
    simpl. destruct (fst r) as [|p ps] eqn:Hprods; simpl.
    + apply returns_bind. apply returns_emit. apply returns_ret.
      rewrite app_nil_r, posts_app, candidates_app, Hposts, Hcands.
      simpl. rewrite !app_nil_r. repeat split; try (apply Htr); try constructor.
      * exists 1. reflexivity.
      * rewrite none_of_app. simpl. rewrite andb_false_r. discriminate.
      * apply only_last_app; [assumption | apply only_last_single].
    + apply returns_bind. apply returns_emit. apply returns_bind.
      set (a1 := add_products pg (p :: ps) (start_page a)).
      set (cands := map (fun q => set_page q pg) (p :: ps)).
      destruct (add_products_first_occurrences pg (p :: ps) (start_page a) earlier
                  (tracks_start_page _ _ Htr)) as (Hrows & Htr1 & _).
      fold a1 in Hrows, Htr1. fold cands in Hrows, Htr1.
      assert (Hsleep : forall (w : World E) Q,
                 (forall l0, none_of is_stop l0 = true -> posts l0 = [] ->
                             candidates l0 = [] -> Q tt w l0) ->
                 returns (if (pg <? pages_to_fetch)%Z then sleep else ret tt) w Q).
      { intros w0 Q HQ. destruct (pg <? pages_to_fetch)%Z.
        - apply returns_emit. apply HQ; reflexivity.
        - apply returns_ret. apply HQ; reflexivity. }
      apply Hsleep. intros ls Hls_stop Hls_posts Hls_cands.
      eapply returns_weaken; [apply (IH a1 (earlier ++ cands) w1 Htr1)|].
      intros a' w' l (Hk & Hall & Hlast & Hrows' & Htr' & Hv).
      rewrite !posts_app, !candidates_app, Hposts, Hcands, Hls_posts, Hls_cands.
      cbn [posts candidates flat_map app]. rewrite app_nil_r.
      fold (candidates l). fold (posts l). fold cands.
      repeat split.
      * destruct Hk as [k Hk]. exists (S k). simpl. rewrite Hk. reflexivity.
      * rewrite ?none_of_app, ?none_of_cons, ?none_of_app. intros Hn.
        rewrite !andb_true_iff in Hn.
        destruct Hn as (_ & _ & _ & Hn). rewrite (Hall Hn). reflexivity.
      * apply only_last_app; [assumption|].
        apply (only_last_app is_stop [_]); [reflexivity|].
        apply only_last_app; assumption.
      * rewrite Hrows', Hrows, first_occurrences_from_app, <- app_assoc.
        reflexivity.
      * rewrite app_assoc. apply Htr'.
      * rewrite app_assoc. apply Htr'.
      * unfold all_valid in *. apply Forall_app. split; [|assumption].
        apply all_valid_set_page. assumption.
Qed.

Lemma first_occurrences_from_incl (cands : list product) :
  forall earlier p, In p (first_occurrences_from earlier cands) -> In p cands.
Proof.
  induction cands as [|c rest IH]; intros earlier p; simpl; [tauto|].
  destruct (existsb (same_key c) earlier).
  - intros H. right. eapply IH. eassumption.
  - intros [-> | H]; [left; reflexivity | right; eapply IH; eassumption].
Qed.

Lemma py_range_empty (a b : Z) : (b <= a)%Z -> py_range a b = [].
Proof. intros H. unfold py_range. replace (Z.to_nat (b - a)) with 0 by lia. reflexivity. Qed.

Lemma py_range_cons (a b : Z) : (a < b)%Z -> py_range a b = a :: py_range (a + 1) b.
Proof.
  intros H. unfold py_range.
  replace (Z.to_nat (b - a)) with (S (Z.to_nat (b - (a + 1)))) by lia.
  simpl. f_equal; [lia|].
  rewrite <- seq_shift, map_map. apply map_ext. intros i. lia.
Qed.


Lemma In_py_range (a b x : Z) : In x (py_range a b) <-> (a <= x < b)%Z.
Proof.
  unfold py_range. rewrite in_map_iff. split.
  - intros (i & <- & Hi). apply in_seq in Hi. lia.
  - intros Hx. exists (Z.to_nat (x - a)). split; [lia|]. apply in_seq. lia.
Qed.

(** Page 1 and then pages 2 to [n] are the pages 1 to [max 1 n]. *)
Lemma first_and_remaining (n : Z) :
  1%Z :: py_range 2 (n + 1) = py_range 1 (Z.max 1 n + 1).
Proof.
  destruct (Z_lt_le_dec n 1) as [Hlt | Hge].
  - rewrite (py_range_empty 2) by lia.
    rewrite Z.max_l by lia. rewrite py_range_cons by lia.
    rewrite py_range_empty by lia. reflexivity.
  - rewrite Z.max_r by lia. rewrite (py_range_cons 1) by lia. reflexivity.
Qed.

(** A whole scrape of the structured source, from what its first page fetch
    gives. *)
Lemma scrape_with_returns (base_url : str) (max_pages catalog_id : Z) (w : World E)
  (products_page1 : list product) (total_pages : option Z) (w1 : World E)
  (l1 : list event) :
  parse_catalog_id_from_url base_url = Some catalog_id ->
  fetch_page_with specs catalog_id 1 w = (Ret (products_page1, total_pages), w1, l1) ->
  let n := pages_to_fetch_of (match total_pages with Some t => t | None => 1%Z end)
             max_pages in
  returns (scrape_with (fetch_page_with specs) base_url max_pages) w
    (fun rows w' l =>
       (products_page1 = [] -> rows = [] /\ w' = w1 /\ l = l1 ++ [EvStop 1])
       /\ (exists k, posts l = 1%Z :: firstn k (py_range 2 (n + 1)))
       /\ (none_of is_stop l = true -> posts l = py_range 1 (Z.max 1 n + 1))
       /\ only_last is_stop l
       /\ rows = first_occurrences (candidates l)
       /\ all_valid (candidates l)).
Proof.
  intros Hparse Hfetch n. unfold scrape_with. rewrite Hparse.
  destruct (fetch_page_with_returns specs catalog_id 1 w) as (r & w1' & l1' & Hrun & Hlog & Hvalid).
  rewrite Hfetch in Hrun. injection Hrun as <- <- <-. simpl in Hvalid.
  destruct (fetch_log _ _ _ Hlog) as (Hposts & Hcands & Hnostop & _).
  apply returns_bind. exists (products_page1, total_pages), w1, l1.
  split; [assumption|]. cbn [fst snd].
  destruct products_page1 as [|p ps]; cbn [is_empty].
  - apply returns_bind. apply returns_emit. apply returns_ret.
    rewrite app_nil_r, posts_app, candidates_app, Hposts, Hcands. simpl.
    repeat split; try constructor.
    + exists 0. reflexivity.
    + rewrite none_of_app. simpl. rewrite andb_false_r. discriminate.
    + apply only_last_app; [assumption | apply only_last_single].
  - apply returns_bind. apply returns_emit. apply returns_bind.
    fold n.
    set (a1 := add_products 1 (p :: ps) empty_agg).
    set (cands := map (fun q => set_page q 1%Z) (p :: ps)).
    destruct (add_products_first_occurrences 1 (p :: ps) empty_agg [] tracks_empty)
      as (Hrows & Htr1 & _).
    fold a1 in Hrows, Htr1. fold cands in Hrows, Htr1.
    eapply returns_weaken; [apply (remaining_pages_returns catalog_id n _ a1 _ w1 Htr1)|].
    intros a' w' l (Hk & Hall & Hlast & Hrows' & Htr' & Hv).
    apply returns_ret.
    rewrite app_nil_r, !posts_app, !candidates_app, Hposts, Hcands.
    cbn [posts candidates flat_map app]. rewrite app_nil_r.
    fold (candidates l). fold (posts l). fold cands.
    repeat split.
    + discriminate.
    + discriminate.
    + discriminate.
    + destruct Hk as [k Hk]. exists k. rewrite Hk. reflexivity.
    + rewrite ?none_of_app, ?none_of_cons. intros Hn.
      rewrite !andb_true_iff in Hn. destruct Hn as (_ & _ & Hn).
      rewrite (Hall Hn). apply first_and_remaining.
    + apply only_last_app; [assumption|].
      apply (only_last_app is_stop [_]); [reflexivity | assumption].
    + rewrite Hrows', Hrows. unfold first_occurrences.
      rewrite first_occurrences_from_app. reflexivity.
    + unfold all_valid in *. apply Forall_app. split; [|assumption].
      apply all_valid_set_page. assumption.
Qed.

End Structured.

(** ** The text source *)

(** The text of a group whose pattern has no inner group. *)
Lemma group_text (ml : bool) (n : nat) (r : regex) p s c p' s' c' :
  matches ml (Grp n r) p s c p' s' c' -> no_groups r = true ->
  exists w, s = w ++ s' /\ c' = set_cap n w c /\ matches ml r p (w ++ s') c p' s' c.
Proof.
  intros H Hng. apply matches_group in H.
  destruct H as (w & c1 & -> & -> & Hm & ->).
  assert (c1 = c) as -> by (eapply matches_no_groups; eassumption).
  exists w. repeat split. assumption.
Qed.

(** The groups of a match of the pattern of main.py: a part number of two
    characters or more, a C with four digits or more, a manufacturer of one
    character or more. *)
Lemma main_match_groups (p0 s0 : str) (m : rmatched) :
  match_here false Main.MPN_LCSC_MANUF_RE p0 s0 = Some m ->
  exists a w1 ds w3,
    group (m_caps m) 1 = a :: w1 /\ 1 <= length w1
    /\ group (m_caps m) 2 = "C"%char :: ds
    /\ Forall (fun d => is_digit d = true) ds /\ 4 <= length ds
    /\ group (m_caps m) 3 = w3 /\ 1 <= length w3.
Proof.
  intros Hm. apply match_here_sound in Hm.
  unfold Main.MPN_LCSC_MANUF_RE in Hm. cbn [Seq] in Hm.
  apply matches_cat in Hm. destruct Hm as (pa & sa & ca & Hwb & Hm).
  inversion Hwb; subst.
  apply matches_cat in Hm. destruct Hm as (pb & sb & cb & Hg1 & Hm).
  apply group_text in Hg1; [|reflexivity].
  destruct Hg1 as (t1 & -> & -> & Hg1).
  apply matches_cat in Hg1. destruct Hg1 as (p1 & s1 & c1 & Hf & Hr).
  apply matches_cls in Hf. destruct Hf as (a & Hs & -> & Ha & ->).
  apply matches_rep_cls in Hr. destruct Hr as (w1 & -> & _ & Hw1 & Hl1 & _).
  assert (Ht1 : t1 = a :: w1).
  { change (a :: w1 ++ sb) with ((a :: w1) ++ sb) in Hs.
    apply app_inv_tail in Hs. assumption. }
  apply matches_cat in Hm. destruct Hm as (pc & sc & cc & Hsp1 & Hm).
  apply matches_no_groups in Hsp1 as ->; [|reflexivity].
  apply matches_cat in Hm. destruct Hm as (pd & sd & cd & Hg2 & Hm).
  apply group_text in Hg2; [|reflexivity].
  destruct Hg2 as (t2 & -> & -> & Hg2).
  apply matches_cat in Hg2. destruct Hg2 as (p2 & s2 & c2 & HC & Hd).
  apply matches_cls in HC. destruct HC as (cC & Hs2 & -> & HcC & ->).
  apply matches_rep_cls in Hd. destruct Hd as (ds & -> & _ & Hds & Hl2 & _).
  assert (Ht2 : t2 = "C"%char :: ds).
  { change (cC :: ds ++ sd) with ((cC :: ds) ++ sd) in Hs2.
    apply app_inv_tail in Hs2. rewrite Hs2. f_equal.
    unfold chr_eqb in HcC. apply Ascii.eqb_eq in HcC. symmetry. assumption. }
  apply matches_cat in Hm. destruct Hm as (pe & se & ce & Hsp2 & Hm).
  apply matches_no_groups in Hsp2 as ->; [|reflexivity].
  apply matches_cat in Hm. destruct Hm as (pf & sf & cf & Hlab & Hm).
  apply matches_no_groups in Hlab as ->; [|reflexivity].
  apply matches_cat in Hm. destruct Hm as (pg & sg & cg & Hsp3 & Hg3).
  apply matches_no_groups in Hsp3 as ->; [|reflexivity].
  apply group_text in Hg3; [|reflexivity].
  destruct Hg3 as (t3 & -> & Hcaps & Hg3).
  apply matches_rep_cls in Hg3. destruct Hg3 as (w3 & Hs3 & _ & Hw3 & Hl3 & _).
  apply app_inv_tail in Hs3.
  exists a, w1, ds, t3. rewrite Hcaps, Ht1, Ht2. unfold group. cbn.
  repeat split; try assumption. rewrite Hs3. assumption.
Qed.

Lemma main_extract_valid (page_text : str) :
  all_valid (Main.extract_products_from_text page_text).
Proof.
  unfold all_valid. apply List.Forall_forall. intros p Hp.
  unfold Main.extract_products_from_text in Hp. apply in_map_iff in Hp.
  destruct Hp as (t & <- & Ht). apply re_findall_sound in Ht.
  destruct Ht as (p0 & s0 & m & Hm & ->).
  apply main_match_groups in Hm.
  destruct Hm as (a & w1 & ds & w3 & H1 & Hl1 & H2 & Hds & Hl2 & H3 & Hl3).
  cbn [seq map nth].
  assert (Hv : Validator
            (Product (group (m_caps m) 1) (group (m_caps m) 2) (group (m_caps m) 3)
                     [] [] [] [] [] None)).
  { unfold Validator. cbn [mpn lcsc_code manufacturer]. rewrite H1, H2, H3.
    repeat split; try discriminate.
    - simpl. lia.
    - exists ds. repeat split; assumption.
    - destruct w3; [simpl in Hl3; lia | discriminate]. }
  split; [apply valid_is_validated|]; assumption.
Qed.

Lemma claude_extract_valid (page_text : str) :
  all_valid (Claude.extract_products_from_text page_text).
Proof.
  unfold all_valid, Claude.extract_products_from_text.
  apply List.Forall_forall. intros p Hp. apply filter_In in Hp.
  destruct Hp as [Hin Hv]. split; [assumption|].
  apply validated_is_valid; [assumption|].
  apply in_map_iff in Hin. destruct Hin as (t & <- & _).
  cbn [lcsc_code]. apply strip_no_trailing_space.
Qed.

(** [fetch_html] of main.py sends one GET; it returns the text or raises. *)
Lemma main_fetch_html_log {E : env} (url : str) (w : World E) r w' l :
  Main.fetch_html url w = (r, w', l) -> l = [EvGet url].
Proof.
  unfold Main.fetch_html, bind, get, raise_for_status.
  destruct (requests_get E url w) as [o w1].
  destruct o as [| |status body]; simpl.
  - intros H. injection H as _ _ <-. reflexivity.
  - intros H. injection H as _ _ <-. reflexivity.
  - destruct ((400 <=? status)%Z && (status <? 600)%Z); simpl;
      intros H; injection H as _ _ <-; reflexivity.
Qed.

Section TextSource.
Context {E : env}.
Variable base_url : str.

(** The loop of main.py: whether it returns or raises, nothing happens after
    a page without new products; when it returns, the rows are the first
    occurrences among the candidates. *)
Lemma main_pages_loop_run (pages : list Z) :
  forall (a : agg) (earlier : list product) (w : World E) r w' l,
    tracks a earlier ->
    Main.pages_loop base_url pages a w = (r, w', l) ->
    only_last is_zero_new l
    /\ all_valid (candidates l)
    /\ (forall a', r = Ret a' ->
          all_rows a' = all_rows a ++ first_occurrences_from earlier (candidates l)
          /\ tracks a' (earlier ++ candidates l)).
Proof.
  induction pages as [|pg rest IH]; intros a earlier w r w' l Htr Hrun.
  - simpl in Hrun. injection Hrun as <- <- <-. simpl. rewrite !app_nil_r.
    split; [apply only_last_nil|]. split; [constructor|].
    intros a' Ha'. injection Ha' as <-. split; [reflexivity | assumption].
  - cbn [Main.pages_loop] in Hrun. apply bind_inv in Hrun.
    destruct Hrun as [(e & Hf & ->) | (html & w1 & l1 & l2 & Hf & Hrun & ->)].
    + apply main_fetch_html_log in Hf. subst l. simpl.
      split; [apply only_last_none; reflexivity|]. split; [constructor|].
      intros a' Ha'. discriminate.
    + apply main_fetch_html_log in Hf. subst l1.
      set (products := Main.extract_products_from_text (soup_get_text E html)) in *.
      set (a1 := add_products pg products (start_page a)) in *.
      set (cands := map (fun q => set_page q pg) products).
      destruct (add_products_first_occurrences pg products (start_page a) earlier
                  (tracks_start_page _ _ Htr)) as (Hrows & Htr1 & Hcnt).
      fold a1 in Hrows, Htr1, Hcnt. fold cands in Hrows, Htr1, Hcnt.
      assert (Hvc : all_valid cands).
      { apply all_valid_set_page. apply main_extract_valid. }
      apply bind_inv in Hrun.
      destruct Hrun as [(e & Hf & _) | (u & w2 & l3 & l4 & Hemit & Hrun & ->)];
        [rewrite emit_run in Hf; discriminate|].
      rewrite emit_run in Hemit. injection Hemit as _ <- <-.
      destruct (new_count a1 =? 0) eqn:Hnew.
      * rewrite ret_run in Hrun. injection Hrun as <- <- <-.
        apply Nat.eqb_eq in Hnew.
        cbn [app candidates flat_map]. fold cands. rewrite !app_nil_r.
        split; [|split].
        -- apply (only_last_app is_zero_new [_]); [reflexivity|].
           apply only_last_single.
        -- assumption.
        -- intros a' Ha'. injection Ha' as <-. split; assumption.
      * apply bind_inv in Hrun.
        destruct Hrun as [(e & Hf & _) | (u' & w3 & l5 & l6 & Hsl & Hrun & ->)];
          [discriminate|].
        unfold sleep in Hsl. rewrite emit_run in Hsl. injection Hsl as _ <- <-.
        destruct (IH a1 (earlier ++ cands) w1 r w' l6 Htr1 Hrun) as (Hlast & Hv & Hret).
        cbn [app candidates flat_map]. fold (candidates l6). fold cands.
        apply Nat.eqb_neq in Hnew.
        split; [|split].
        -- apply (only_last_app is_zero_new [_]); [reflexivity|].
           apply (only_last_app is_zero_new [_]).
           ++ simpl. destruct (new_count a1); [contradiction | reflexivity].
           ++ apply (only_last_app is_zero_new [_]); [reflexivity | assumption].
        -- unfold all_valid in *. apply Forall_app. split; assumption.
        -- intros a' Ha'. destruct (Hret a' Ha') as [Hr Ht]. split.
           ++ rewrite Hr, Hrows, first_occurrences_from_app, <- app_assoc. reflexivity.
           ++ rewrite app_assoc. assumption.
Qed.

(** The loop of claude.py never raises. *)
Lemma claude_pages_loop_returns (max_pages : Z) (pages : list Z) :
  forall (a : agg) (ce : nat) (earlier : list product) (w : World E),
    tracks a earlier ->
    returns (Claude.pages_loop base_url max_pages pages a ce) w
      (fun a' _ l =>
         only_last is_zero_new l
         /\ all_valid (candidates l)
         /\ all_rows a' = all_rows a ++ first_occurrences_from earlier (candidates l)
         /\ tracks a' (earlier ++ candidates l)).
Proof.
  induction pages as [|pg rest IH]; intros a ce earlier w Htr; cbn [Claude.pages_loop].
  - apply returns_ret. simpl. rewrite !app_nil_r.
    split; [apply only_last_nil|]. split; [constructor|]. split; [reflexivity | assumption].
  - apply returns_bind.
    eapply returns_weaken; [apply fetch_html_returns|].
    intros html w1 l1 ->. destruct html as [html|].
    + set (products := Claude.extract_products_from_text (soup_get_text E html)).
      set (a1 := add_products pg products (start_page a)).
      set (cands := map (fun q => set_page q pg) products).
      destruct (add_products_first_occurrences pg products (start_page a) earlier
                  (tracks_start_page _ _ Htr)) as (Hrows & Htr1 & Hcnt).
      fold a1 in Hrows, Htr1, Hcnt. fold cands in Hrows, Htr1, Hcnt.
      assert (Hvc : all_valid cands).
      { apply all_valid_set_page. apply claude_extract_valid. }
      apply returns_bind. apply returns_emit.
      destruct (new_count a1 =? 0) eqn:Hnew.
      * apply returns_ret. cbn [app candidates flat_map]. fold cands.
        rewrite !app_nil_r.
        apply Nat.eqb_eq in Hnew.
        split; [|split; [assumption | split; assumption]].
        apply (only_last_app is_zero_new [_]); [reflexivity|].
        apply only_last_single.
      * apply Nat.eqb_neq in Hnew. apply returns_bind.
        assert (Hsleep : forall (w0 : World E) Q,
                   (forall l0, none_of is_zero_new l0 = true ->
                               candidates l0 = [] -> Q tt w0 l0) ->
                   returns (if (pg <? max_pages)%Z then sleep else ret tt) w0 Q).
        { intros w0 Q HQ. destruct (pg <? max_pages)%Z.
          - apply returns_emit. apply HQ; reflexivity.
          - apply returns_ret. apply HQ; reflexivity. }
        apply Hsleep. intros ls Hls Hlsc.
        eapply returns_weaken; [apply (IH a1 0 (earlier ++ cands) w1 Htr1)|].
        intros a' w' l (Hlast & Hv & Hr & Ht).
        rewrite !candidates_app, Hlsc. cbn [app candidates flat_map].
        fold (candidates l). fold cands. rewrite app_nil_r.
        split; [|split; [|split]].
        -- apply (only_last_app is_zero_new [_]); [reflexivity|].
           apply (only_last_app is_zero_new [_]).
           ++ simpl. destruct (new_count a1); [contradiction | reflexivity].
           ++ apply only_last_app; assumption.
        -- unfold all_valid in *. apply Forall_app. split; assumption.
        -- rewrite Hr, Hrows, first_occurrences_from_app, <- app_assoc. reflexivity.
        -- rewrite app_assoc. assumption.
    + apply returns_bind. apply returns_emit.
      destruct (2 <=? ce + 1).
      * apply returns_ret. simpl. rewrite !app_nil_r.
        split; [apply only_last_none; reflexivity|].
        split; [constructor|]. split; [reflexivity | assumption].
      * eapply returns_weaken; [apply (IH a (ce + 1) earlier w1 Htr)|].
        intros a' w' l (Hlast & Hv & Hr & Ht).
        cbn [app candidates flat_map]. fold (candidates l).
        split; [|split; [assumption | split; assumption]].
        apply (only_last_app is_zero_new [_; _]); [reflexivity | assumption].
Qed.

(** Two failed fetches in a row end the loop of claude.py. *)
Lemma claude_pages_loop_skips (max_pages : Z) (pages : list Z) :
  forall (a : agg) (ce : nat) (w : World E),
    returns (Claude.pages_loop base_url max_pages pages a ce) w
      (fun _ _ l =>
         two_skips_end l
         /\ (1 <= ce -> forall u m l2, l = EvGet u :: EvSkip m :: l2 -> l2 = [])).
Proof.
  induction pages as [|pg rest IH]; intros a ce w; cbn [Claude.pages_loop].
  - apply returns_ret. split.
    + intros l1 n u m l2 H. destruct l1; discriminate.
    + intros _ u m l2 H. discriminate.
  - apply returns_bind.
    eapply returns_weaken; [apply fetch_html_returns|].
    intros html w1 l1 ->. destruct html as [html|].
    + apply returns_bind. apply returns_emit.
      match goal with
      | |- context [EvPage pg ?ps ?k] => set (report := EvPage pg ps k)
      end.
      assert (Hgoal : forall url tail,
                 two_skips_end tail ->
                 two_skips_end ([EvGet url] ++ [report] ++ tail)
                 /\ (1 <= ce -> forall u m l2,
                        [EvGet url] ++ [report] ++ tail
                        = EvGet u :: EvSkip m :: l2 -> l2 = [])).
      { intros url tail Ht. split.
        - intros l1 n u m l2 H. destruct l1 as [|e1 [|e2 l1]]; simpl in H.
          + discriminate.
          + injection H as _ H. discriminate.
          + injection H as _ _ H. eapply Ht. eassumption.
        - intros _ u m l2 H. simpl in H. discriminate. }
      destruct (_ =? 0).
      * apply returns_ret. apply Hgoal.
        intros l1 n u m l2 H. destruct l1; discriminate.
      * apply returns_bind.
        destruct (pg <? max_pages)%Z.
        -- apply returns_emit.
           eapply returns_weaken; [apply (IH _ 0 w1)|].
           intros a' w' l [Hl _]. apply (Hgoal _ ([EvSleep] ++ l)).
           intros l1 n u m l2 H. destruct l1 as [|e1 l1]; simpl in H.
           ++ discriminate.
           ++ injection H as _ H. eapply Hl. eassumption.
        -- apply returns_ret.
           eapply returns_weaken; [apply (IH _ 0 w1)|].
           intros a' w' l [Hl _]. apply (Hgoal _ ([] ++ l)). exact Hl.
    + apply returns_bind. apply returns_emit.
      destruct (2 <=? ce + 1) eqn:Hce.
      * apply returns_ret. simpl. split.
        -- intros l1 n u m l2 H. destruct l1 as [|e1 [|e2 [|e3 l1]]]; simpl in H;
             discriminate.
        -- intros _ u m l2 H. injection H as _ _ <-. reflexivity.
      * apply Nat.leb_gt in Hce.
        eapply returns_weaken; [apply (IH a (ce + 1) w1)|].
        intros a' w' l [Hl Hl1]. simpl. split.
        -- intros l1 n u m l2 H. destruct l1 as [|e1 [|e2 l1]]; simpl in H.
           ++ discriminate.
           ++ injection H as _ _ H. eapply Hl1; [lia | eassumption].
           ++ injection H as _ _ H. eapply Hl. eassumption.
        -- intros Hge. lia.
Qed.

(** The loop of claude.py starts with the GET of its first page. *)
Lemma claude_pages_loop_head (max_pages pg : Z) (rest : list Z) (a : agg) (ce : nat)
  (w : World E) r w' l :
  Claude.pages_loop base_url max_pages (pg :: rest) a ce w = (r, w', l) ->
  exists l', l = EvGet (build_page_url (E:=E) base_url pg) :: l'.
Proof.
  cbn [Claude.pages_loop]. intros H. apply bind_inv in H.
  destruct (fetch_html_returns (build_page_url (E:=E) base_url pg) w)
    as (html & w1 & l1 & Hf & ->).
  destruct H as [(e & He & _) | (h & w2 & l2 & l3 & Hf' & _ & ->)].
  - rewrite Hf in He. discriminate.
  - rewrite Hf in Hf'. injection Hf' as _ _ <-. eexists. reflexivity.
Qed.

(** One turn of the loop of claude.py when the fetch fails. *)
Lemma claude_step_failed (max_pages pg : Z) (rest : list Z) (a : agg) (ce : nat)
  (w w1 : World E) (l1 : list event) :
  fetch_html (build_page_url (E:=E) base_url pg) w = (Ret None, w1, l1) ->
  Claude.pages_loop base_url max_pages (pg :: rest) a ce w
  = if 2 <=? ce + 1 then (Ret a, w1, l1 ++ [EvSkip pg])
    else let '(r, w', l) := Claude.pages_loop base_url max_pages rest a (ce + 1) w1 in
         (r, w', l1 ++ EvSkip pg :: l).
Proof.
  intros H. cbn [Claude.pages_loop]. unfold bind at 1. rewrite H.
  unfold bind at 1. cbn [emit].
  destruct (2 <=? ce + 1).
  - cbn [ret]. rewrite app_nil_r. reflexivity.
  - destruct (Claude.pages_loop base_url max_pages rest a (ce + 1) w1) as [[r w'] l].
    reflexivity.
Qed.

(** One turn of the loop of claude.py when the fetch succeeds: the failure
    count is zero afterwards. *)
Lemma claude_step_fetched (max_pages pg : Z) (rest : list Z) (a : agg) (ce : nat)
  (w w1 : World E) (l1 : list event) (html : str) :
  fetch_html (build_page_url (E:=E) base_url pg) w = (Ret (Some html), w1, l1) ->
  let products := Claude.extract_products_from_text (soup_get_text E html) in
  let a' := add_products pg products (start_page a) in
  Claude.pages_loop base_url max_pages (pg :: rest) a ce w
  = if new_count a' =? 0 then (Ret a', w1, l1 ++ [EvPage pg products 0])
    else let '(r, w', l) := Claude.pages_loop base_url max_pages rest a' 0 w1 in
         (r, w', l1 ++ EvPage pg products (new_count a')
                       :: (if (pg <? max_pages)%Z then [EvSleep] else []) ++ l).
Proof.
  intros H products a'. cbn [Claude.pages_loop]. unfold bind at 1. rewrite H.
  fold products. fold a'. unfold bind at 1. cbn [emit].
  destruct (new_count a' =? 0) eqn:Hn.
  - cbn [ret]. apply Nat.eqb_eq in Hn. rewrite Hn, app_nil_r. reflexivity.
  - unfold bind at 1.
    destruct (pg <? max_pages)%Z; cbn [sleep emit ret];
      destruct (Claude.pages_loop base_url max_pages rest a' 0 w1) as [[r w'] l];
      reflexivity.
Qed.

(** Two failed fetches in a row, from a failure count of zero: the loop ends
    after the second, whatever pages remain. *)
Lemma claude_two_failures (max_pages n n' : Z) (rest : list Z) (a : agg)
  (w w1 w2 : World E) (l1 l2 : list event) :
  fetch_html (build_page_url (E:=E) base_url n) w = (Ret None, w1, l1) ->
  fetch_html (build_page_url (E:=E) base_url n') w1 = (Ret None, w2, l2) ->
  Claude.pages_loop base_url max_pages (n :: n' :: rest) a 0 w
  = (Ret a, w2, l1 ++ EvSkip n :: l2 ++ [EvSkip n']).
Proof.
  intros H1 H2.
  rewrite (claude_step_failed _ _ _ _ _ _ _ _ H1). cbn [Nat.add Nat.leb].
  rewrite (claude_step_failed _ _ _ _ _ _ _ _ H2). reflexivity.
Qed.

(** A failed fetch, then a page with new products, then a failed fetch
    again: the count was reset in between, and the next page is asked for. *)
Lemma claude_failure_count_reset (max_pages n1 n2 n3 n4 : Z) (rest : list Z) (a : agg)
  (w w1 w2 w3 : World E) (l1 l2 l3 : list event) (html : str) :
  fetch_html (build_page_url (E:=E) base_url n1) w = (Ret None, w1, l1) ->
  fetch_html (build_page_url (E:=E) base_url n2) w1 = (Ret (Some html), w2, l2) ->
  new_count (add_products n2 (Claude.extract_products_from_text (soup_get_text E html))
               (start_page a)) <> 0 ->
  fetch_html (build_page_url (E:=E) base_url n3) w2 = (Ret None, w3, l3) ->
  exists r w' l,
    Claude.pages_loop base_url max_pages (n1 :: n2 :: n3 :: n4 :: rest) a 0 w = (r, w', l)
    /\ In (EvGet (build_page_url (E:=E) base_url n4)) l.
Proof.
  intros H1 H2 Hnew H3.
  rewrite (claude_step_failed _ _ _ _ _ _ _ _ H1). cbn [Nat.add Nat.leb].
  rewrite (claude_step_fetched _ _ _ _ _ _ _ _ _ H2). cbv zeta.
  apply Nat.eqb_neq in Hnew. rewrite Hnew.
  rewrite (claude_step_failed _ _ _ _ _ _ _ _ H3). cbn [Nat.add Nat.leb].
  match goal with
  | |- context [Claude.pages_loop ?b ?m (n4 :: rest) ?a2 1 w3] =>
      destruct (Claude.pages_loop b m (n4 :: rest) a2 1 w3) as [[r w'] l] eqn:Hrest
  end.
  destruct (claude_pages_loop_head _ _ _ _ _ _ _ _ _ Hrest) as (l' & ->).
  do 3 eexists. split; [reflexivity|].
  apply in_or_app; right. apply in_cons.
  apply in_or_app; right. apply in_cons.
  apply in_or_app; right. apply in_or_app; right.
  apply in_cons. apply in_eq.
Qed.

End TextSource.

(** * The claims *)

Lemma first_occurrences_keys (cands : list product) :
  List.NoDup (map key_of (first_occurrences cands))
  /\ (forall k, In k (map key_of cands) -> In k (map key_of (first_occurrences cands))).
Proof.
  split.
  - apply first_occurrences_from_keys.
  - intros k Hk. destruct (first_occurrences_from_complete cands [] k Hk) as [[] | H].
    exact H.
Qed.

Lemma all_valid_first_occurrences (cands : list product) :
  all_valid cands -> Forall emitted_ok (first_occurrences cands).
Proof.
  unfold all_valid. rewrite !List.Forall_forall. intros H p Hp.
  apply H. eapply first_occurrences_from_incl. exact Hp.
Qed.


(** Every run of the structured scrape returns; what holds of its rows and of
    its log. *)
Lemma scrape_with_facts {E : env} (specs : item -> str) (base_url : str)
  (max_pages : Z) (w : World E) r w' l :
  scrape_with (fetch_page_with specs) base_url max_pages w = (r, w', l) ->
  exists rows, r = Ret rows
               /\ only_last is_stop l
               /\ rows = first_occurrences (candidates l)
               /\ all_valid (candidates l).
Proof.
  intros Hrun.
  destruct (parse_catalog_id_from_url base_url) as [cid|] eqn:Hparse.
  - destruct (fetch_page_with_returns specs cid 1 w) as ([p1 tp] & w1 & l1 & Hf & _).
    destruct (returns_unique _ _ _ _ _ _
                (scrape_with_returns specs base_url max_pages cid w p1 tp w1 l1 Hparse Hf)
                Hrun) as (rows & -> & _ & _ & _ & Hlast & Hrows & Hv).
    exists rows. repeat split; assumption.
  - unfold scrape_with in Hrun. rewrite Hparse in Hrun. injection Hrun as <- <- <-.
    exists []. repeat split.
    + apply only_last_nil.
    + constructor.
Qed.

Lemma main_scrape_facts {E : env} (base_url : str) (max_pages : Z) (w : World E) r w' l :
  Main.scrape_lcsc_category base_url max_pages w = (r, w', l) ->
  only_last is_zero_new l
  /\ all_valid (candidates l)
  /\ (forall rows, r = Ret rows -> rows = first_occurrences (candidates l)).
Proof.
  unfold Main.scrape_lcsc_category. intros Hrun. apply bind_inv in Hrun.
  destruct Hrun as [(e & Hloop & ->) | (a & w1 & l1 & l2 & Hloop & Hret & ->)].
  - destruct (main_pages_loop_run base_url _ _ _ _ _ _ _ tracks_empty Hloop)
      as (Hlast & Hv & _).
    split; [assumption|]. split; [assumption|]. intros rows H. discriminate.
  - rewrite ret_run in Hret. injection Hret as <- <- <-. rewrite app_nil_r.
    destruct (main_pages_loop_run base_url _ _ _ _ _ _ _ tracks_empty Hloop)
      as (Hlast & Hv & Hrows).
    split; [assumption|]. split; [assumption|].
    intros rows H. injection H as <-.
    destruct (Hrows a eq_refl) as [Hr _]. exact Hr.
Qed.

Lemma claude_scrape_facts {E : env} (base_url : str) (max_pages : Z) (w : World E)
  r w' l :
  Claude.scrape_lcsc_category base_url max_pages w = (r, w', l) ->
  exists rows, r = Ret rows
               /\ only_last is_zero_new l
               /\ two_skips_end l
               /\ rows = first_occurrences (candidates l)
               /\ all_valid (candidates l).
Proof.
  unfold Claude.scrape_lcsc_category. intros Hrun. apply bind_inv in Hrun.
  destruct (claude_pages_loop_returns base_url max_pages
              (py_range 1 (max_pages + 1)) empty_agg 0 [] w tracks_empty)
    as (a & w1 & l1 & Hloop & Hlast & Hv & Hrows & _).
  destruct (claude_pages_loop_skips base_url max_pages
              (py_range 1 (max_pages + 1)) empty_agg 0 w)
    as (a2 & w2 & l2 & Hloop2 & Hskips & _).
  rewrite Hloop in Hloop2. injection Hloop2 as <- <- <-.
  destruct Hrun as [(e & He & _) | (a' & w3 & l3 & l4 & Hloop' & Hret & ->)].
  - rewrite Hloop in He. discriminate.
  - rewrite Hloop in Hloop'. injection Hloop' as <- <- <-.
    rewrite ret_run in Hret. injection Hret as <- <- <-. rewrite app_nil_r.
    exists (all_rows a). repeat split; assumption.
Qed.


(** C2.  Every record a scrape returns is accepted by [validate_product] and
    is valid in the words of the specification: a part number of two
    characters or more, a catalogue code made of a C and four digits or more,
    a manufacturer that is not empty. *)
Theorem emitted_records_are_valid :
  (forall (E : env) (base_url : str) (max_pages : Z) (w : World E) rows w' l,
      Main.scrape_lcsc_category base_url max_pages w = (Ret rows, w', l) ->
      Forall emitted_ok rows)
  /\ (forall (E : env) (base_url : str) (max_pages : Z) (w : World E) rows w' l,
        Claude.scrape_lcsc_category base_url max_pages w = (Ret rows, w', l) ->
        Forall emitted_ok rows)
  /\ (forall (E : env) (specs : item -> str) (base_url : str) (max_pages : Z)
             (w : World E) rows w' l,
        scrape_with (fetch_page_with specs) base_url max_pages w = (Ret rows, w', l) ->
        Forall emitted_ok rows).
Proof.
  split; [|split].
  - intros E base_url max_pages w rows w' l H. apply main_scrape_facts in H.
    destruct H as (_ & Hv & Hrows). rewrite (Hrows rows eq_refl).
    apply all_valid_first_occurrences. assumption.
  - intros E base_url max_pages w rows w' l H. apply claude_scrape_facts in H.
    destruct H as (rows' & Hr & _ & _ & -> & Hv). injection Hr as ->.
    apply all_valid_first_occurrences. assumption.
  - intros E specs base_url max_pages w rows w' l H. apply scrape_with_facts in H.
    destruct H as (rows' & Hr & _ & -> & Hv). injection Hr as ->.
    apply all_valid_first_occurrences. assumption.
Qed.

(** C3.  Within one call of [scrape_lcsc_category] the rows returned are the
    candidate records of the run, in their order, each kept when no earlier
    candidate has its key [(mpn, lcsc_code)]: no key occurs twice among the
    rows, and every key among the candidates is the key of a row. *)
Theorem rows_are_first_occurrences :
  (forall (E : env) (base_url : str) (max_pages : Z) (w : World E) rows w' l,
      Main.scrape_lcsc_category base_url max_pages w = (Ret rows, w', l) ->
      rows = first_occurrences (candidates l)
      /\ List.NoDup (map key_of rows)
      /\ (forall k, In k (map key_of (candidates l)) -> In k (map key_of rows)))
  /\ (forall (E : env) (base_url : str) (max_pages : Z) (w : World E) rows w' l,
        Claude.scrape_lcsc_category base_url max_pages w = (Ret rows, w', l) ->
        rows = first_occurrences (candidates l)
        /\ List.NoDup (map key_of rows)
        /\ (forall k, In k (map key_of (candidates l)) -> In k (map key_of rows)))
  /\ (forall (E : env) (specs : item -> str) (base_url : str) (max_pages : Z)
             (w : World E) rows w' l,
        scrape_with (fetch_page_with specs) base_url max_pages w = (Ret rows, w', l) ->
        rows = first_occurrences (candidates l)
        /\ List.NoDup (map key_of rows)
        /\ (forall k, In k (map key_of (candidates l)) -> In k (map key_of rows))).
Proof.
  assert (Hgen : forall rows cands, rows = first_occurrences cands ->
             rows = first_occurrences cands
             /\ List.NoDup (map key_of rows)
             /\ (forall k, In k (map key_of cands) -> In k (map key_of rows))).
  { intros rows cands ->. split; [reflexivity|]. apply first_occurrences_keys. }
  split; [|split].
  - intros E base_url max_pages w rows w' l H. apply main_scrape_facts in H.
    destruct H as (_ & _ & Hrows). apply Hgen. apply Hrows. reflexivity.
  - intros E base_url max_pages w rows w' l H. apply claude_scrape_facts in H.
    destruct H as (rows' & Hr & _ & _ & Hrows & _). injection Hr as ->.
    apply Hgen. assumption.
  - intros E specs base_url max_pages w rows w' l H. apply scrape_with_facts in H.
    destruct H as (rows' & Hr & _ & Hrows & _). injection Hr as ->.
    apply Hgen. assumption.
Qed.


(** C10.  When the first page of a structured-source scrape has no validated
    product, the scrape returns no row and its only request is that of page
    1, whatever total the service announced; so it is when the request of
    page 1 fails. *)
Theorem first_page_without_products (E : env) (specs : item -> str) (base_url : str)
  (max_pages catalog_id : Z) (w : World E) :
  parse_catalog_id_from_url base_url = Some catalog_id ->
  (forall total_pages w1 l1,
      fetch_page_with specs catalog_id 1 w = (Ret ([], total_pages), w1, l1) ->
      scrape_with (fetch_page_with specs) base_url max_pages w
      = (Ret [], w1, l1 ++ [EvStop 1])
      /\ posts (l1 ++ [EvStop 1]) = [1%Z])
  /\ (forall o w1,
        requests_post E catalog_id 1 w = (o, w1) ->
        o = NetTimeout \/ o = NetConnectionError ->
        scrape_with (fetch_page_with specs) base_url max_pages w
        = (Ret [], w1, [EvPost catalog_id 1; EvStop 1])).
Proof.
  intros Hparse.
  assert (Hfirst : forall total_pages w1 l1,
             fetch_page_with specs catalog_id 1 w = (Ret ([], total_pages), w1, l1) ->
             scrape_with (fetch_page_with specs) base_url max_pages w
             = (Ret [], w1, l1 ++ [EvStop 1])
             /\ posts (l1 ++ [EvStop 1]) = [1%Z]).
  { intros total_pages w1 l1 Hfetch.
    destruct (scrape_with_returns specs base_url max_pages catalog_id w _ _ _ _
                Hparse Hfetch) as (rows & w' & l & Hrun & Hempty & _).
    destruct (Hempty eq_refl) as (-> & -> & ->).
    split; [assumption|].
    destruct (fetch_page_with_returns specs catalog_id 1 w)
      as (r & w2 & l2 & Hf & Hlog & _).
    rewrite Hfetch in Hf. injection Hf as _ _ <-.
    destruct (fetch_log _ _ _ Hlog) as (Hposts & _).
    rewrite posts_app, Hposts. reflexivity. }
  split; [exact Hfirst|].
  intros o w1 Hpost Ho.
  assert (Hfetch : fetch_page_with specs catalog_id 1 w
                   = (Ret ([], None), w1, [EvPost catalog_id 1])).
  { unfold fetch_page_with, bind, try_except, post. rewrite Hpost.
    destruct Ho as [-> | ->]; reflexivity. }
  destruct (Hfirst _ _ _ Hfetch) as [Hrun _]. exact Hrun.
Qed.

(** C7.  In the scrape of claude.py two failed fetches in a row are the end
    of the run; from a failure count of zero, when the fetches of two pages
    in a row fail the loop ends after the second, whatever pages remain; and
    when a failed fetch is followed by a page with new products and then by
    another failed fetch, the count was reset and the next page is asked
    for. *)
Theorem consecutive_failures (E : env) (base_url : str) (max_pages : Z) :
  (forall (w : World E) r w' l,
      Claude.scrape_lcsc_category base_url max_pages w = (r, w', l) ->
      two_skips_end l)
  /\ (forall n n' rest a (w w1 w2 : World E) l1 l2,
        fetch_html (build_page_url (E:=E) base_url n) w = (Ret None, w1, l1) ->
        fetch_html (build_page_url (E:=E) base_url n') w1 = (Ret None, w2, l2) ->
        Claude.pages_loop base_url max_pages (n :: n' :: rest) a 0 w
        = (Ret a, w2, l1 ++ EvSkip n :: l2 ++ [EvSkip n']))
  /\ (forall n1 n2 n3 n4 rest a (w w1 w2 w3 : World E) l1 l2 l3 html,
        fetch_html (build_page_url (E:=E) base_url n1) w = (Ret None, w1, l1) ->
        fetch_html (build_page_url (E:=E) base_url n2) w1 = (Ret (Some html), w2, l2) ->
        new_count (add_products n2
                     (Claude.extract_products_from_text (soup_get_text E html))
                     (start_page a)) <> 0 ->
        fetch_html (build_page_url (E:=E) base_url n3) w2 = (Ret None, w3, l3) ->
        exists r w' l,
          Claude.pages_loop base_url max_pages (n1 :: n2 :: n3 :: n4 :: rest) a 0 w
          = (r, w', l)
          /\ In (EvGet (build_page_url (E:=E) base_url n4)) l).
Proof.
  split; [|split].
  - intros w r w' l H. apply claude_scrape_facts in H.
    destruct H as (rows & _ & _ & H & _). exact H.
  - intros. eapply claude_two_failures; eassumption.
  - intros. eapply claude_failure_count_reset; eassumption.
Qed.

(** ** Soft failures *)

Section Soft.
Context {E : env}.

Lemma fetch_html_failed (url : str) (w : World E) o w1 :
  requests_get E url w = (o, w1) -> is_failure o = true ->
  fetch_html url w = (Ret None, w1, [EvGet url]).
Proof.
  intros Hget Hfail. unfold fetch_html, try_except, bind, get, raise_for_status.
  rewrite Hget. destruct o as [| |status body]; simpl in *; try reflexivity.
  rewrite Hfail. reflexivity.
Qed.

Lemma fetch_page_failed (specs : item -> str) (catalog_id pg : Z) (w : World E) o w1 :
  requests_post E catalog_id pg w = (o, w1) ->
  is_failure o = true
  \/ (exists status body, o = NetResponse status body /\ json_loads E body = None) ->
  fetch_page_with specs catalog_id pg w = (Ret ([], None), w1, [EvPost catalog_id pg]).
Proof.
  intros Hpost Hfail. unfold fetch_page_with.
  unfold bind at 1, try_except at 1, bind at 1, post, raise_for_status.
  rewrite Hpost.
  destruct o as [| |status body]; simpl in *; try reflexivity.
  destruct ((400 <=? status)%Z && (status <? 600)%Z) eqn:Hst; simpl; [reflexivity|].
  destruct Hfail as [Hfail | (s & b & Ho & Hjson)]; [discriminate|].
  injection Ho as <- <-.
  unfold bind at 1, try_except, bind at 1, json. simpl. rewrite Hjson. reflexivity.
Qed.



Lemma try_except_returns {A} (body : Py E A) hs (w : World E) Q :
  returns body w Q -> returns (try_except body hs) w Q.
Proof.
  intros (v & w' & l & H & HQ). exists v, w', l. split; [|assumption].
  unfold try_except. rewrite H. reflexivity.
Qed.

End Soft.


(** ** The specs map of rangeWithSpecs.py *)

Lemma str_eqb_eq (s t : str) : str_eqb s t = true <-> s = t.
Proof.
  revert t. induction s as [|a s IH]; intros [|b t]; simpl; split; intros H;
    try reflexivity; try discriminate.
  - apply andb_true_iff in H. destruct H as [Hab Hst].
    unfold chr_eqb in Hab. apply Ascii.eqb_eq in Hab. apply IH in Hst. congruence.
  - injection H as -> ->. apply andb_true_iff. split.
    + unfold chr_eqb. apply Ascii.eqb_refl.
    + apply IH. reflexivity.
Qed.

Lemma str_eqb_neq (s t : str) : str_eqb s t = false <-> s <> t.
Proof.
  split.
  - intros H Heq. apply str_eqb_eq in Heq. congruence.
  - intros H. destruct (str_eqb s t) eqn:Hst; [|reflexivity].
    apply str_eqb_eq in Hst. contradiction.
Qed.

Module SpecsFacts.
Import RangeWithSpecs.

Lemma dict_has_In (k : str) (specs : list (str * str)) :
  dict_has k specs = true <-> In k (map fst specs).
Proof.
  unfold dict_has. rewrite existsb_exists, in_map_iff. split.
  - intros (kv & Hin & Heq). apply str_eqb_eq in Heq. exists kv. split; assumption.
  - intros (kv & Heq & Hin). exists kv. split; [assumption|]. apply str_eqb_eq. assumption.
Qed.

Lemma dict_get_In (k : str) (specs : list (str * str)) (v : str) :
  dict_get k specs = Some v -> In (k, v) specs.
Proof.
  induction specs as [|[k0 v0] rest IH]; simpl; [discriminate|].
  destruct (str_eqb k0 k) eqn:Hk.
  - intros H. injection H as ->. apply str_eqb_eq in Hk. subst. left. reflexivity.
  - intros H. right. apply IH. assumption.
Qed.

Lemma In_dict_get (k : str) (specs : list (str * str)) (v : str) :
  List.NoDup (map fst specs) -> In (k, v) specs -> dict_get k specs = Some v.
Proof.
  induction specs as [|[k0 v0] rest IH]; simpl; [intros _ []|].
  intros Hnd Hin. inversion Hnd as [|? ? Hnotin Hnd']; subst.
  destruct Hin as [Heq | Hin].
  - injection Heq as -> ->. rewrite (proj2 (str_eqb_eq k k) eq_refl). reflexivity.
  - destruct (str_eqb k0 k) eqn:Hk.
    + apply str_eqb_eq in Hk. subst. exfalso. apply Hnotin.
      apply in_map_iff. exists (k, v). split; [reflexivity | assumption].
    + apply IH; assumption.
Qed.

(** Setting a key that is absent appends the entry. *)
Lemma dict_set_absent (k v : str) (specs : list (str * str)) :
  dict_has k specs = false -> dict_set k v specs = specs ++ [(k, v)].
Proof.
  induction specs as [|[k0 v0] rest IH]; simpl; [reflexivity|].
  unfold dict_has. simpl. fold (dict_has k rest).
  destruct (str_eqb k0 k); simpl; [discriminate|].
  intros H. rewrite IH by assumption. reflexivity.
Qed.

(** Setting a key leaves the keys without repetition. *)
Lemma dict_set_keys (k v : str) (specs : list (str * str)) :
  List.NoDup (map fst specs) -> List.NoDup (map fst (dict_set k v specs)).
Proof.
  induction specs as [|[k0 v0] rest IH]; simpl.
  - intros _. constructor; [intros [] | constructor].
  - intros Hnd. inversion Hnd as [|? ? Hnotin Hnd']; subst.
    destruct (str_eqb k0 k) eqn:Hk; simpl.
    + constructor; assumption.
    + constructor; [|apply IH; assumption].
      intros Hin. apply Hnotin.
      clear -Hin Hk. induction rest as [|[k1 v1] rest IH]; simpl in *.
      * destruct Hin as [Heq | []]. subst. apply str_eqb_neq in Hk. congruence.
      * destruct (str_eqb k1 k); simpl in Hin; [assumption|].
        destruct Hin as [Heq | Hin]; [left; assumption | right; apply IH; assumption].
Qed.

Lemma dict_get_app_l (k : str) (specs more : list (str * str)) (v : str) :
  dict_get k specs = Some v -> dict_get k (specs ++ more) = Some v.
Proof.
  induction specs as [|[k0 v0] rest IH]; simpl; [discriminate|].
  destruct (str_eqb k0 k); [intros H; exact H | apply IH].
Qed.

(** What the loop over the parameters does to the map. *)
Lemma add_params_facts (params : list param) :
  forall specs,
    List.NoDup (map fst specs) ->
    List.NoDup (map fst (add_params params specs))
    /\ (forall k v, dict_get k specs = Some v ->
                    dict_get k (add_params params specs) = Some v)
    /\ (forall k v, In (k, v) (add_params params specs) ->
                    In (k, v) specs
                    \/ (k <> [] /\ v <> []
                        /\ exists p, In p params /\ param_name p = k /\ param_value p = v)).
Proof.
  induction params as [|p rest IH]; intros specs Hnd; cbn [add_params].
  - split; [assumption|]. split; [intros k v H; exact H|].
    intros k v H. left. assumption.
  - fold (param_name p). fold (param_value p).
    assert (Hskip :
      List.NoDup (map fst (add_params rest specs))
      /\ (forall k v, dict_get k specs = Some v ->
                      dict_get k (add_params rest specs) = Some v)
      /\ (forall k v, In (k, v) (add_params rest specs) ->
                      In (k, v) specs
                      \/ (k <> [] /\ v <> []
                          /\ exists q, In q (p :: rest)
                                       /\ param_name q = k /\ param_value q = v))).
    { destruct (IH specs Hnd) as (H1 & H2 & H3).
      split; [assumption|]. split; [assumption|].
      intros k v Hin. destruct (H3 k v Hin) as [H | (Hk & Hv & q & Hq & Hn & Hval)].
      - left. assumption.
      - right. repeat split; try assumption. exists q. repeat split; try assumption.
        right. assumption. }
    destruct (is_empty (param_name p)) eqn:Hname; [exact Hskip|].
    destruct (is_empty (param_value p)) eqn:Hvalue; [exact Hskip|].
    cbn [orb]. destruct (dict_has (param_name p) specs) eqn:Hhas; [exact Hskip|].
    rewrite dict_set_absent by assumption.
    assert (Hnd' : List.NoDup (map fst (specs ++ [(param_name p, param_value p)]))).
    { rewrite <- (dict_set_absent _ _ _ Hhas). apply dict_set_keys. assumption. }
    destruct (IH _ Hnd') as (H1 & H2 & H3). split; [|split].
    + assumption.
    + intros k v Hget. apply H2. apply dict_get_app_l. assumption.
    + intros k v Hin. destruct (H3 k v Hin) as [H | (Hk & Hv & q & Hq & Hn & Hval)].
      * apply in_app_iff in H. destruct H as [H | [H | []]]; [left; assumption|].
        injection H as <- <-. right.
        repeat split; try (apply is_empty_false; assumption).
        exists p. repeat split. left. reflexivity.
      * right. repeat split; try assumption. exists q. repeat split; try assumption.
        right. assumption.
Qed.

Lemma add_params_app (pre post : list param) :
  forall specs, add_params (pre ++ post) specs = add_params post (add_params pre specs).
Proof.
  induction pre as [|p pre IH]; intros specs; cbn [add_params app]; [reflexivity|].
  destruct (is_empty _ || is_empty _); [apply IH|].
  destruct (dict_has _ specs); apply IH.
Qed.

Lemma core_specs_keys (item : item) : List.NoDup (map fst (core_specs item)).
Proof.
  unfold core_specs. repeat (destruct (truthy _)); repeat apply dict_set_keys;
    constructor.
Qed.

Lemma core_specs_reserved (item : item) (k v : str) :
  In (k, v) (core_specs item) ->
  k = L "Category" \/ k = L "Manufacturer" \/ k = L "Package".
Proof.
  unfold core_specs.
  repeat (destruct (truthy _)); cbn; intros H;
    repeat (destruct H as [H | H]; [injection H as <- _; tauto|]); contradiction.
Qed.

End SpecsFacts.

(** C8.  In the specs map built from an item no key occurs twice, so a key
    has one value; an entry that is not one of the reserved keys Category,
    Manufacturer and Package comes from a parameter whose name and value are
    not blank; the value of a reserved key, and of any key the map holds
    after some of the parameters, is the value the finished map gives it:
    parameters do not overwrite. *)
Theorem specs_map (item : item) :
  let params := or_empty_list (paramVOList item) in
  let specs := RangeWithSpecs.build_specs_from_item item in
  List.NoDup (map fst specs)
  /\ (forall k v v', In (k, v) specs -> In (k, v') specs -> v = v')
  /\ (forall k v, In (k, v) specs ->
        ((k = L "Category" \/ k = L "Manufacturer" \/ k = L "Package")
         /\ In (k, v) (RangeWithSpecs.core_specs item))
        \/ (k <> [] /\ v <> []
            /\ exists p, In p params /\ param_name p = k /\ param_value p = v))
  /\ (forall k v, RangeWithSpecs.dict_get k (RangeWithSpecs.core_specs item) = Some v ->
        RangeWithSpecs.dict_get k specs = Some v)
  /\ (forall pre post k v,
        params = pre ++ post ->
        RangeWithSpecs.dict_get k
          (RangeWithSpecs.add_params pre (RangeWithSpecs.core_specs item)) = Some v ->
        RangeWithSpecs.dict_get k specs = Some v).
Proof.
  intros params specs. subst specs. unfold RangeWithSpecs.build_specs_from_item.
  fold params.
  destruct (SpecsFacts.add_params_facts params _ (SpecsFacts.core_specs_keys item))
    as (Hnd & Hkeep & Hfrom).
  split; [assumption|]. split; [|split; [|split]].
  - intros k v v' Hv Hv'.
    apply (SpecsFacts.In_dict_get _ _ _ Hnd) in Hv.
    apply (SpecsFacts.In_dict_get _ _ _ Hnd) in Hv'. congruence.
  - intros k v Hin. destruct (Hfrom k v Hin) as [H | H]; [left | right; assumption].
    split; [|assumption]. eapply SpecsFacts.core_specs_reserved. eassumption.
  - assumption.
  - intros pre post k v Hparams Hget. rewrite Hparams, SpecsFacts.add_params_app.
    destruct (SpecsFacts.add_params_facts pre _ (SpecsFacts.core_specs_keys item))
      as (Hnd1 & _ & _).
    destruct (SpecsFacts.add_params_facts post _ Hnd1) as (_ & Hkeep2 & _).
    apply Hkeep2. assumption.
Qed.

(** ** Category discovery *)

Lemma collect_categories_ids (P : Z -> Prop) (in_range : Z -> bool)
  (links : list (str * str)) :
  (forall cat_id, in_range cat_id = true -> P cat_id) ->
  forall categories,
    Forall (fun d => P (cat_id_of d)) categories ->
    Forall (fun d => P (cat_id_of d)) (collect_categories in_range links categories).
Proof.
  intros Hrange. induction links as [|[href link_text] rest IH]; intros categories Hc;
    cbn [collect_categories]; [assumption|].
  destruct (re_search false CATEGORY_RE href) as [m|]; [|apply IH; assumption].
  destruct (in_range (int_of_digits (group (m_caps m) 1))) eqn:Hin; cbn [negb];
    [|apply IH; assumption].
  destruct (is_empty (strip link_text)); [apply IH; assumption|].
  destruct (contains (L "View All") (strip link_text)); [apply IH; assumption|].
  destruct (has_id categories _); [apply IH; assumption|].
  apply IH. apply Forall_app. split; [assumption|].
  constructor; [|constructor]. apply Hrange. assumption.
Qed.

Lemma filter_by_id_in_range (A B : Z) (cat_list : list descriptor) :
  Forall (in_id_range A B) (Range.filter_by_id A B cat_list).
Proof.
  unfold Range.filter_by_id. apply List.Forall_forall. intros d Hd.
  apply filter_In in Hd. destruct Hd as [_ Hd].
  apply andb_true_iff in Hd. destruct Hd as [H1 H2].
  unfold in_id_range. lia.
Qed.

Lemma sheets_app (l1 l2 : list event) : sheets (l1 ++ l2) = sheets l1 ++ sheets l2.
Proof. unfold sheets. apply flat_map_app. Qed.

Lemma gets_sheets (g : list event) :
  Forall (fun ev => is_get ev = true) g -> sheets g = [].
Proof.
  induction 1 as [|ev g Hev _ IH]; [reflexivity|].
  destruct ev; try discriminate. simpl. assumption.
Qed.

Section Discovery.
Context {E : env}.

Lemma discover_returns (P : Z -> Prop) (in_range : Z -> bool) (w : World E) :
  (forall cat_id, in_range cat_id = true -> P cat_id) ->
  returns (discover in_range) w
    (fun cats _ l => Forall (fun d => P (cat_id_of d)) cats /\ sheets l = []).
Proof.
  intros Hrange. unfold discover. apply returns_bind.
  eapply returns_weaken; [apply fetch_html_returns|].
  intros html w' l ->. destruct (negb (truthy html)); apply returns_ret.
  - split; [constructor | reflexivity].
  - split; [|reflexivity].
    apply collect_categories_ids; [assumption | constructor].
Qed.

Variable specs : item -> str.

Lemma fetch_page_with_sheets (catalog_id pg : Z) (w : World E) :
  returns (fetch_page_with specs catalog_id pg) w (fun _ _ l => sheets l = []).
Proof.
  eapply returns_weaken; [apply fetch_page_with_returns|].
  intros r w' l ((g & -> & Hg) & _). simpl. apply gets_sheets. assumption.
Qed.

Lemma remaining_pages_sheets (catalog_id n : Z) (pages : list Z) :
  forall (a : agg) (w : World E),
    returns (remaining_pages (fetch_page_with specs) catalog_id n pages a) w
      (fun _ _ l => sheets l = []).
Proof.
  induction pages as [|pg rest IH]; intros a w; cbn [remaining_pages].
  - apply returns_ret. reflexivity.
  - apply returns_bind.
    eapply returns_weaken; [apply fetch_page_with_sheets|].
    intros r w1 l1 Hl1. cbv beta. destruct (is_empty (fst r)).
    + apply returns_bind. apply returns_emit. apply returns_ret.
      rewrite !sheets_app, Hl1. reflexivity.
    + apply returns_bind. apply returns_emit. apply returns_bind.
      destruct (pg <? n)%Z.
      * apply returns_emit. eapply returns_weaken; [apply IH|].
        intros a' w' l Hl. rewrite !sheets_app, Hl1, Hl. reflexivity.
      * apply returns_ret. eapply returns_weaken; [apply IH|].
        intros a' w' l Hl. rewrite !sheets_app, Hl1, Hl. reflexivity.
Qed.

Lemma scrape_with_sheets (base_url : str) (max_pages : Z) (w : World E) :
  returns (scrape_with (fetch_page_with specs) base_url max_pages) w
    (fun _ _ l => sheets l = []).
Proof.
  unfold scrape_with. destruct (parse_catalog_id_from_url base_url) as [cid|].
  - apply returns_bind.
    eapply returns_weaken; [apply fetch_page_with_sheets|].
    intros r w1 l1 Hl1. cbv beta zeta. destruct (is_empty (fst r)).
    + apply returns_bind. apply returns_emit. apply returns_ret.
      rewrite !sheets_app, Hl1. reflexivity.
    + apply returns_bind. apply returns_emit. apply returns_bind.
      eapply returns_weaken; [apply remaining_pages_sheets|].
      intros a' w' l Hl. apply returns_ret.
      rewrite !sheets_app, Hl1, Hl. reflexivity.
  - apply returns_ret. reflexivity.
Qed.

(** A sheet is written only for a category of the list. *)
Lemma scrape_categories_returns (max_pages : Z) (cat_list : list descriptor) :
  forall (w : World E),
    returns (scrape_categories (scrape_with (fetch_page_with specs)) max_pages cat_list) w
      (fun _ _ l => forall cat_id, In cat_id (sheets l) ->
                                   In cat_id (map cat_id_of cat_list)).
Proof.
  induction cat_list as [|[[cat_id base_url] cat_name] rest IH]; intros w;
    cbn [scrape_categories].
  - apply returns_ret. intros c [].
  - apply returns_bind.
    eapply returns_weaken; [apply scrape_with_sheets|].
    intros df w1 l1 Hl1. apply returns_bind.
    destruct (is_empty df).
    + apply returns_ret. eapply returns_weaken; [apply IH|].
      intros u w' l Hl c Hc. rewrite !sheets_app, Hl1 in Hc. simpl in Hc.
      right. apply Hl. assumption.
    + apply returns_emit. eapply returns_weaken; [apply IH|].
      intros u w' l Hl c Hc. rewrite !sheets_app, Hl1 in Hc. simpl in Hc.
      destruct Hc as [<- | Hc]; [left; reflexivity | right; apply Hl; assumption].
Qed.

End Discovery.

Lemma in_range_test (A B cat_id : Z) :
  negb ((cat_id <? A)%Z || (cat_id >? B)%Z) = true -> (A <= cat_id <= B)%Z.
Proof.
  intros H. apply negb_true_iff in H. apply orb_false_iff in H.
  destruct H as [H1 H2]. apply Z.ltb_ge in H1.
  rewrite Z.gtb_ltb in H2. apply Z.ltb_ge in H2. lia.
Qed.

(** C9.  With the discovery restricted to the ids from A to B, every category
    [get_all_category_urls] of rangeWithSpecs.py returns has its id in that
    range, and so has every category that [main] of range.py keeps for
    scraping; in both programs a sheet is written only for an id in the
    range. *)
Theorem discovery_in_range (E : env) (MAX_PAGES A B : Z) (w : World E) :
  (forall r w' l,
      RangeWithSpecs.get_all_category_urls A B w = (r, w', l) ->
      exists cat_list, r = Ret cat_list /\ Forall (in_id_range A B) cat_list)
  /\ (forall cat_list, Forall (in_id_range A B) (Range.filter_by_id A B cat_list))
  /\ (forall r w' l cat_id,
        RangeWithSpecs.main MAX_PAGES A B w = (r, w', l) ->
        In cat_id (sheets l) -> (A <= cat_id <= B)%Z)
  /\ (forall r w' l cat_id,
        Range.main MAX_PAGES A B w = (r, w', l) ->
        In cat_id (sheets l) -> (A <= cat_id <= B)%Z).
Proof.
  assert (Hids : forall cats cat_id,
             Forall (in_id_range A B) cats -> In cat_id (map cat_id_of cats) ->
             (A <= cat_id <= B)%Z).
  { intros cats cat_id Hc Hin. apply in_map_iff in Hin. destruct Hin as (d & <- & Hd).
    rewrite List.Forall_forall in Hc. apply Hc. assumption. }
  split; [|split; [|split]].
  - intros r w' l Hrun.
    destruct (returns_unique _ _ _ _ _ _
                (discover_returns (fun c => (A <= c <= B)%Z) _ w (in_range_test A B))
                Hrun)
      as (cats & -> & Hc & _).
    exists cats. split; [reflexivity | assumption].
  - apply filter_by_id_in_range.
  - intros r w' l cat_id Hrun Hin.
    assert (Hret : returns (RangeWithSpecs.main MAX_PAGES A B) w
                     (fun _ _ l => forall c, In c (sheets l) -> (A <= c <= B)%Z)).
    { unfold RangeWithSpecs.main. apply returns_bind.
      eapply returns_weaken;
        [apply (discover_returns (fun c => (A <= c <= B)%Z) _ w (in_range_test A B))|].
      intros cats w1 l1 [Hc Hl1]. destruct (is_empty cats).
      - apply returns_ret. intros c Hcin. rewrite sheets_app, Hl1 in Hcin. destruct Hcin.
      - apply try_except_returns.
        eapply returns_weaken; [apply scrape_categories_returns|].
        intros u w2 l2 Hl2 c Hcin. rewrite sheets_app, Hl1 in Hcin.
        eapply Hids; [exact Hc | apply Hl2; assumption]. }
    destruct (returns_unique _ _ _ _ _ _ Hret Hrun) as (u & _ & H). apply H. assumption.
  - intros r w' l cat_id Hrun Hin.
    assert (Hret : returns (Range.main MAX_PAGES A B) w
                     (fun _ _ l => forall c, In c (sheets l) -> (A <= c <= B)%Z)).
    { unfold Range.main. apply returns_bind.
      eapply returns_weaken;
        [apply (discover_returns (fun _ => True) (fun _ => true) w); trivial|].
      intros cats w1 l1 [_ Hl1]. destruct (is_empty cats).
      - apply returns_ret. intros c Hcin. rewrite sheets_app, Hl1 in Hcin.
        destruct Hcin.
      - destruct (is_empty (Range.filter_by_id A B cats)).
        + apply returns_ret. intros c Hcin. rewrite sheets_app, Hl1 in Hcin.
          destruct Hcin.
        + apply try_except_returns.
          eapply returns_weaken; [apply scrape_categories_returns|].
          intros u w2 l2 Hl2 c Hcin. rewrite sheets_app, Hl1 in Hcin.
          eapply Hids; [apply filter_by_id_in_range | apply Hl2; assumption]. }
    destruct (returns_unique _ _ _ _ _ _ Hret Hrun) as (u & _ & H). apply H. assumption.
Qed.

(** ** Cleaning a description *)

Lemma drop_while_length {A} (f : A -> bool) (l : list A) :
  length (drop_while f l) <= length l.
Proof.
  induction l as [|a l IH]; simpl; [lia|]. destruct (f a); simpl; lia.
Qed.

Lemma strip_length (s : str) : length (strip s) <= length s.
Proof.
  unfold strip, rstrip, lstrip. rewrite length_rev.
  etransitivity; [apply drop_while_length|]. rewrite length_rev.
  apply drop_while_length.
Qed.

(** What precedes and what follows the first occurrence of a character. *)
Lemma after_first_spec (c : ascii) (s : str) :
  match after_first c s with
  | Some r => exists pre, s = pre ++ c :: r /\ ~ In c pre
  | None => ~ In c s
  end.
Proof.
  induction s as [|a s IH]; simpl; [tauto|].
  destruct (chr_eqb a c) eqn:Hac.
  - unfold chr_eqb in Hac. apply Ascii.eqb_eq in Hac. subst.
    exists []. split; [reflexivity | intros []].
  - assert (Hne : a <> c).
    { intros ->. unfold chr_eqb in Hac. rewrite Ascii.eqb_refl in Hac. discriminate. }
    destruct (after_first c s) as [r|].
    + destruct IH as (pre & -> & Hpre). exists (a :: pre). split; [reflexivity|].
      intros [H | H]; [contradiction | apply Hpre; assumption].
    + intros [H | H]; [contradiction | apply IH; assumption].
Qed.

(** [s.rsplit(c, 1)[0]]: all of [s] when [c] does not occur in it, what
    precedes the last [c] otherwise. *)
Lemma rsplit1_head_spec (c : ascii) (s : str) :
  (~ In c s /\ rsplit1_head c s = s)
  \/ (exists u v, s = u ++ c :: v /\ ~ In c v /\ rsplit1_head c s = u).
Proof.
  unfold rsplit1_head. pose proof (after_first_spec c (rev s)) as H.
  destruct (after_first c (rev s)) as [r|].
  - right. destruct H as (pre & Hrev & Hpre).
    exists (rev r), (rev pre). repeat split.
    + apply (f_equal (@rev ascii)) in Hrev.
      rewrite rev_involutive, rev_app_distr in Hrev. simpl in Hrev.
      rewrite <- app_assoc in Hrev. exact Hrev.
    + intros Hin. apply in_rev in Hin. contradiction.
  - left. split; [|reflexivity]. intros Hin. apply H. apply in_rev in Hin.
    exact Hin.
Qed.

Lemma rsplit1_head_length (c : ascii) (s : str) :
  length (rsplit1_head c s) <= length s.
Proof.
  destruct (rsplit1_head_spec c s) as [[_ ->] | (u & v & Hs & _ & ->)]; [lia|].
  rewrite Hs, length_app. lia.
Qed.

Lemma truncate_length (t : str) : length (truncate t) <= 200 + length (L "...").
Proof.
  unfold truncate, slice_to. destruct (200 <? length t) eqn:Hlen.
  - rewrite length_app. pose proof (rsplit1_head_length space (firstn 200 t)) as H.
    rewrite length_firstn in H. lia.
  - apply Nat.ltb_ge in Hlen. lia.
Qed.

Lemma clean_description_length (desc : str) :
  length (clean_description desc) <= 200 + length (L "...").
Proof.
  unfold clean_description. destruct (is_empty desc); [simpl; lia|].
  etransitivity; [apply strip_length | apply truncate_length].
Qed.

(** *** The collapsed text *)

Lemma split_ws_words (s : str) :
  forall cur,
    Forall (fun a => is_space a = false) cur ->
    Forall (fun w => w <> [] /\ Forall (fun a => is_space a = false) w) (split_ws cur s).
Proof.
  induction s as [|a s IH]; intros cur Hcur; simpl.
  - destruct cur as [|b cur]; [constructor|].
    constructor; [|constructor]. split.
    + intros H. apply (f_equal (@length ascii)) in H. rewrite length_rev in H.
      discriminate.
    + apply Forall_rev. assumption.
  - destruct (is_space a) eqn:Ha.
    + destruct cur as [|b cur]; [apply IH; constructor|].
      constructor; [|apply IH; constructor]. split.
      * intros H. apply (f_equal (@length ascii)) in H. rewrite length_rev in H.
        discriminate.
      * apply Forall_rev. assumption.
    + apply IH. constructor; assumption.
Qed.

Lemma space_not_newline : is_newline space = false.
Proof. reflexivity. Qed.

Lemma not_space_not_newline (a : ascii) : is_space a = false -> is_newline a = false.
Proof.
  intros H. destruct (is_newline a) eqn:Hn; [|reflexivity].
  apply newline_is_space in Hn. congruence.
Qed.

Lemma join_space_clean (words : list str) :
  Forall (fun w => w <> [] /\ Forall (fun a => is_space a = false) w) words ->
  no_newline (join [space] words) /\ no_leading_space (join [space] words).
Proof.
  induction 1 as [|w words [Hne Hw] Hwords [IHn IHl]]; [split; constructor|].
  assert (Hwn : no_newline w).
  { unfold no_newline. eapply List.Forall_impl; [|exact Hw].
    intros a. apply not_space_not_newline. }
  assert (Hwl : forall rest, no_leading_space (w ++ rest)).
  { intros rest. destruct w as [|a w]; [contradiction|].
    inversion Hw; subst. assumption. }
  cbn [join]. destruct words as [|w2 words].
  - split; [assumption|]. specialize (Hwl []). rewrite app_nil_r in Hwl. assumption.
  - split; [|apply Hwl].
    unfold no_newline in *. apply Forall_app. split; [assumption|].
    apply Forall_app. split; [|assumption].
    constructor; [apply space_not_newline | constructor].
Qed.

Lemma collapse_ws_clean (desc : str) :
  no_newline (collapse_ws desc) /\ no_leading_space (collapse_ws desc).
Proof.
  unfold collapse_ws, split. apply join_space_clean. apply split_ws_words. constructor.
Qed.

(** *** The three substitutions *)

Lemma ends_in_eol_at_eol (ml : bool) (r : regex) p s c p' s' c' :
  matches ml r p s c p' s' c' -> ends_in_eol r = true -> at_eol ml s' = true.
Proof.
  induction 1; simpl; intros He; try discriminate.
  - apply IHmatches2. assumption.
  - assumption.
Qed.

Lemma no_newline_app_r (s1 s2 : str) : no_newline (s1 ++ s2) -> no_newline s2.
Proof. unfold no_newline. intros H. apply Forall_app in H. tauto. Qed.

Lemma no_newline_app_l (s1 s2 : str) : no_newline (s1 ++ s2) -> no_newline s1.
Proof. unfold no_newline. intros H. apply Forall_app in H. tauto. Qed.

Lemma at_eol_no_newline (s : str) : at_eol false s = true -> no_newline s -> s = [].
Proof.
  destruct s as [|a s]; [reflexivity|]. simpl. intros H Hn.
  apply andb_true_iff in H. destruct H as [H _].
  inversion Hn; subst. congruence.
Qed.

Lemma read_between_same (p : str) : read_between p p = [].
Proof. unfold read_between. rewrite Nat.sub_diag. reflexivity. Qed.

Lemma sub_scan_nil (ml : bool) (r : regex) (fuel : nat) (p : str) :
  sub_scan ml r fuel p [] = [].
Proof.
  destruct fuel as [|fuel]; [reflexivity|]. cbn [sub_scan search_from].
  destruct (match_here ml r p []) as [m|] eqn:Hm; [|reflexivity].
  apply match_here_sound in Hm. apply matches_span in Hm.
  destruct Hm as (w & Hw & _). symmetry in Hw. apply app_eq_nil in Hw.
  destruct Hw as [_ Hsuf]. rewrite Hsuf, read_between_same. reflexivity.
Qed.

(** On a text without newline, removing the matches of a pattern that ends
    in [$] leaves a beginning of the text. *)
Lemma sub_scan_prefix (r : regex) (fuel : nat) (p s : str) :
  ends_in_eol r = true -> no_newline s ->
  exists rest, s = sub_scan false r fuel p s ++ rest.
Proof.
  intros He Hn. destruct fuel as [|fuel]; [exists []; rewrite app_nil_r; reflexivity|].
  cbn [sub_scan].
  destruct (search_from false r p s) as [[p0 m]|] eqn:Hs;
    [|exists []; rewrite app_nil_r; reflexivity].
  apply search_from_sound in Hs. destruct Hs as (w & s0 & -> & -> & Hm).
  apply match_here_sound in Hm.
  pose proof (ends_in_eol_at_eol _ _ _ _ _ _ _ _ Hm He) as Heol.
  destruct (matches_span _ _ _ _ _ _ _ _ Hm) as (w' & Hs0 & _).
  assert (Hsuf : m_suf m = []).
  { apply at_eol_no_newline; [assumption|].
    apply no_newline_app_r in Hn. rewrite Hs0 in Hn.
    apply no_newline_app_r in Hn. assumption. }
  rewrite Hsuf, read_between_rev, sub_scan_nil.
  exists s0. destruct (length [] <? length (w ++ s0)); rewrite app_nil_r; reflexivity.
Qed.

Lemma re_sub_empty_prefix (r : regex) (s : str) :
  ends_in_eol r = true -> no_newline s ->
  exists rest, s = re_sub_empty false r s ++ rest.
Proof. intros. apply sub_scan_prefix; assumption. Qed.

(** The noise-stripped text is a beginning of the collapsed text. *)
Lemma strip_noise_prefix (c : str) :
  no_newline c -> exists rest, c = strip_noise c ++ rest.
Proof.
  intros Hn. unfold strip_noise.
  destruct (re_sub_empty_prefix PRICE_RE c eq_refl Hn) as (r1 & H1).
  set (c1 := re_sub_empty false PRICE_RE c) in *.
  assert (Hn1 : no_newline c1) by (rewrite H1 in Hn; eapply no_newline_app_l; eassumption).
  destruct (re_sub_empty_prefix US_PRICE_RE c1 eq_refl Hn1) as (r2 & H2).
  set (c2 := re_sub_empty false US_PRICE_RE c1) in *.
  assert (Hn2 : no_newline c2) by (rewrite H2 in Hn1; eapply no_newline_app_l; eassumption).
  destruct (re_sub_empty_prefix PCS_RE c2 eq_refl Hn2) as (r3 & H3).
  exists (r3 ++ r2 ++ r1). rewrite !app_assoc. rewrite <- H3, <- H2. exact H1.
Qed.

Lemma no_leading_space_prefix (s t rest : str) :
  no_leading_space s -> s = t ++ rest -> no_leading_space t.
Proof. intros Hs ->. destruct t; [exact I | exact Hs]. Qed.

Lemma lstrip_id (s : str) : no_leading_space s -> lstrip s = s.
Proof.
  destruct s as [|a s]; [reflexivity|]. unfold no_leading_space, lstrip.
  cbn [drop_while]. intros H. rewrite H. reflexivity.
Qed.

Lemma strip_ellipsis (cut : str) :
  no_leading_space cut -> strip (cut ++ L "...") = cut ++ L "...".
Proof.
  intros H. unfold strip. rewrite lstrip_id.
  - unfold rstrip. rewrite rev_app_distr.
    change (rev (L "...")) with ["."%char; "."%char; "."%char].
    cbn [app drop_while]. change (is_space ".") with false. cbv iota.
    cbn [rev]. rewrite rev_involutive, <- !app_assoc. reflexivity.
  - destruct cut; [reflexivity | exact H].
Qed.

(** C4, as amended.  A cleaned description has at most 200 characters plus
    the ellipsis marker.  When the collapsed, noise-stripped text has more
    than 200 characters, the result is, followed by the marker: the part of
    the first 200 characters before their last space, when there is one; all
    of the first 200 characters, when they hold no space. *)
Theorem description_is_cut (desc : str) :
  let t := strip_noise (collapse_ws desc) in
  length (clean_description desc) <= 200 + length (L "...")
  /\ (200 < length t ->
      (~ In space (firstn 200 t)
       /\ clean_description desc = firstn 200 t ++ L "...")
      \/ (exists u v, firstn 200 t = u ++ space :: v /\ ~ In space v
                      /\ clean_description desc = u ++ L "...")).
Proof.
  intros t. split; [apply clean_description_length|]. intros Hlen.
  assert (Hdesc : is_empty desc = false).
  { destruct desc; [|reflexivity]. subst t. vm_compute in Hlen. lia. }
  assert (Hclean : clean_description desc
                   = strip (rsplit1_head space (firstn 200 t) ++ L "...")).
  { unfold clean_description. rewrite Hdesc. fold t. unfold truncate, slice_to.
    apply Nat.ltb_lt in Hlen. rewrite Hlen. reflexivity. }
  destruct (collapse_ws_clean desc) as [Hnl Hlead].
  destruct (strip_noise_prefix _ Hnl) as (rest & Hrest). fold t in Hrest.
  assert (Ht : no_leading_space t) by (eapply no_leading_space_prefix; eassumption).
  pose proof (firstn_skipn 200 t) as Hsplit.
  destruct (rsplit1_head_spec space (firstn 200 t)) as [[Hno Hcut] | (u & v & Huv & Hv & Hcut)].
  - left. split; [assumption|]. rewrite Hclean, Hcut. apply strip_ellipsis.
    eapply no_leading_space_prefix; [exact Ht | symmetry; exact Hsplit].
  - right. exists u, v. split; [assumption|]. split; [assumption|].
    rewrite Hclean, Hcut. apply strip_ellipsis.
    eapply (no_leading_space_prefix t u (space :: v ++ skipn 200 t)); [exact Ht|].
    rewrite <- Hsplit at 1. rewrite Huv, <- app_assoc. reflexivity.
Qed.

(** * Examples: the theorems at work, and the statements that fail *)

(** ** C1 *)



(** ** C2 *)

Lemma emitted_records_are_valid_witness :
  (exists rows w' l,
      Main.scrape_lcsc_category (E:=same_page_env) CATEGORY_874 5%Z tt = (Ret rows, w', l)
      /\ Forall emitted_ok rows)
  /\ (exists rows w' l,
        Claude.scrape_lcsc_category (E:=flaky_env) CATEGORY_874 4%Z tt = (Ret rows, w', l)
        /\ Forall emitted_ok rows)
  /\ (exists rows w' l,
        scrape_with (E:=three_pages_env) (fetch_page_with (fun _ => []))
          CATEGORY_874 0%Z tt = (Ret rows, w', l)
        /\ Forall emitted_ok rows).
Proof.
  split; [|split]; do 3 eexists; (split; [vm_compute; reflexivity|]).
  - eapply (proj1 emitted_records_are_valid same_page_env CATEGORY_874 5%Z tt).
    vm_compute; reflexivity.
  - eapply (proj1 (proj2 emitted_records_are_valid) flaky_env CATEGORY_874 4%Z tt).
    vm_compute; reflexivity.
  - eapply (proj2 (proj2 emitted_records_are_valid) three_pages_env (fun _ => [])
              CATEGORY_874 0%Z tt).
    vm_compute; reflexivity.
Defined.

(** ** C3 *)

Lemma rows_are_first_occurrences_witness :
  (exists rows w' l,
      Main.scrape_lcsc_category (E:=same_page_env) CATEGORY_874 5%Z tt = (Ret rows, w', l)
      /\ rows = first_occurrences (candidates l)
      /\ length (candidates l) = 2 /\ length rows = 1)
  /\ (exists rows w' l,
        Claude.scrape_lcsc_category (E:=flaky_env) CATEGORY_874 4%Z tt = (Ret rows, w', l)
        /\ rows = first_occurrences (candidates l))
  /\ (exists rows w' l,
        scrape_with (E:=three_pages_env) (fetch_page_with (fun _ => []))
          CATEGORY_874 0%Z tt = (Ret rows, w', l)
        /\ rows = first_occurrences (candidates l)
        /\ length (candidates l) = 4 /\ length rows = 2).
Proof.
  split; [|split]; do 3 eexists; (split; [vm_compute; reflexivity|]).
  - split; [|split; reflexivity].
    eapply (proj1 rows_are_first_occurrences same_page_env CATEGORY_874 5%Z tt).
    vm_compute; reflexivity.
  - eapply (proj1 (proj2 rows_are_first_occurrences) flaky_env CATEGORY_874 4%Z tt).
    vm_compute; reflexivity.
  - split; [|split; reflexivity].
    eapply (proj2 (proj2 rows_are_first_occurrences) three_pages_env (fun _ => [])
              CATEGORY_874 0%Z tt).
    vm_compute; reflexivity.
Defined.

(** ** C5 *)



(** ** C6 *)


Example main_scrape_raises :
  Main.scrape_lcsc_category (E:=down_env) CATEGORY_874 5%Z tt
  = (Raise Timeout, tt, [EvGet CATEGORY_874]).
Proof. vm_compute. reflexivity. Qed.


(** ** C7 *)

Lemma consecutive_failures_witness :
  (exists r w' l,
      Claude.scrape_lcsc_category (E:=down_env) CATEGORY_874 4%Z tt = (r, w', l)
      /\ two_skips_end l /\ length l = 4)
  /\ Claude.pages_loop (E:=down_env) CATEGORY_874 4 [1; 2; 3; 4]%Z empty_agg 0 tt
     = (Ret empty_agg, tt,
        [EvGet CATEGORY_874; EvSkip 1; EvGet (CATEGORY_874 ++ L "?page=2"); EvSkip 2])
  /\ (exists r w' l,
        Claude.pages_loop (E:=flaky_env) CATEGORY_874 4 [1; 2; 3; 4]%Z empty_agg 0 tt
        = (r, w', l)
        /\ In (EvGet (CATEGORY_874 ++ L "?page=4")) l).
Proof.
  split; [|split].
  - do 3 eexists. split; [vm_compute; reflexivity|]. split; [|reflexivity].
    eapply (proj1 (consecutive_failures down_env CATEGORY_874 4%Z) tt).
    vm_compute; reflexivity.
  - apply (proj1 (proj2 (consecutive_failures down_env CATEGORY_874 4%Z))
             1%Z 2%Z [3; 4]%Z empty_agg tt tt tt
             [EvGet CATEGORY_874] [EvGet (CATEGORY_874 ++ L "?page=2")]);
      vm_compute; reflexivity.
  - destruct (proj2 (proj2 (consecutive_failures flaky_env CATEGORY_874 4%Z))
                1%Z 2%Z 3%Z 4%Z [] empty_agg tt tt tt tt
                [EvGet CATEGORY_874] [EvGet (CATEGORY_874 ++ L "?page=2")]
                [EvGet (CATEGORY_874 ++ L "?page=3")] PAGE_A
                ltac:(vm_compute; reflexivity) ltac:(vm_compute; reflexivity)
                ltac:(vm_compute; discriminate) ltac:(vm_compute; reflexivity))
      as (r & w' & l & Hrun & Hin).
    exists r, w', l. split; [exact Hrun | exact Hin].
Defined.

(** ** C10 *)

Lemma first_page_without_products_witness :
  parse_catalog_id_from_url CATEGORY_874 = Some 874%Z
  /\ fetch_page_with (E:=empty_first_env) (fun _ => []) 874 1 tt
     = (Ret ([], Some 5%Z), tt, [EvPost 874 1])
  /\ scrape_with (E:=empty_first_env) (fetch_page_with (fun _ => []))
       CATEGORY_874 0%Z tt
     = (Ret [], tt, [EvPost 874 1; EvStop 1])
  /\ scrape_with (E:=down_env) (fetch_page_with (fun _ => []))
       CATEGORY_874 0%Z tt
     = (Ret [], tt, [EvPost 874 1; EvStop 1]).
Proof.
  assert (Hparse : parse_catalog_id_from_url CATEGORY_874 = Some 874%Z)
    by (vm_compute; reflexivity).
  assert (Hfetch : fetch_page_with (E:=empty_first_env) (fun _ => []) 874 1 tt
                   = (Ret ([], Some 5%Z), tt, [EvPost 874 1]))
    by (vm_compute; reflexivity).
  split; [exact Hparse|]. split; [exact Hfetch|]. split.
  - apply (proj1 (first_page_without_products empty_first_env (fun _ => [])
                    CATEGORY_874 0%Z 874%Z tt Hparse) (Some 5%Z) tt [EvPost 874 1] Hfetch).
  - apply (proj2 (first_page_without_products down_env (fun _ => [])
                    CATEGORY_874 0%Z 874%Z tt Hparse) NetConnectionError tt);
      [reflexivity | right; reflexivity].
Defined.

(** ** C8 *)

Example specs_of_item_with_params :
  RangeWithSpecs.build_specs_from_item item_with_params
  = [(L "Category", L "Transistors"); (L "Manufacturer", L "DIODES");
     (L "Type", L "N-Channel")].
Proof. vm_compute. reflexivity. Qed.

Lemma specs_map_witness :
  RangeWithSpecs.dict_get (L "Category") (RangeWithSpecs.core_specs item_with_params)
  = Some (L "Transistors")
  /\ RangeWithSpecs.dict_get (L "Category")
       (RangeWithSpecs.build_specs_from_item item_with_params)
     = Some (L "Transistors")
  /\ List.NoDup (map fst (RangeWithSpecs.build_specs_from_item item_with_params)).
Proof.
  assert (Hcore : RangeWithSpecs.dict_get (L "Category")
                    (RangeWithSpecs.core_specs item_with_params)
                  = Some (L "Transistors")) by (vm_compute; reflexivity).
  split; [exact Hcore|]. split.
  - apply (proj1 (proj2 (proj2 (proj2 (specs_map item_with_params))))). exact Hcore.
  - apply (proj1 (specs_map item_with_params)).
Defined.

(** ** C9 *)

Lemma discovery_in_range_witness :
  exists cat_list w' l,
    RangeWithSpecs.get_all_category_urls (E:=index_env) 1201 1400 tt
    = (Ret cat_list, w', l)
    /\ map cat_id_of cat_list = [1300%Z]
    /\ Forall (in_id_range 1201 1400) cat_list.
Proof.
  do 3 eexists. split; [vm_compute; reflexivity|]. split; [reflexivity|].
  destruct (proj1 (discovery_in_range index_env 0%Z 1201%Z 1400%Z tt) _ _ _
              ltac:(vm_compute; reflexivity)) as (cats & Hret & Hall).
  injection Hret as <-. exact Hall.
Defined.

Example range_main_filters :
  map cat_id_of
    (Range.filter_by_id 1 50
       [(5%Z, L "u5", L "Resistors"); (1300%Z, L "u1300", L "Sensors");
        (50%Z, L "u50", L "Relays")])
  = [5%Z; 50%Z].
Proof. reflexivity. Qed.

(** ** C4 *)

(** 201 characters without a space: the result is the first 200 and the
    marker; there was no whitespace to cut at. *)
Lemma truncation_claim_fails : ~ truncation_claim.
Proof.
  intros H. destruct (H LONG_WORD) as [_ H2].
  assert (Ht : strip_noise (collapse_ws LONG_WORD) = LONG_WORD)
    by (vm_compute; reflexivity).
  rewrite Ht in H2. cbv zeta in H2.
  destruct (H2 ltac:(vm_compute; lia)) as (k & a & _ & Hnth & Hspace & _).
  apply nth_error_In in Hnth. unfold LONG_WORD in Hnth.
  apply repeat_spec in Hnth. subst a. discriminate.
Qed.

Example long_word_cut :
  clean_description LONG_WORD = repeat "a"%char 200 ++ L "...".
Proof. vm_compute. reflexivity. Qed.

Lemma description_is_cut_witness :
  200 < length (strip_noise (collapse_ws LONG_TEXT))
  /\ firstn 200 (strip_noise (collapse_ws LONG_TEXT))
     = repeat "a"%char 100 ++ space :: repeat "b"%char 99
  /\ clean_description LONG_TEXT = repeat "a"%char 100 ++ L "...".
Proof.
  assert (Hlen : 200 < length (strip_noise (collapse_ws LONG_TEXT)))
    by (vm_compute; lia).
  split; [exact Hlen|]. split; [vm_compute; reflexivity|].
  destruct (proj2 (description_is_cut LONG_TEXT) Hlen)
    as [[Hno _] | (u & v & Huv & Hv & Hclean)].
  - exfalso. apply Hno. vm_compute. tauto.
  - vm_compute. reflexivity.
Defined.

(** * Sheet names *)

(** ** Substitution of a class *)

Lemma search_from_cls (f : ascii -> bool) (w : str) : forall p a s',
  Forall (fun b => f b = false) w -> f a = true ->
  search_from false (Cls f) p (w ++ a :: s')
  = Some (rev w ++ p, Matched (a :: rev w ++ p) s' no_caps).
Proof.
  induction w as [|b w IH]; intros p a s' Hw Ha.
  - cbn. rewrite Ha. reflexivity.
  - inversion Hw as [|? ? Hb Hw']; subst.
    cbn [app search_from]. unfold match_here. cbn [rmatch]. rewrite Hb.
    rewrite IH by assumption. cbn [rev]. rewrite <- !app_assoc. reflexivity.
Qed.

Lemma search_from_cls_none (f : ascii -> bool) (s : str) : forall p,
  Forall (fun b => f b = false) s -> search_from false (Cls f) p s = None.
Proof.
  induction s as [|b s IH]; intros p Hs.
  - reflexivity.
  - inversion Hs as [|? ? Hb Hs']; subst.
    cbn [search_from]. unfold match_here. cbn [rmatch]. rewrite Hb.
    apply IH. assumption.
Qed.

Lemma first_in_class (f : ascii -> bool) (s : str) :
  Forall (fun b => f b = false) s
  \/ exists w a s', s = w ++ a :: s' /\ Forall (fun b => f b = false) w /\ f a = true.
Proof.
  induction s as [|b s IH].
  - left. constructor.
  - destruct (f b) eqn:Hb.
    + right. exists [], b, s. split; [reflexivity|]. split; [constructor|assumption].
    + destruct IH as [IH|(w & a & s' & -> & Hw & Ha)].
      * left. constructor; assumption.
      * right. exists (b :: w), a, s'. split; [reflexivity|].
        split; [constructor; assumption|assumption].
Qed.

Lemma map_outside_class (f : ascii -> bool) (c : ascii) (s : str) :
  Forall (fun b => f b = false) s -> map (fun a => if f a then c else a) s = s.
Proof.
  induction 1 as [|b s Hb _ IH]; [reflexivity|].
  cbn [map]. rewrite Hb, IH. reflexivity.
Qed.

Lemma sub_scan_with_cls (f : ascii -> bool) (c : ascii) : forall fuel s p,
  length s < fuel ->
  sub_scan_with false (Cls f) [c] fuel p s = map (fun a => if f a then c else a) s.
Proof.
  induction fuel as [|fuel IH]; intros s p Hlen; [lia|].
  cbn [sub_scan_with].
  destruct (first_in_class f s) as [Hs|(w & a & s' & -> & Hw & Ha)].
  - rewrite search_from_cls_none by assumption.
    symmetry. apply map_outside_class. assumption.
  - rewrite search_from_cls by assumption. cbn [m_suf m_pre].
    rewrite read_between_rev.
    rewrite length_app in *. cbn [length] in *.
    replace (length s' <? length w + S (length s')) with true
      by (symmetry; apply Nat.ltb_lt; lia).
    rewrite IH by lia.
    rewrite map_app. cbn [map]. rewrite Ha.
    rewrite (map_outside_class f c w) by assumption. reflexivity.
Qed.

(** Substituting one character for a class of characters works character by
    character. *)
Lemma re_sub_cls (f : ascii -> bool) (c : ascii) (s : str) :
  re_sub false (Cls f) [c] s = map (fun a => if f a then c else a) s.
Proof. unfold re_sub. apply sub_scan_with_cls. lia. Qed.

(** ** Decimal numerals *)

Lemma str_of_nat_inj (i j : nat) : str_of_nat i = str_of_nat j -> i = j.
Proof.
  unfold str_of_nat. intros H.
  apply (f_equal string_of_list_ascii) in H.
  rewrite !string_of_list_ascii_of_string in H.
  apply (f_equal NilEmpty.uint_of_string) in H.
  rewrite !NilEmpty.usu in H. injection H as H.
  apply (f_equal Nat.of_uint) in H.
  rewrite !DecimalNat.Unsigned.of_to in H. exact H.
Qed.

Lemma str_of_nat_digits (n : nat) :
  Forall (fun a => is_digit a = true) (str_of_nat n).
Proof.
  unfold str_of_nat. generalize (Nat.to_uint n). intros d.
  induction d; cbn [NilEmpty.string_of_uint list_ascii_of_string];
    constructor; (reflexivity || assumption).
Qed.

Lemma digit_allowed (a : ascii) : is_digit a = true -> sheet_forbidden a = false.
Proof.
  destruct a as [[] [] [] [] [] [] [] []]; vm_compute; congruence.
Qed.

Lemma str_of_nat_short (k : nat) : k < 100 -> length (str_of_nat k) <= 2.
Proof.
  intros Hk.
  assert (H : forallb (fun k => length (str_of_nat k) <=? 2) (seq 0 100) = true)
    by (vm_compute; reflexivity).
  rewrite forallb_forall in H.
  apply Nat.leb_le. apply H. apply in_seq. lia.
Qed.

(** ** The candidates *)

Lemma suffixed_inj (base : str) (i j : nat) :
  suffixed base i = suffixed base j -> i = j.
Proof.
  unfold suffixed. intros H.
  apply app_inv_head in H. apply app_inv_head in H.
  apply str_of_nat_inj. exact H.
Qed.

Lemma allowed_firstn (n : nat) (s : str) :
  Forall (fun a => sheet_forbidden a = false) s ->
  Forall (fun a => sheet_forbidden a = false) (firstn n s).
Proof.
  revert n. induction s as [|a s IH]; intros [|n] Hs; cbn; try constructor.
  - inversion Hs; assumption.
  - apply IH. inversion Hs; assumption.
Qed.

Lemma suffixed_allowed (base : str) (k : nat) :
  Forall (fun a => sheet_forbidden a = false) base ->
  Forall (fun a => sheet_forbidden a = false) (suffixed base k).
Proof.
  intros Hb. unfold suffixed.
  apply List.Forall_app. split; [apply allowed_firstn; assumption|].
  apply List.Forall_app. split; [repeat constructor|].
  eapply List.Forall_impl; [|apply str_of_nat_digits].
  intros a. apply digit_allowed.
Qed.

Lemma suffixed_length (base : str) (k : nat) :
  length (suffixed base k) <= 29 + length (str_of_nat k).
Proof.
  unfold suffixed. rewrite !length_app, length_firstn. cbn [L list_ascii_of_string length].
  lia.
Qed.

Lemma sheet_base_allowed (raw_name fallback : str) :
  Forall (fun a => sheet_forbidden a = false) (sheet_base raw_name fallback).
Proof.
  unfold sheet_base, SHEET_FORBIDDEN_RE.
  change (L "_") with ["_"%char]. rewrite re_sub_cls.
  set (s := strip _).
  assert (H : Forall (fun a => sheet_forbidden a = false)
                (map (fun a => if sheet_forbidden a then "_"%char else a) s)).
  { apply List.Forall_forall. intros a Ha. apply in_map_iff in Ha.
    destruct Ha as (b & <- & _). destruct (sheet_forbidden b) eqn:Hb;
      [reflexivity|assumption]. }
  destruct (31 <? _); [apply allowed_firstn|]; assumption.
Qed.

Lemma sheet_base_length (raw_name fallback : str) :
  length (sheet_base raw_name fallback) <= 31.
Proof.
  unfold sheet_base.
  destruct (31 <? _) eqn:H.
  - rewrite length_firstn. lia.
  - apply Nat.ltb_ge in H. exact H.
Qed.

(** ** The loop *)

Lemma sheet_name_loop_none (base : str) (used : gset str) : forall fuel name suffix,
  sheet_name_loop fuel base name suffix used = None ->
  forall j, suffix <= j -> j + 2 <= suffix + fuel -> suffixed base j ∈ used.
Proof.
  induction fuel as [|fuel IH]; intros name suffix Hn j Hlo Hhi; [lia|].
  cbn [sheet_name_loop] in Hn.
  destruct (decide (name ∈ used)) as [_|_]; [|discriminate].
  destruct (Nat.eq_dec j suffix) as [->|Hne].
  - destruct fuel as [|fuel]; [lia|].
    cbn [sheet_name_loop] in Hn.
    destruct (decide (suffixed base suffix ∈ used)) as [Hin|_];
      [exact Hin|discriminate].
  - apply (IH _ _ Hn); lia.
Qed.

Lemma sheet_name_loop_some (base : str) (used : gset str) : forall fuel name suffix r,
  sheet_name_loop fuel base name suffix used = Some r ->
  (r ∉ used) /\
  ((r = name) \/
   ((name ∈ used) /\
    exists k, suffix <= k /\ k + 2 <= suffix + fuel /\ r = suffixed base k /\
      forall j, suffix <= j -> j < k -> suffixed base j ∈ used)).
Proof.
  induction fuel as [|fuel IH]; intros name suffix r Hr; [discriminate|].
  cbn [sheet_name_loop] in Hr.
  destruct (decide (name ∈ used)) as [Hin|Hout].
  - destruct (IH _ _ _ Hr) as [Hfresh [->|(Hin' & k & Hlo & Hhi & -> & Hbelow)]].
    + split; [assumption|]. right. split; [assumption|].
      exists suffix. split; [lia|]. split.
      * destruct fuel; [discriminate|lia].
      * split; [reflexivity|]. intros j H1 H2. lia.
    + split; [assumption|]. right. split; [assumption|].
      exists k. split; [lia|]. split; [lia|]. split; [reflexivity|].
      intros j H1 H2. destruct (Nat.eq_dec j suffix) as [->|Hne]; [assumption|].
      apply Hbelow; lia.
  - injection Hr as <-. split; [assumption|]. left. reflexivity.
Qed.

(** The candidates differ from one another, so [size used + 1] of them cannot
    all be taken. *)
Lemma candidates_not_all_used (base : str) (used : gset str) :
  ~ (forall j, 1 <= j -> j <= size used + 1 -> suffixed base j ∈ used).
Proof.
  intros Hall.
  set (l := map (suffixed base) (seq 1 (size used + 1))).
  assert (Hnd : base.NoDup l).
  { apply NoDup_ListNoDup. unfold l.
    apply Finite.Injective_map_NoDup; [|apply List.seq_NoDup].
    intros i j. apply suffixed_inj. }
  assert (Hsub : (list_to_set l : gset str) ⊆ used).
  { intros x Hx. apply elem_of_list_to_set in Hx.
    apply list_elem_of_In in Hx. unfold l in Hx. apply in_map_iff in Hx.
    destruct Hx as (j & <- & Hj). apply in_seq in Hj. apply Hall; lia. }
  apply subseteq_size in Hsub.
  rewrite size_list_to_set in Hsub by assumption.
  unfold l in Hsub. rewrite length_map, length_seq in Hsub. lia.
Qed.

Lemma sheet_name_loop_total (base : str) (used : gset str) :
  exists name, sheet_name_loop (size used + 2) base base 1 used = Some name.
Proof.
  destruct (sheet_name_loop (size used + 2) base base 1 used) as [name|] eqn:H.
  - exists name. reflexivity.
  - exfalso. apply (candidates_not_all_used base used).
    intros j H1 H2. apply (sheet_name_loop_none _ _ _ _ _ H); lia.
Qed.

(** ** The function *)

Lemma make_excel_sheet_name_facts (raw_name fallback : str) (used : gset str) :
  let base := sheet_base raw_name fallback in
  exists name,
    make_excel_sheet_name raw_name fallback used = Some (name, {[name]} ∪ used)
    /\ (name ∉ used)
    /\ (((base ∉ used) /\ name = base)
        \/ ((base ∈ used) /\
            exists k, 1 <= k <= size used + 1 /\ name = suffixed base k /\
              forall j, 1 <= j < k -> suffixed base j ∈ used))
    /\ Forall (fun a => sheet_forbidden a = false) name.
Proof.
  intros base. unfold make_excel_sheet_name. fold base.
  destruct (sheet_name_loop_total base used) as [name H].
  exists name. rewrite H. split; [reflexivity|].
  apply sheet_name_loop_some in H.
  destruct H as [Hfresh [->|(Hin & k & Hlo & Hhi & -> & Hbelow)]].
  - split; [assumption|]. split; [left; split; [assumption|reflexivity]|].
    apply sheet_base_allowed.
  - split; [assumption|]. split.
    + right. split; [assumption|]. exists k.
      split; [lia|]. split; [reflexivity|].
      intros j [H1 H2]. apply Hbelow; assumption.
    + apply suffixed_allowed, sheet_base_allowed.
Qed.

(** The [while] loop of [make_excel_sheet_name] ends, whatever names are in
    use; the name returned was not in use, and is afterwards. *)
Theorem sheet_name_is_new (raw_name fallback : str) (used : gset str) :
  exists name,
    make_excel_sheet_name raw_name fallback used = Some (name, {[name]} ∪ used)
    /\ (name ∉ used).
Proof.
  destruct (make_excel_sheet_name_facts raw_name fallback used)
    as (name & H & Hnew & _).
  exists name. split; assumption.
Qed.

(** The name returned is the sanitized name itself when that is free, and
    otherwise carries the least suffix, counted from 1, whose name is free;
    the suffix never exceeds the number of names in use by more than one. *)
Theorem sheet_name_least_suffix (raw_name fallback : str) (used : gset str) :
  let base := sheet_base raw_name fallback in
  exists name used',
    make_excel_sheet_name raw_name fallback used = Some (name, used')
    /\ (((base ∉ used) /\ name = base)
        \/ ((base ∈ used) /\
            exists k, 1 <= k <= size used + 1 /\ name = suffixed base k /\
              (suffixed base k ∉ used) /\
              forall j, 1 <= j < k -> suffixed base j ∈ used)).
Proof.
  intros base.
  destruct (make_excel_sheet_name_facts raw_name fallback used)
    as (name & H & Hnew & Hshape & _).
  fold base in Hshape.
  exists name, ({[name]} ∪ used). split; [assumption|].
  destruct Hshape as [Hl|(Hin & k & Hk & -> & Hbelow)]; [left; assumption|].
  right. split; [assumption|]. exists k.
  split; [assumption|]. split; [reflexivity|]. split; assumption.
Qed.

(** None of the characters [\ / * ? : [ ]] occurs in a sheet name. *)
Theorem sheet_name_allowed (raw_name fallback : str) (used : gset str) :
  exists name used',
    make_excel_sheet_name raw_name fallback used = Some (name, used')
    /\ Forall (fun a => sheet_forbidden a = false) name.
Proof.
  destruct (make_excel_sheet_name_facts raw_name fallback used)
    as (name & H & _ & _ & Hok).
  exists name, ({[name]} ∪ used). split; assumption.
Qed.

(** With fewer than 99 names in use, a sheet name has at most 31
    characters. *)
Theorem sheet_name_length (raw_name fallback : str) (used : gset str) :
  size used < 99 ->
  exists name used',
    make_excel_sheet_name raw_name fallback used = Some (name, used')
    /\ length name <= 31.
Proof.
  intros Hsize.
  destruct (make_excel_sheet_name_facts raw_name fallback used)
    as (name & H & _ & Hshape & _).
  exists name, ({[name]} ∪ used). split; [assumption|].
  destruct Hshape as [[_ ->]|(_ & k & Hk & -> & _)].
  - apply sheet_base_length.
  - pose proof (suffixed_length (sheet_base raw_name fallback) k) as Hlen.
    pose proof (str_of_nat_short k) as Hshort. lia.
Qed.

Lemma sheet_name_length_witness :
  size (list_to_set [L "Resistors"; L "Resistors_1"] : gset str) < 99
  /\ exists name used',
       make_excel_sheet_name (L " Resistors ") (L "cat_874")
         (list_to_set [L "Resistors"; L "Resistors_1"]) = Some (name, used')
       /\ length name <= 31.
Proof.
  assert (H : size (list_to_set [L "Resistors"; L "Resistors_1"] : gset str) < 99)
    by (vm_compute; lia).
  split; [exact H|].
  exact (sheet_name_length (L " Resistors ") (L "cat_874") _ H).
Defined.

(** ** The names of one workbook *)

Lemma sheet_names_facts (requests : list (str * str)) : forall used,
  exists names used',
    sheet_names requests used = Some (names, used')
    /\ (forall x, x ∈ used' <-> In x names \/ x ∈ used)
    /\ length names = length requests
    /\ List.NoDup names
    /\ (forall n, In n names -> n ∉ used)
    /\ List.Forall (fun n => Forall (fun a => sheet_forbidden a = false) n) names.
Proof.
  induction requests as [|[raw_name fallback] requests IH]; intros used.
  - exists [], used. cbn [sheet_names].
    split; [reflexivity|].
    split; [intros x; cbn [In]; tauto|].
    split; [reflexivity|]. split; [constructor|].
    split; [intros n []|constructor].
  - destruct (make_excel_sheet_name_facts raw_name fallback used)
      as (name & Hname & Hnew & _ & Hallowed).
    destruct (IH ({[name]} ∪ used))
      as (names & used' & Hrun & Hset & Hlen & Hnd & Hout & Hok).
    assert (Hhere : name ∈ ({[name]} ∪ used : gset str)).
    { apply elem_of_union_l. apply elem_of_singleton. reflexivity. }
    exists (name :: names), used'. cbn [sheet_names]. rewrite Hname, Hrun.
    split; [reflexivity|].
    split.
    { intros x. rewrite Hset, elem_of_union, elem_of_singleton. cbn [In].
      intuition congruence. }
    split; [cbn [length]; lia|].
    split.
    { constructor; [|assumption]. intros Hin. apply Hout in Hin. contradiction. }
    split.
    { intros n [<-|Hin]; [assumption|]. apply Hout in Hin.
      intros Hu. apply Hin. apply elem_of_union_r. assumption. }
    constructor; assumption.
Qed.

(** However the sheets of a workbook are named, and whatever names were
    already taken, every call gets a name, no two sheets get the same one,
    and none gets a name that was taken. *)
Theorem sheet_names_distinct (requests : list (str * str)) (used : gset str) :
  exists names used',
    sheet_names requests used = Some (names, used')
    /\ length names = length requests
    /\ List.NoDup names
    /\ (forall n, In n names -> n ∉ used)
    /\ (forall x, x ∈ used' <-> In x names \/ x ∈ used).
Proof.
  destruct (sheet_names_facts requests used)
    as (names & used' & Hrun & Hset & Hlen & Hnd & Hout & _).
  exists names, used'. repeat (split; [assumption|]). assumption.
Qed.

(** * The validator, exactly *)

(** A greedy repetition of a character class reads a run of the class up to
    the first character outside it, when what follows the pattern matches
    there. *)
Lemma rep_loop_cls_greedy_until {R : Type} (ml : bool) (f : ascii -> bool)
  (k : @kont R) (rest : str) :
  match rest with [] => True | b :: _ => f b = false end ->
  forall (ds : str) (fuel n : nat) (p : str) (c : caps) (x : R),
    Forall (fun a => f a = true) ds ->
    n <= length ds -> length (ds ++ rest) < fuel ->
    k (rev ds ++ p) rest c = Some x ->
    rep_loop (rmatch ml (Cls f)) true k fuel n p (ds ++ rest) c = Some x.
Proof.
  intros Hrest.
  induction ds as [|a ds IH]; intros fuel n p c x Hds Hn Hfuel Hk.
  - destruct fuel as [|fuel]; [simpl in Hfuel; lia|].
    cbn [app rev] in *. cbn [rep_loop rmatch].
    assert (Hn0 : n = 0) by (simpl in Hn; lia). subst n.
    destruct rest as [|b rest']; [exact Hk|]. rewrite Hrest. exact Hk.
  - destruct fuel as [|fuel]; [simpl in Hfuel; lia|].
    inversion Hds as [|? ? Ha Hds']; subst.
    cbn [app]. cbn [rep_loop rmatch]. rewrite Ha.
    assert (Hlt : (length (ds ++ rest) <? length (a :: ds ++ rest)) = true).
    { apply Nat.ltb_lt. simpl. lia. }
    rewrite Hlt.
    assert (IH' : rep_loop (rmatch ml (Cls f)) true k fuel (pred n) (a :: p)
                    (ds ++ rest) c = Some x).
    { apply IH; try assumption.
      - simpl in Hn. lia.
      - simpl in Hfuel. lia.
      - simpl in Hk. rewrite <- app_assoc in Hk. exact Hk. }
    cbn [rmatch] in IH'. rewrite IH'. reflexivity.
Qed.

Lemma newline_not_digit (a : ascii) : is_newline a = true -> is_digit a = false.
Proof.
  unfold is_newline, is_digit, between. intros H. apply Nat.eqb_eq in H.
  rewrite H. reflexivity.
Qed.

Lemma accepted_code_matches (code : str) :
  accepted_code code -> matched (re_match false LCSC_CODE_RE code) = true.
Proof.
  intros (ds & tail & -> & Hds & Hlen & Htail).
  assert (Hrest : match tail with [] => True | b :: _ => is_digit b = false end).
  { destruct Htail as [->|(nl & -> & Hnl)]; [exact I|].
    apply newline_not_digit. assumption. }
  assert (Heol : at_eol false tail = true).
  { destruct Htail as [->|(nl & -> & Hnl)]; cbn [at_eol is_empty];
      [reflexivity|]. rewrite Hnl. reflexivity. }
  unfold re_match, match_here, LCSC_CODE_RE.
  cbn [Seq rmatch at_bol Chr]. change (chr_eqb "C" "C") with true. cbv iota.
  match goal with
  | |- matched (rep_loop _ _ ?K ?fu ?n ?p _ ?c) = true =>
      pose proof (rep_loop_cls_greedy_until false is_digit K tail Hrest
                    ds fu n p c) as HH
  end.
  cbn [rmatch] in HH. rewrite Heol in HH.
  erewrite HH; [reflexivity|assumption|lia|lia|reflexivity].
Qed.

Lemma validate_product_facts (p : product) :
  validate_product p = true <->
  2 <= length (mpn p) /\ manufacturer p <> [] /\ accepted_code (lcsc_code p).
Proof.
  unfold validate_product. split.
  - intros H.
    destruct (is_empty (mpn p)) eqn:H1; [discriminate|].
    destruct (is_empty (lcsc_code p)) eqn:H2; [discriminate|].
    destruct (is_empty (manufacturer p)) eqn:H3; [discriminate|]. simpl in H.
    destruct (matched (re_match false LCSC_CODE_RE (lcsc_code p))) eqn:H4;
      [|discriminate].
    simpl in H.
    destruct (length (mpn p) <? 2) eqn:H5; [discriminate|].
    apply Nat.ltb_ge in H5.
    split; [assumption|]. split; [apply is_empty_false; assumption|].
    apply lcsc_code_shape in H4.
    destruct H4 as (ds & tail & Hcode & Hds & Hlen & Htail).
    exists ds, tail. repeat split; assumption.
  - intros (Hlen & Hman & Hcode).
    rewrite (accepted_code_matches _ Hcode).
    destruct Hcode as (ds & tail & -> & _).
    destruct (mpn p) as [|a1 m]; [simpl in Hlen; lia|].
    destruct (manufacturer p) as [|a3 m3]; [contradiction|].
    cbn [is_empty orb negb].
    destruct (length (a1 :: m) <? 2) eqn:H5; [|reflexivity].
    apply Nat.ltb_lt in H5. lia.
Qed.

(** [validate_product] accepts a record exactly when its part number has two
    characters or more, its manufacturer is not empty, and its code is a C
    followed by four digits or more and at most one final newline. *)
Theorem validate_product_exact (p : product) :
  validate_product p = true <->
  2 <= length (mpn p) /\ manufacturer p <> [] /\ accepted_code (lcsc_code p).
Proof. apply validate_product_facts. Qed.

(** * Stripped texts *)

Lemma drop_while_split {A} (f : A -> bool) (l : list A) :
  exists w, l = w ++ drop_while f l /\ Forall (fun a => f a = true) w.
Proof.
  induction l as [|a l IH]; cbn [drop_while].
  - exists []. split; [reflexivity | constructor].
  - destruct (f a) eqn:Ha.
    + destruct IH as (w & Hl & Hw). exists (a :: w).
      split; [cbn [app]; f_equal; exact Hl | constructor; assumption].
    + exists []. split; [reflexivity | constructor].
Qed.

Lemma rstrip_prefix (s : str) : exists t, s = rstrip s ++ t.
Proof.
  unfold rstrip. destruct (drop_while_split is_space (rev s)) as (w & Hs & _).
  exists (rev w). rewrite <- rev_app_distr, <- Hs, rev_involutive. reflexivity.
Qed.

Lemma lstrip_no_leading_space (s : str) : no_leading_space (lstrip s).
Proof.
  unfold lstrip, no_leading_space.
  destruct (drop_while is_space s) as [|a t] eqn:H; [exact I|].
  eapply drop_while_head. exact H.
Qed.

Lemma strip_no_leading_space (s : str) : no_leading_space (strip s).
Proof.
  unfold strip. destruct (rstrip_prefix (lstrip s)) as [t Ht].
  eapply no_leading_space_prefix; [apply lstrip_no_leading_space | exact Ht].
Qed.

Lemma strip_is_stripped (s : str) : is_stripped (strip s).
Proof. split; [apply strip_no_leading_space | apply strip_no_trailing_space]. Qed.

Lemma rstrip_id (s : str) : no_trailing_space s -> rstrip s = s.
Proof.
  intros H. unfold rstrip. destruct (rev s) as [|a r] eqn:Hr.
  - apply (f_equal (@rev ascii)) in Hr. rewrite rev_involutive in Hr.
    subst. reflexivity.
  - apply (f_equal (@rev ascii)) in Hr. rewrite rev_involutive in Hr.
    cbn [rev] in Hr. cbn [drop_while]. rewrite (H (rev r) a Hr).
    cbn [rev]. symmetry. exact Hr.
Qed.

(** [strip] changes nothing in a stripped text. *)
Lemma strip_id (s : str) : is_stripped s -> strip s = s.
Proof.
  intros [Hl Hr]. unfold strip. rewrite (lstrip_id s Hl). apply rstrip_id. exact Hr.
Qed.

Lemma nil_is_stripped : is_stripped [].
Proof.
  split; [exact I|]. intros w a H. destruct w; discriminate.
Qed.

(** * Category URLs *)

(** ** Matching does not depend on the text before the position *)

Section Shift.
Context {R R' : Type}.
Variable ml : bool.
Variable f : R -> R'.
Variable q : str.

Lemma option_map_or_else (x y : option R) :
  option_map f (or_else x y) = or_else (option_map f x) (option_map f y).
Proof. destruct x; reflexivity. Qed.

Lemma read_between_shift (p p' : str) :
  read_between (p ++ q) (p' ++ q) = read_between p p'.
Proof.
  unfold read_between. rewrite !length_app.
  replace (length p' + length q - (length p + length q))
    with (length p' - length p) by lia.
  rewrite firstn_app.
  replace (length p' - length p - length p') with 0 by lia.
  cbn [firstn]. rewrite app_nil_r. reflexivity.
Qed.

Lemma rep_loop_shift (r : regex) (g : bool) :
  (forall p s c (k : @kont R) (k' : @kont R'),
      (forall p' s' c', k' (p' ++ q) s' c' = option_map f (k p' s' c')) ->
      rmatch ml r (p ++ q) s c k' = option_map f (rmatch ml r p s c k)) ->
  forall (k : @kont R) (k' : @kont R'),
    (forall p' s' c', k' (p' ++ q) s' c' = option_map f (k p' s' c')) ->
    forall fuel n p s c,
      rep_loop (rmatch ml r) g k' fuel n (p ++ q) s c
      = option_map f (rep_loop (rmatch ml r) g k fuel n p s c).
Proof.
  intros Hbody k k' Hk.
  induction fuel as [|fuel IH]; intros n p s c; [reflexivity|].
  cbn [rep_loop].
  assert (Hmore :
    rmatch ml r (p ++ q) s c
      (fun p' s' c' =>
         if length s' <? length s
         then rep_loop (rmatch ml r) g k' fuel (pred n) p' s' c' else None)
    = option_map f
        (rmatch ml r p s c
           (fun p' s' c' =>
              if length s' <? length s
              then rep_loop (rmatch ml r) g k fuel (pred n) p' s' c' else None))).
  { apply Hbody. intros p' s' c'.
    destruct (length s' <? length s); [apply IH | reflexivity]. }
  assert (Hstop :
    match n with O => k' (p ++ q) s c | S _ => None end
    = option_map f (match n with O => k p s c | S _ => None end)).
  { destruct n; [apply Hk | reflexivity]. }
  destruct g; rewrite option_map_or_else, Hmore, Hstop; reflexivity.
Qed.

Lemma rmatch_shift (r : regex) :
  looks_forward r = true ->
  forall p s c (k : @kont R) (k' : @kont R'),
    (forall p' s' c', k' (p' ++ q) s' c' = option_map f (k p' s' c')) ->
    rmatch ml r (p ++ q) s c k' = option_map f (rmatch ml r p s c k).
Proof.
  induction r as [|cls|r1 IH1 r2 IH2|r1 IH1 r2 IH2|g n r IH|g r IH|n r IH| | |];
    cbn [looks_forward]; intros Hfw p s c k k' Hk; cbn [rmatch];
    try discriminate.
  - apply Hk.
  - destruct s as [|a s]; [reflexivity|].
    destruct (cls a); [|reflexivity].
    change (a :: p ++ q) with ((a :: p) ++ q). apply Hk.
  - apply andb_true_iff in Hfw. destruct Hfw as [H1 H2].
    apply IH1; [assumption|]. intros p' s' c'. apply IH2; assumption.
  - apply andb_true_iff in Hfw. destruct Hfw as [H1 H2].
    rewrite option_map_or_else.
    rewrite (IH1 H1 p s c k k' Hk), (IH2 H2 p s c k k' Hk). reflexivity.
  - apply rep_loop_shift; [|assumption].
    intros p0 s0 c0 k0 k0' Hk0. apply IH; assumption.
  - destruct g; rewrite option_map_or_else, (IH Hfw p s c k k' Hk), Hk;
      reflexivity.
  - apply IH; [assumption|]. intros p' s' c'.
    rewrite read_between_shift. apply Hk.
  - destruct (at_eol ml s); [apply Hk | reflexivity].
Qed.

End Shift.

Lemma match_here_shift (ml : bool) (r : regex) (q p s : str) :
  looks_forward r = true ->
  match_here ml r (p ++ q) s = option_map (shift_match q) (match_here ml r p s).
Proof.
  intros Hfw. unfold match_here.
  apply (rmatch_shift ml (shift_match q) q r Hfw).
  intros p' s' c'. reflexivity.
Qed.

Lemma search_from_shift (ml : bool) (r : regex) (q : str) :
  looks_forward r = true ->
  forall s p,
    search_from ml r (p ++ q) s
    = option_map (shift_found q) (search_from ml r p s).
Proof.
  intros Hfw. induction s as [|a s IH]; intros p; cbn [search_from];
    rewrite (match_here_shift ml r q p _ Hfw);
    destruct (match_here ml r p _) as [m|]; cbn [option_map]; try reflexivity.
  change (a :: p ++ q) with ((a :: p) ++ q). apply IH.
Qed.

(** The groups of the leftmost match are the same from wherever the search
    starts counting. *)
Lemma search_from_caps (ml : bool) (r : regex) (q s : str) :
  looks_forward r = true ->
  option_map (fun pm => m_caps (snd pm)) (search_from ml r q s)
  = option_map m_caps (re_search ml r s).
Proof.
  intros Hfw. unfold re_search.
  pose proof (search_from_shift ml r q Hfw s []) as H. cbn [app] in H.
  rewrite H. destruct (search_from ml r [] s) as [[p0 m]|]; reflexivity.
Qed.

(** ** The id in a URL *)

(** No match of [/category/(\d+)\.html] begins within [https://www.lcsc.com]:
    the search goes on after it. *)
Lemma search_skips_site (href : str) :
  search_from false CATEGORY_RE [] (L "https://www.lcsc.com" ++ href)
  = search_from false CATEGORY_RE (rev (L "https://www.lcsc.com")) href.
Proof. vm_compute. reflexivity. Qed.

Lemma parse_catalog_id_absolute (href : str) :
  parse_catalog_id_from_url (L "https://www.lcsc.com" ++ href)
  = parse_catalog_id_from_url href.
Proof.
  unfold parse_catalog_id_from_url.
  assert (H : option_map m_caps
                (re_search false CATEGORY_RE (L "https://www.lcsc.com" ++ href))
              = option_map m_caps (re_search false CATEGORY_RE href)).
  { unfold re_search at 1. rewrite search_skips_site.
    rewrite <- (search_from_caps false CATEGORY_RE (rev (L "https://www.lcsc.com")) href)
      by reflexivity.
    destruct (search_from _ _ _ href) as [[p0 m]|]; reflexivity. }
  destruct (re_search false CATEGORY_RE (L "https://www.lcsc.com" ++ href)) as [m1|];
    destruct (re_search false CATEGORY_RE href) as [m2|];
    cbn [option_map] in H; try discriminate; [|reflexivity].
  injection H as ->. reflexivity.
Qed.

(** ** Discovery *)

Lemma has_id_false (categories : list descriptor) (cat_id : Z) :
  has_id categories cat_id = false -> ~ In cat_id (map cat_id_of categories).
Proof.
  unfold has_id. intros H Hin. apply in_map_iff in Hin.
  destruct Hin as (d & Hd & Hin).
  assert (Ht : existsb (fun d => (cat_id_of d =? cat_id)%Z) categories = true).
  { apply existsb_exists. exists d. split; [assumption|]. apply Z.eqb_eq. assumption. }
  rewrite Ht in H. discriminate.
Qed.

Lemma NoDup_snoc {A} (l : list A) (a : A) :
  List.NoDup l -> ~ In a l -> List.NoDup (l ++ [a]).
Proof.
  intros Hl Ha. apply NoDup_rev in Hl.
  rewrite <- (rev_involutive (l ++ [a])). apply NoDup_rev.
  rewrite rev_app_distr. cbn [rev app]. constructor; [|assumption].
  intros Hin. apply Ha. apply in_rev. assumption.
Qed.

Lemma collect_categories_facts (in_range : Z -> bool) (links : list (str * str)) :
  forall categories,
    List.NoDup (map cat_id_of categories) ->
    Forall well_described categories ->
    Forall (fun d => in_range (cat_id_of d) = true) categories ->
    let r := collect_categories in_range links categories in
    List.NoDup (map cat_id_of r)
    /\ Forall well_described r
    /\ Forall (fun d => in_range (cat_id_of d) = true) r
    /\ exists more, r = categories ++ more.
Proof.
  induction links as [|[href link_text] rest IH]; intros categories Hnd Hwd Hin;
    cbn [collect_categories].
  - cbv zeta. split; [assumption|]. split; [assumption|]. split; [assumption|].
    exists []. rewrite app_nil_r. reflexivity.
  - destruct (re_search false CATEGORY_RE href) as [m|] eqn:Hm;
      [|apply IH; assumption].
    destruct (in_range (int_of_digits (group (m_caps m) 1))) eqn:Hr; cbn [negb];
      [|apply IH; assumption].
    destruct (is_empty (strip link_text)) eqn:He; [apply IH; assumption|].
    destruct (contains (L "View All") (strip link_text)) eqn:Hv;
      [apply IH; assumption|].
    destruct (has_id categories _) eqn:Hh; [apply IH; assumption|].
    match goal with
    | |- context [collect_categories _ _ (categories ++ [?d])] => set (d0 := d)
    end.
    destruct (IH (categories ++ [d0])) as (H1 & H2 & H3 & more & H4).
    + rewrite map_app. apply NoDup_snoc; [assumption|].
      apply has_id_false. exact Hh.
    + apply Forall_app. split; [assumption|]. constructor; [|constructor].
      unfold d0, well_described.
      split; [apply is_empty_false; assumption|].
      split; [apply strip_is_stripped|].
      split; [assumption|].
      destruct (startswith (L "http") href) eqn:Hs.
      * split; [assumption|]. unfold parse_catalog_id_from_url. rewrite Hm.
        reflexivity.
      * split; [reflexivity|]. rewrite parse_catalog_id_absolute.
        unfold parse_catalog_id_from_url. rewrite Hm. reflexivity.
    + apply Forall_app. split; [assumption|]. constructor; [|constructor].
      exact Hr.
    + cbv zeta. split; [assumption|]. split; [assumption|]. split; [assumption|].
      exists ([d0] ++ more). rewrite H4, <- app_assoc. reflexivity.
Qed.

Section Discovered.
Context {E : env}.

Lemma discover_facts (in_range : Z -> bool) (w : World E) :
  exists cat_list w',
    discover in_range w = (Ret cat_list, w', [EvGet CATEGORY_INDEX_URL])
    /\ List.NoDup (map cat_id_of cat_list)
    /\ Forall well_described cat_list
    /\ Forall (fun d => in_range (cat_id_of d) = true) cat_list
    /\ (forall o w1, requests_get E CATEGORY_INDEX_URL w = (o, w1) ->
                     is_failure o = true -> cat_list = []).
Proof.
  destruct (fetch_html_returns CATEGORY_INDEX_URL w) as (html & w1 & l & Hrun & ->).
  unfold discover. unfold bind. rewrite Hrun.
  destruct (negb (truthy html)) eqn:Ht.
  - exists [], w1. cbn. split; [reflexivity|].
    split; [constructor|]. split; [constructor|]. split; [constructor|].
    intros; reflexivity.
  - destruct (collect_categories_facts in_range (soup_find_all_a E (or_empty html)) [])
      as (H1 & H2 & H3 & _); try constructor.
    eexists _, w1. cbn. split; [reflexivity|].
    split; [assumption|]. split; [assumption|]. split; [assumption|].
    intros o w2 Hget Hfail.
    pose proof (fetch_html_failed CATEGORY_INDEX_URL w o w2 Hget Hfail) as Hf.
    rewrite Hf in Hrun. injection Hrun as <- _. discriminate.
Qed.

End Discovered.

(** [get_all_category_urls] of range.py sends one GET, for the index page,
    and does not raise.  The descriptors it returns have distinct ids; each
    has a name that is not empty, is stripped and does not contain
    [View All], and a URL that starts with [http] and from which
    [parse_catalog_id_from_url] reads the id of the descriptor.  When the GET
    fails there is no descriptor. *)
Theorem discovered_categories (E : env) (w : World E) :
  exists cat_list w',
    Range.get_all_category_urls w = (Ret cat_list, w', [EvGet CATEGORY_INDEX_URL])
    /\ List.NoDup (map cat_id_of cat_list)
    /\ Forall well_described cat_list
    /\ (forall o w1, requests_get E CATEGORY_INDEX_URL w = (o, w1) ->
                     is_failure o = true -> cat_list = []).
Proof.
  destruct (discover_facts (fun _ => true) w) as (cats & w' & H1 & H2 & H3 & _ & H5).
  exists cats, w'. repeat (split; [assumption|]). assumption.
Qed.

(** The same of [get_all_category_urls] of rangeWithSpecs.py, whose
    descriptors moreover have their ids between [CAT_ID_START] and
    [CAT_ID_END]. *)
Theorem discovered_categories_in_range (E : env) (A B : Z) (w : World E) :
  exists cat_list w',
    RangeWithSpecs.get_all_category_urls A B w
    = (Ret cat_list, w', [EvGet CATEGORY_INDEX_URL])
    /\ List.NoDup (map cat_id_of cat_list)
    /\ Forall well_described cat_list
    /\ Forall (in_id_range A B) cat_list
    /\ (forall o w1, requests_get E CATEGORY_INDEX_URL w = (o, w1) ->
                     is_failure o = true -> cat_list = []).
Proof.
  destruct (discover_facts
              (fun cat_id => negb ((cat_id <? A)%Z || (cat_id >? B)%Z)) w)
    as (cats & w' & H1 & H2 & H3 & H4 & H5).
  exists cats, w'. repeat (split; [assumption|]).
  split; [|assumption].
  eapply List.Forall_impl; [|exact H4].
  intros d Hd. apply in_range_test. exact Hd.
Qed.

(** Prefixing a link with [https://www.lcsc.com] does not change the id that
    [parse_catalog_id_from_url] reads from it; a URL without
    [/category/<digits>.html] gives no id either way. *)
Theorem catalog_id_of_absolute_url (href : str) :
  parse_catalog_id_from_url (L "https://www.lcsc.com" ++ href)
  = parse_catalog_id_from_url href.
Proof. apply parse_catalog_id_absolute. Qed.

(** * The records of a page of the structured source *)

Lemma clean_description_stripped (desc : str) : is_stripped (clean_description desc).
Proof.
  unfold clean_description. destruct (is_empty desc);
    [apply nil_is_stripped | apply strip_is_stripped].
Qed.

Lemma clean_description_bound (desc : str) : length (clean_description desc) <= 203.
Proof. pose proof (clean_description_length desc) as H. simpl in H. lia. Qed.

(** [validate_product] reads the part number, the code and the manufacturer
    only. *)
Lemma validate_product_fields (m c f d d' c1 c1' c2 c2' c3 c3' s s' : str)
  (pg pg' : option Z) :
  validate_product (Product m c f d c1 c2 c3 s pg)
  = validate_product (Product m c f d' c1' c2' c3' s' pg').
Proof. reflexivity. Qed.

Section Records.
Context {E : env}.

(** The detail fetch: no GET without a code, one GET otherwise; whatever
    comes back, the description is stripped and bounded. *)
Lemma fetch_description_from_detail_run (lcsc_code : str) (w : World E) :
  exists d w',
    fetch_description_from_detail lcsc_code w
    = (Ret d, w', if is_empty lcsc_code then [] else [EvGet (detail_url lcsc_code)])
    /\ is_stripped d /\ length d <= 203.
Proof.
  unfold fetch_description_from_detail. destruct (is_empty lcsc_code).
  - exists [], w. split; [reflexivity|]. split; [apply nil_is_stripped | simpl; lia].
  - fold (detail_url lcsc_code).
    destruct (fetch_html_returns (detail_url lcsc_code) w) as (html & w1 & l & Hrun & ->).
    unfold bind. rewrite Hrun.
    destruct html as [html|].
    + destruct (re_search false DETAIL_DESCRIPTION_RE (soup_get_text E html)) as [m|].
      * eexists _, w1. split; [reflexivity|].
        split; [apply clean_description_stripped | apply clean_description_bound].
      * exists [], w1. split; [reflexivity|].
        split; [apply nil_is_stripped | simpl; lia].
    + exists [], w1. split; [reflexivity|].
      split; [apply nil_is_stripped | simpl; lia].
Qed.

Variable specs : item -> str.

(** The loop over the items of a page: it does not raise; it sends the
    detail requests of the items, in order; it appends the records of the
    accepted items, in order. *)
Lemma api_products_facts (items : list item) :
  forall (products : list product) (w : World E),
  exists new w',
    api_products specs items products w
    = (Ret (products ++ new), w', detail_requests items)
    /\ Forall2 (built_from specs) (List.filter accepted_item items) new.
Proof.
  induction items as [|it rest IH]; intros products w.
  - exists [], w. cbn. rewrite app_nil_r. split; [reflexivity | constructor].
  - cbn [api_products List.filter detail_requests flat_map].
    fold (detail_requests rest). fold (desc_api_of it). fold (item_code it).
    fold (item_mpn it). fold (item_manufacturer it).
    unfold detail_request.
    assert (Hdesc : exists d w1,
               (if is_empty (desc_api_of it)
                then fetch_description_from_detail (item_code it)
                else ret (desc_api_of it)) w
               = (Ret d, w1,
                  if is_empty (desc_api_of it) && negb (is_empty (item_code it))
                  then [EvGet (detail_url (item_code it))] else [])
               /\ (if is_empty (desc_api_of it)
                   then is_stripped d /\ length d <= 203
                   else d = desc_api_of it)).
    { destruct (is_empty (desc_api_of it)).
      - destruct (fetch_description_from_detail_run (item_code it) w)
          as (d & w1 & Hrun & Hd).
        exists d, w1. split; [|exact Hd]. rewrite Hrun.
        destruct (is_empty (item_code it)); reflexivity.
      - exists (desc_api_of it), w. split; reflexivity. }
    destruct Hdesc as (d & w1 & Hrun & Hd).
    unfold bind at 1. rewrite Hrun.
    set (p := Product (item_mpn it) (item_code it) (item_manufacturer it) d _ _ _ _ None).
    assert (Hacc : validate_product p = accepted_item it) by reflexivity.
    rewrite Hacc.
    destruct (accepted_item it).
    + destruct (IH (products ++ [p]) w1) as (new & w' & Hrest & Hnew).
      exists (p :: new), w'. rewrite Hrest. rewrite <- app_assoc.
      split; [reflexivity|].
      constructor; [|assumption].
      unfold built_from, p. cbn [mpn lcsc_code manufacturer category subcategory
                                 childcategory specs_json page description].
      repeat (split; [reflexivity|]). exact Hd.
    + destruct (IH products w1) as (new & w' & Hrest & Hnew).
      exists new, w'. rewrite Hrest. split; [reflexivity | assumption].
Qed.

Lemma fetch_page_with_ok (catalog_id pg : Z) (w w1 : World E) (status : Z)
  (body : str) (d : api_data) :
  requests_post E catalog_id pg w = (NetResponse status body, w1) ->
  is_failure (NetResponse status body) = false ->
  json_loads E body = Some d ->
  fetch_page_with specs catalog_id pg w
  = (let '(r, w', l) := api_products specs (items_of d) [] w1 in
     (match r with
      | Ret products => Ret (products, total_of d)
      | Raise e => Raise e
      end, w', EvPost catalog_id pg :: l)).
Proof.
  intros Hpost Hfail Hjson. cbn [is_failure] in Hfail.
  unfold fetch_page_with, bind, try_except, post, raise_for_status, json.
  rewrite Hpost. simpl. rewrite Hfail. simpl. rewrite Hjson. simpl.
  unfold items_of, total_of.
  destruct (result d) as [r|]; simpl;
    try match goal with
        | |- context [api_products specs ?items [] w1] =>
            destruct (api_products specs items [] w1) as [[[ps|e] w'] l]
        end; simpl; rewrite ?app_nil_r; reflexivity.
Qed.

(** What a page fetch does: after a failed request or an answer that is not
    JSON, nothing but the POST; otherwise the loop over the items of the
    answer. *)
Lemma fetch_page_with_cases (catalog_id pg : Z) (w : World E) :
  (exists w1,
      fetch_page_with specs catalog_id pg w
      = (Ret ([], None), w1, [EvPost catalog_id pg]))
  \/ (exists status body w1 d new w',
         requests_post E catalog_id pg w = (NetResponse status body, w1)
         /\ is_failure (NetResponse status body) = false
         /\ json_loads E body = Some d
         /\ fetch_page_with specs catalog_id pg w
            = (Ret (new, total_of d), w',
               EvPost catalog_id pg :: detail_requests (items_of d))
         /\ Forall2 (built_from specs) (List.filter accepted_item (items_of d)) new).
Proof.
  destruct (requests_post E catalog_id pg w) as [o w1] eqn:Hpost.
  destruct (is_failure o) eqn:Hfail.
  - left. exists w1. apply (fetch_page_failed specs catalog_id pg w o w1 Hpost).
    left. exact Hfail.
  - destruct o as [| |status body]; try discriminate.
    destruct (json_loads E body) as [d|] eqn:Hjson.
    + right.
      destruct (api_products_facts (items_of d) [] w1) as (new & w' & Hrun & Hnew).
      exists status, body, w1, d, new, w'.
      split; [reflexivity|]. split; [assumption|]. split; [assumption|].
      split; [|assumption].
      rewrite (fetch_page_with_ok catalog_id pg w w1 status body d Hpost Hfail Hjson).
      rewrite Hrun. reflexivity.
    + left. exists w1. apply (fetch_page_failed specs catalog_id pg w _ w1 Hpost).
      right. exists status, body. split; [reflexivity | assumption].
Qed.

End Records.

Lemma built_from_tidy (specs : item -> str) (it : item) (p : product) :
  built_from specs it p -> tidy p /\ page p = None.
Proof.
  intros (H1 & H2 & H3 & H4 & H5 & H6 & _ & H8 & H9).
  split; [|assumption]. unfold tidy.
  rewrite H1, H2, H3, H4, H5, H6.
  unfold item_mpn, item_code, item_manufacturer.
  assert (Hd : is_stripped (description p) /\ length (description p) <= 203).
  { destruct (is_empty (desc_api_of it)); [assumption|]. rewrite H9.
    split; [apply clean_description_stripped | apply clean_description_bound]. }
  destruct Hd as [Hd1 Hd2].
  repeat (split; [first [apply strip_is_stripped | assumption]|]).
  apply strip_is_stripped.
Qed.

Lemma built_from_accepted (specs : item -> str) (it : item) (p : product) :
  built_from specs it p -> accepted_item it = true -> validate_product p = true.
Proof.
  intros (H1 & H2 & H3 & _) Hacc. unfold accepted_item in Hacc.
  destruct p as [m c f d c1 c2 c3 s pg]. cbn in H1, H2, H3. subst.
  exact Hacc.
Qed.

(** A page fetch whose request succeeds and whose answer decodes sends, after
    the POST, one GET for each item of the answer that has no description of
    its own and has a code, and nothing else; it returns the total of the
    answer and one record for each item that passes [validate_product], in
    the order of the answer, whatever the detail pages give. *)
Theorem page_fetch_succeeds (E : env) (specs : item -> str) (catalog_id pg : Z)
  (w w1 : World E) (status : Z) (body : str) (d : api_data) :
  requests_post E catalog_id pg w = (NetResponse status body, w1) ->
  is_failure (NetResponse status body) = false ->
  json_loads E body = Some d ->
  exists products w',
    fetch_page_with specs catalog_id pg w
    = (Ret (products, total_of d), w',
       EvPost catalog_id pg :: detail_requests (items_of d))
    /\ Forall2 (built_from specs) (List.filter accepted_item (items_of d)) products.
Proof.
  intros Hpost Hfail Hjson.
  destruct (api_products_facts specs (items_of d) [] w1) as (new & w' & Hrun & Hnew).
  exists new, w'. split; [|assumption].
  rewrite (fetch_page_with_ok specs catalog_id pg w w1 status body d Hpost Hfail Hjson).
  rewrite Hrun. reflexivity.
Qed.
